(** * obsidian-youtube-transcript: a shallow embedding and its properties

    The plugin locates a YouTube URL in a note, retrieves the caption XML,
    decodes it and appends a formatted transcript section.  This file embeds
    the pure parts of the TypeScript sources (detector, parser, entity
    decoder, formatter, track selection), the control flow of the command
    in [main.ts], the retrieval of [transcript.ts] over a network that is a
    parameter, the settings with their tab, and the arithmetic of the
    parser and of the formatter in double precision, and proves properties
    of them.

    JavaScript strings are sequences of UTF-16 code units, so a string is a
    [list N].  Regular expressions are kept as syntax trees that mirror the
    regex literals of the source, and are run by a backtracking matcher that
    follows the ECMAScript matching order (leftmost start, alternatives left
    to right, greedy and lazy quantifiers, empty iterations rejected).  A
    thrown [Error] is the left summand of a sum, carrying its message.  The
    network and the vault are parameters of the command.

    The definitions come first: strings, the matcher, then the functions of
    the source in the order detector, parser and decoder, formatter, track
    selection, command, retrieval, settings, double precision, and last the
    vocabulary of the statements.  The facts follow, function by function. *)

From Stdlib Require Import String Ascii List NArith ZArith QArith Qround Bool Lia.
From Stdlib Require Import PeanoNat.
From Stdlib Require Import Qpower Qabs Lqa.
Import ListNotations.
Close Scope Q_scope.

(* ------------------------------------------------------------------ *)
(** ** JavaScript strings *)

Definition jsstring := list N.

(** An ASCII literal as a JavaScript string. *)
Definition js (s : string) : jsstring := map N_of_ascii (list_ascii_of_string s).

Definition ch (a : ascii) : N := N_of_ascii a.

Arguments js s%_string.
Arguments ch a%_char.

Definition jsstring_eqb (a b : jsstring) : bool :=
  if list_eq_dec N.eq_dec a b then true else false.

(** [strip_prefix p s] is [Some t] exactly when [s = p ++ t]. *)
Fixpoint strip_prefix (p s : jsstring) : option jsstring :=
  match p with
  | [] => Some s
  | a :: p' =>
      match s with
      | [] => None
      | b :: s' => if N.eqb a b then strip_prefix p' s' else None
      end
  end.

(** [String.prototype.startsWith]. *)
Definition startsWith (s p : jsstring) : bool :=
  match strip_prefix p s with Some _ => true | None => false end.

(** [String.prototype.includes]: some suffix of [s] starts with [p]. *)
Fixpoint includes (s p : jsstring) : bool :=
  startsWith s p ||
  match s with
  | [] => false
  | _ :: s' => includes s' p
  end.

(** [Array.prototype.includes] on an array of strings. *)
Definition array_includes (xs : list jsstring) (x : jsstring) : bool :=
  existsb (jsstring_eqb x) xs.

(** [Array.prototype.join]. *)
Fixpoint join (sep : jsstring) (xs : list jsstring) : jsstring :=
  match xs with
  | [] => []
  | [x] => x
  | x :: xs' => x ++ sep ++ join sep xs'
  end.

(** [String.prototype.split] with a one-character separator. *)
Fixpoint split_on (sep : N) (s : jsstring) : list jsstring :=
  match s with
  | [] => [[]]
  | c :: s' =>
      if N.eqb c sep then [] :: split_on sep s'
      else match split_on sep s' with
           | [] => [[c]]
           | w :: ws => (c :: w) :: ws
           end
  end.

(* ------------------------------------------------------------------ *)
(** ** Regular expressions *)

Module Regex.

(** Members of a character class. *)
Inductive citem : Type :=
| CChar (c : N)            (* a single character *)
| CRange (lo hi : N)       (* lo-hi *)
| CSpace                   (* \s *)
| CNonSpace                (* \S *)
| CWord                    (* \w *)
| CDigit.                  (* \d *)

Definition between (lo hi c : N) : bool := N.leb lo c && N.leb c hi.

(** ECMAScript WhiteSpace and LineTerminator code units. *)
Definition is_space (c : N) : bool :=
  between 9 13 c || N.eqb c 32 || N.eqb c 160 || N.eqb c 5760 ||
  between 8192 8202 c || N.eqb c 8232 || N.eqb c 8233 || N.eqb c 8239 ||
  N.eqb c 8287 || N.eqb c 12288 || N.eqb c 65279.

Definition is_digit (c : N) : bool := between 48 57 c.

Definition is_word (c : N) : bool :=
  between 97 122 c || between 65 90 c || is_digit c || N.eqb c 95.

Definition in_item (c : N) (i : citem) : bool :=
  match i with
  | CChar d => N.eqb c d
  | CRange lo hi => between lo hi c
  | CSpace => is_space c
  | CNonSpace => negb (is_space c)
  | CWord => is_word c
  | CDigit => is_digit c
  end.

(** A class [[...]] or [[^...]]. *)
Record cclass : Type := { negated : bool; items : list citem }.

Definition in_class (cl : cclass) (c : N) : bool :=
  xorb (negated cl) (existsb (in_item c) (items cl)).

Definition cls (l : list citem) : cclass := {| negated := false; items := l |}.
Definition ncls (l : list citem) : cclass := {| negated := true; items := l |}.

(** [.] without the s flag: anything but a line terminator. *)
Definition dot : cclass := ncls [CChar 10; CChar 13; CChar 8232; CChar 8233].

Inductive regex : Type :=
| Empty
| Str (s : jsstring)                (* a run of literal characters *)
| Set_ (cl : cclass)                (* one character of a class *)
| Seq (r1 r2 : regex)
| Alt (r1 r2 : regex)               (* r1|r2 *)
| Star (greedy : bool) (r : regex)  (* r* and r*? *)
| Group (i : nat) (r : regex)       (* i-th capturing group *)
| Bol                               (* ^ *)
| Eol.                              (* $ *)

(** r+ , r? and r{n}. *)
Definition Plus (r : regex) : regex := Seq r (Star true r).
Definition Opt (r : regex) : regex := Alt r Empty.
Fixpoint Rep (n : nat) (r : regex) : regex :=
  match n with
  | O => Empty
  | S n' => Seq r (Rep n' r)
  end.

Infix ">>" := Seq (at level 61, right associativity).

(** The matcher state: index into the input, the input that remains, and
    the groups captured so far. *)
Record mstate : Type :=
  { pos : nat; rest : jsstring; caps : list (nat * jsstring) }.

Definition orelse {R : Type} (a b : option R) : option R :=
  match a with Some x => Some x | None => b end.

(** The iteration of a quantified body: [n] bounds the iterations still
    possible, an iteration that consumes nothing is rejected, and a greedy
    quantifier tries one more iteration before it tries to go on. *)
Fixpoint star_loop {R : Type}
  (body : mstate -> (mstate -> option R) -> option R) (greedy : bool)
  (k : mstate -> option R) (n : nat) (st : mstate) {struct n} : option R :=
  match n with
  | O => k st
  | S n' =>
      let again :=
        body st (fun st' =>
          if Nat.ltb (pos st) (pos st') then star_loop body greedy k n' st'
          else None) in
      if greedy then orelse again (k st) else orelse (k st) again
  end.

(** Backtracking matcher in continuation-passing style: [k] is what remains
    to be matched after [r].  [Star] iterates at most once per remaining
    character. *)
Fixpoint run {R : Type} (r : regex) (st : mstate) (k : mstate -> option R)
  {struct r} : option R :=
  match r with
  | Empty => k st
  | Str s =>
      match strip_prefix s (rest st) with
      | Some t => k {| pos := pos st + length s; rest := t; caps := caps st |}
      | None => None
      end
  | Set_ cl =>
      match rest st with
      | c :: t =>
          if in_class cl c
          then k {| pos := S (pos st); rest := t; caps := caps st |}
          else None
      | [] => None
      end
  | Seq r1 r2 => run r1 st (fun st1 => run r2 st1 k)
  | Alt r1 r2 => orelse (run r1 st k) (run r2 st k)
  | Star greedy r' =>
      star_loop (fun st0 k0 => run r' st0 k0) greedy k (length (rest st)) st
  | Group i r' =>
      run r' st (fun st' =>
        k {| pos := pos st'; rest := rest st';
             caps := (i, firstn (pos st' - pos st) (rest st)) :: caps st' |})
  | Bol => if Nat.eqb (pos st) 0 then k st else None
  | Eol => match rest st with [] => k st | _ :: _ => None end
  end.

(** A successful match: the text before it, the matched text ([match[0]]),
    the captured groups, the text after it and the index where it ends. *)
Record rmatch : Type :=
  { before : jsstring; whole : jsstring; groups : list (nat * jsstring);
    after : jsstring; stop : nat }.

(** [match[i]]; [None] is [undefined]. *)
Fixpoint group_of (i : nat) (g : list (nat * jsstring)) : option jsstring :=
  match g with
  | [] => None
  | (j, s) :: g' => if Nat.eqb i j then Some s else group_of i g'
  end.

Definition capture (i : nat) (mt : rmatch) : option jsstring :=
  group_of i (groups mt).

(** Match at exactly this index. *)
Definition match_here (r : regex) (p : nat) (s : jsstring) : option rmatch :=
  match run r {| pos := p; rest := s; caps := [] |} (@Some mstate) with
  | Some st' =>
      Some {| before := []; whole := firstn (pos st' - p) s;
              groups := caps st'; after := rest st'; stop := pos st' |}
  | None => None
  end.

Definition shift (c : N) (mt : rmatch) : rmatch :=
  {| before := c :: before mt; whole := whole mt; groups := groups mt;
     after := after mt; stop := stop mt |}.

(** [RegExp.prototype.exec] from index [p]: the leftmost match. *)
Fixpoint exec_from (r : regex) (p : nat) (s : jsstring) : option rmatch :=
  match match_here r p s with
  | Some mt => Some mt
  | None =>
      match s with
      | [] => None
      | c :: s' => option_map (shift c) (exec_from r (S p) s')
      end
  end.

(** [s.match(r)] for a regex without the g flag. *)
Definition exec (r : regex) (s : jsstring) : option rmatch := exec_from r 0 s.

(** [s.matchAll(r)] for a regex with the g flag: successive leftmost
    matches, each search resuming where the previous match stopped (one
    character further after an empty match). *)
Fixpoint matchAll_from (fuel : nat) (r : regex) (p : nat) (s : jsstring)
  : list rmatch :=
  match fuel with
  | O => []
  | S fuel' =>
      match exec_from r p s with
      | None => []
      | Some mt =>
          mt ::
          match whole mt, after mt with
          | [], [] => []
          | [], _ :: s' => matchAll_from fuel' r (S (stop mt)) s'
          | _ :: _, s' => matchAll_from fuel' r (stop mt) s'
          end
      end
  end.

Definition matchAll (r : regex) (s : jsstring) : list rmatch :=
  matchAll_from (S (length s)) r 0 s.

(** [s.replace(r, f)] for a regex with the g flag and a replacer function. *)
Fixpoint replace_from (fuel : nat) (r : regex) (f : rmatch -> jsstring)
  (p : nat) (s : jsstring) : jsstring :=
  match fuel with
  | O => s
  | S fuel' =>
      match exec_from r p s with
      | None => s
      | Some mt =>
          before mt ++ f mt ++
          match whole mt, after mt with
          | [], [] => []
          | [], c :: s' => c :: replace_from fuel' r f (S (stop mt)) s'
          | _ :: _, s' => replace_from fuel' r f (stop mt) s'
          end
      end
  end.

Definition replace_all (r : regex) (f : rmatch -> jsstring) (s : jsstring)
  : jsstring :=
  replace_from (S (length s)) r f 0 s.

(** [s.replace(r, t)] for a regex without the g flag and a replacement
    text free of [$] patterns: only the first match is replaced. *)
Definition replace_first (r : regex) (t : jsstring) (s : jsstring) : jsstring :=
  match exec r s with
  | None => s
  | Some mt => before mt ++ t ++ after mt
  end.

End Regex.
Import Regex.

(* ------------------------------------------------------------------ *)
(** ** Detector: [extractVideoId] and [findYouTubeUrls] *)

(** [[a-zA-Z0-9_-]] *)
Definition id_class : cclass :=
  cls [CRange 97 122; CRange 65 90; CRange 48 57; CChar 95; CChar 45].

Definition id_pattern (prefix : string) : regex :=
  Str (js prefix) >> Group 1 (Rep 11 (Set_ id_class)).

Definition VIDEO_ID_PATTERNS : list regex :=
  [ id_pattern "youtube.com/watch?v=";
    id_pattern "youtu.be/";
    id_pattern "youtube.com/embed/";
    id_pattern "youtube.com/v/";
    id_pattern "youtube.com/shorts/" ].

(** The loop of [extractVideoId] over a list of patterns. *)
Fixpoint first_id (patterns : list regex) (url : jsstring) : option jsstring :=
  match patterns with
  | [] => None
  | pattern :: more =>
      match exec pattern url with
      | Some mt =>
          match capture 1 mt with
          | Some (c :: t) => Some (c :: t)          (* match?.[1] truthy *)
          | _ => first_id more url
          end
      | None => first_id more url
      end
  end.

Definition extractVideoId (url : jsstring) : option jsstring :=
  first_id VIDEO_ID_PATTERNS url.

Definition LF : N := 10.
Definition DQUOTE : N := 34.
Definition SQUOTE : N := 39.

(** [/[),.\]>]+$/] *)
Definition TRAILING : regex :=
  Plus (Set_ (cls [CChar (ch ")"); CChar (ch ","); CChar (ch "."); CChar (ch "]");
                   CChar (ch ">")])) >> Eol.

(** [/^---\n([\s\S]*?)\n---/] *)
Definition FRONTMATTER : regex :=
  Bol >> Str (js "---" ++ [LF]) >>
  Group 1 (Star false (Set_ (cls [CSpace; CNonSpace]))) >>
  Str (LF :: js "---").

(** The class written [^\s Q ' \n] in the source, Q the double quote. *)
Definition source_char : cclass := ncls [CSpace; CChar DQUOTE; CChar SQUOTE; CChar LF].

Definition quote : cclass := cls [CChar DQUOTE; CChar SQUOTE].

(** The regex  source:\s*[Q']?(https?:\/\/[^\sQ'\n]+youtube[^\sQ'\n]+)[Q']?
    of the source, Q standing for the double quote. *)
Definition SOURCE : regex :=
  Str (js "source:") >> Star true (Set_ (cls [CSpace])) >> Opt (Set_ quote) >>
  Group 1 (Str (js "http") >> Opt (Str (js "s")) >> Str (js "://") >>
           Plus (Set_ source_char) >> Str (js "youtube") >> Plus (Set_ source_char)) >>
  Opt (Set_ quote).

(** [/!?\[.*?\]\((https?:\/\/(?:www\.)?(?:youtube\.com|youtu\.be)[^\s)]+)\)/g] *)
Definition markdownPattern : regex :=
  Opt (Str (js "!")) >> Str (js "[") >> Star false (Set_ dot) >> Str (js "](") >>
  Group 1 (Str (js "http") >> Opt (Str (js "s")) >> Str (js "://") >>
           Opt (Str (js "www.")) >>
           Alt (Str (js "youtube.com")) (Str (js "youtu.be")) >>
           Plus (Set_ (ncls [CSpace; CChar (ch ")")]))) >>
  Str (js ")").

(** The global regex whose only group, spanning all of it, is
    https?:\/\/(?:www\.)?(?:youtube\.com\/watch\?v=|youtu\.be\/)[a-zA-Z0-9_-]{11}[^\s)\]>]*  *)
Definition plainPattern : regex :=
  Group 1 (Str (js "http") >> Opt (Str (js "s")) >> Str (js "://") >>
           Opt (Str (js "www.")) >>
           Alt (Str (js "youtube.com/watch?v=")) (Str (js "youtu.be/")) >>
           Rep 11 (Set_ id_class) >>
           Star true (Set_ (ncls [CSpace; CChar (ch ")"); CChar (ch "]"); CChar (ch ">")]))).

(** The closure [addUrl]; the array [urls] it pushes to is threaded
    through.  The membership test looks up the URL as found, the array
    holds the URLs as trimmed. *)
Definition addUrl (urls : list jsstring) (url : option jsstring) : list jsstring :=
  match url with
  | Some (c :: t) =>
      if negb (array_includes urls (c :: t))
      then urls ++ [replace_first TRAILING [] (c :: t)]
      else urls
  | _ => urls
  end.

Definition addAll (urls : list jsstring) (ms : list rmatch) : list jsstring :=
  fold_left (fun acc mt => addUrl acc (capture 1 mt)) ms urls.

Definition findYouTubeUrls (content : jsstring) : list jsstring :=
  let urls := [] in
  let frontmatter :=
    match exec FRONTMATTER content with
    | Some mt => capture 1 mt
    | None => None
    end in
  let urls :=
    match frontmatter with
    | Some (c :: t) =>
        match exec SOURCE (c :: t) with
        | Some source => addUrl urls (capture 1 source)
        | None => addUrl urls None
        end
    | _ => urls
    end in
  let urls := addAll urls (matchAll markdownPattern content) in
  let urls := addAll urls (matchAll plainPattern content) in
  urls.

(* ------------------------------------------------------------------ *)
(** ** Numbers *)

Local Open Scope Z_scope.

(** The doubles that [parseInt] can return on a run of digits: an
    integer-valued double, [Infinity], or [NaN]. *)
Inductive jsnum : Type :=
| NaN
| PosInf
| Int (z : Z).

(** The double nearest to a natural number [n] (ties to even): exact below
    2^53, otherwise [n] is cut to 53 significant bits; from 2^1024 on the
    result is [Infinity]. *)
Definition round_double (n : Z) : jsnum :=
  if n <? 2 ^ 53 then Int n
  else
    let e := Z.log2 n - 52 in
    let q := n / 2 ^ e in
    let r := n mod 2 ^ e in
    let half := 2 ^ (e - 1) in
    let q' := if r <? half then q
              else if half <? r then q + 1
              else if Z.even q then q else q + 1 in
    let m := q' * 2 ^ e in
    if 2 ^ 1024 <=? m then PosInf else Int m.

(** The value of a digit character in radix up to 36. *)
Definition digit_of (c : N) : option Z :=
  if between 48 57 c then Some (Z.of_N c - 48)
  else if between 97 122 c then Some (Z.of_N c - 87)
  else if between 65 90 c then Some (Z.of_N c - 55)
  else None.

(** The longest prefix of [s] made of digits of the radix, with its value. *)
Fixpoint leading_digits (radix : Z) (acc : Z) (seen : bool) (s : jsstring)
  : option Z :=
  match s with
  | [] => if seen then Some acc else None
  | c :: t =>
      match digit_of c with
      | Some d =>
          if d <? radix then leading_digits radix (acc * radix + d) true t
          else if seen then Some acc else None
      | None => if seen then Some acc else None
      end
  end.

(** [parseInt(s, radix)] on a string that starts with neither white space,
    a sign nor a [0x] prefix, as is every capture of [\d+] and
    [[a-fA-F0-9]+]. *)
Definition parseInt (s : jsstring) (radix : Z) : jsnum :=
  match leading_digits radix 0 false s with
  | Some v => round_double v
  | None => NaN
  end.

(** [ToUint16]. *)
Definition ToUint16 (x : jsnum) : N :=
  match x with
  | Int z => Z.to_N (z mod 65536)
  | _ => 0%N
  end.

(** [String.fromCharCode] with one argument. *)
Definition fromCharCode (x : jsnum) : jsstring := [ToUint16 x].

(** Decimal digits of a natural number, most significant first. *)
Fixpoint digits (fuel : nat) (n : Z) (acc : jsstring) : jsstring :=
  let acc' := Z.to_N (48 + n mod 10) :: acc in
  match fuel with
  | O => acc'
  | S fuel' => if n <? 10 then acc' else digits fuel' (n / 10) acc'
  end.

(** [Number.prototype.toString] on an integer below 2^53 in size, which
    prints as its decimal digits. *)
Definition toString (n : Z) : jsstring :=
  if n <? 0 then ch "-" :: digits (Z.to_nat (Z.log2 (- n))) (- n) []
  else digits (Z.to_nat (Z.log2 n)) n [].

(** [s.padStart(2, "0")]. *)
Definition pad2 (s : jsstring) : jsstring :=
  repeat (ch "0") (2 - length s)%nat ++ s.

(** The arithmetic that the parser leaves in an entry, kept as written:
    [parseFloat] and the product are floating-point operations and are not
    evaluated here. *)
Inductive float_expr : Type :=
| FParseFloat (s : jsstring)
| FLit (z : Z)
| FMul (a b : float_expr).

(* ------------------------------------------------------------------ *)
(** ** Parser: [parseTranscriptXml] and [decodeXmlEntities] *)

Record TranscriptEntry (num : Type) : Type :=
  { text : jsstring; duration : num; offset : num; lang : option jsstring }.

Arguments text {num} _.
Arguments duration {num} _.
Arguments offset {num} _.
Arguments lang {num} _.

(** The regex  <text start=Q(A)Q dur=Q(A)Q>(T)<\/text>  with the g flag,
    where Q stands for the double quote, A for [^Q]* (any run free of
    double quotes) and T for [^<]* (any run free of [<]). *)
Definition RE_XML_TRANSCRIPT : regex :=
  Str (js "<text start=" ++ [DQUOTE]) >>
  Group 1 (Star true (Set_ (ncls [CChar DQUOTE]))) >>
  Str (DQUOTE :: js " dur=" ++ [DQUOTE]) >>
  Group 2 (Star true (Set_ (ncls [CChar DQUOTE]))) >>
  Str (DQUOTE :: js ">") >>
  Group 3 (Star true (Set_ (ncls [CChar (ch "<")]))) >>
  Str (js "</text>").

(** A JavaScript value as far as property lookup on [NAMED_ENTITIES] can
    produce one. *)
Inductive jsvalue : Type :=
| VString (s : jsstring)
| VFunction (name : jsstring)     (* a built-in function *)
| VObjectPrototype.               (* the object [Object.prototype] *)

(** Own properties of the object literal [NAMED_ENTITIES]. *)
Definition NAMED_ENTITIES : list (jsstring * jsstring) :=
  [ (js "amp", js "&"); (js "lt", js "<"); (js "gt", js ">");
    (js "quot", [DQUOTE]); (js "apos", [SQUOTE]); (js "nbsp", js " ") ].

(** Properties that an object literal inherits from [Object.prototype]. *)
Definition Object_prototype : list (jsstring * jsvalue) :=
  [ (js "constructor", VFunction (js "Object"));
    (js "__defineGetter__", VFunction (js "__defineGetter__"));
    (js "__defineSetter__", VFunction (js "__defineSetter__"));
    (js "hasOwnProperty", VFunction (js "hasOwnProperty"));
    (js "__lookupGetter__", VFunction (js "__lookupGetter__"));
    (js "__lookupSetter__", VFunction (js "__lookupSetter__"));
    (js "isPrototypeOf", VFunction (js "isPrototypeOf"));
    (js "propertyIsEnumerable", VFunction (js "propertyIsEnumerable"));
    (js "toString", VFunction (js "toString"));
    (js "valueOf", VFunction (js "valueOf"));
    (js "__proto__", VObjectPrototype);
    (js "toLocaleString", VFunction (js "toLocaleString")) ].

Fixpoint assoc {A : Type} (key : jsstring) (l : list (jsstring * A)) : option A :=
  match l with
  | [] => None
  | (k, v) :: l' => if jsstring_eqb key k then Some v else assoc key l'
  end.

(** [NAMED_ENTITIES[named]]: an own property, else an inherited one, else
    [undefined]. *)
Definition get_entity (named : jsstring) : option jsvalue :=
  match assoc named NAMED_ENTITIES with
  | Some s => Some (VString s)
  | None => assoc named Object_prototype
  end.

Definition truthy (v : jsvalue) : bool :=
  match v with
  | VString [] => false
  | _ => true
  end.

(** The string that [replace] makes of the replacer's return value. *)
Definition ToString (v : jsvalue) : jsstring :=
  match v with
  | VString s => s
  | VFunction name => js "function " ++ name ++ js "() { [native code] }"
  | VObjectPrototype => js "[object Object]"
  end.

(** [/&(?:#(\d+)|#x([a-fA-F0-9]+)|(\w+));/g] *)
Definition ENTITY : regex :=
  Str (js "&") >>
  Alt (Str (js "#") >> Group 1 (Plus (Set_ (cls [CDigit]))))
      (Alt (Str (js "#x") >>
            Group 2 (Plus (Set_ (cls [CRange 97 102; CRange 65 70; CRange 48 57]))))
           (Group 3 (Plus (Set_ (cls [CWord]))))) >>
  Str (js ";").

(** The replacer callback [(match, dec, hex, named) => ...]. *)
Definition replacer (mt : rmatch) : jsstring :=
  match capture 1 mt with
  | Some (c :: t) => fromCharCode (parseInt (c :: t) 10)
  | _ =>
      match capture 2 mt with
      | Some (c :: t) => fromCharCode (parseInt (c :: t) 16)
      | _ =>
          match capture 3 mt with
          | Some (c :: t) =>
              match get_entity (c :: t) with
              | Some entity => if truthy entity then ToString entity else whole mt
              | None => whole mt
              end
          | _ => whole mt
          end
      end
  end.

(** The inner function [decode]: one pass of substitution. *)
Definition decode (input : jsstring) : jsstring :=
  replace_all ENTITY replacer input.

Definition decodeXmlEntities (text : jsstring) : jsstring :=
  decode (decode text).

Definition NO_ENTRIES : jsstring := js "No transcript entries found in response.".

(** The body of the loop over the matches: the guard
    [start && dur && text !== undefined], then the push. *)
Definition entry_of (lang : jsstring) (mt : rmatch)
  : list (TranscriptEntry float_expr) :=
  match capture 1 mt, capture 2 mt, capture 3 mt with
  | Some (s :: start), Some (d :: dur), Some text =>
      [ {| offset := FMul (FParseFloat (s :: start)) (FLit 1000);
           duration := FMul (FParseFloat (d :: dur)) (FLit 1000);
           text := decodeXmlEntities text;
           lang := Some lang |} ]
  | _, _, _ => []
  end.

(** A thrown [Error] is the left summand, carrying its message. *)
Definition parseTranscriptXml (xml lang : jsstring)
  : jsstring + list (TranscriptEntry float_expr) :=
  let entries := flat_map (entry_of lang) (matchAll RE_XML_TRANSCRIPT xml) in
  match entries with
  | [] => inl NO_ENTRIES
  | _ :: _ => inr entries
  end.

(* ------------------------------------------------------------------ *)
(** ** Formatter *)

Record FormatOptions : Type :=
  { includeTimestamps : bool; sectionHeading : jsstring }.

(** [formatTimestamp] in exact arithmetic: the whole seconds are the floor
    of the exact quotient, and the divisions that follow are integer
    divisions.  The source computes in double precision, as
    [Double.formatTimestamp] below does; the two agree on the doubles from 0
    up to 2^53 and differ beyond. *)
Definition formatTimestamp (ms : Q) : jsstring :=
  let totalSeconds := Qfloor (ms / 1000) in
  let hours := totalSeconds / 3600 in
  let minutes := Z.rem totalSeconds 3600 / 60 in
  let seconds := Z.rem totalSeconds 60 in
  let pad := fun n : Z => pad2 (toString n) in
  if 0 <? hours
  then toString hours ++ js ":" ++ pad minutes ++ js ":" ++ pad seconds
  else toString minutes ++ js ":" ++ pad seconds.

(** [formatTranscript] with the offsets in exact arithmetic;
    [Double.formatTranscript] below has them as doubles. *)
Definition formatTranscript (entries : list (TranscriptEntry Q))
  (options : FormatOptions) : jsstring :=
  if includeTimestamps options then
    let lines :=
      map (fun entry =>
             js "[" ++ formatTimestamp (offset entry) ++ js "] " ++ text entry)
          entries in
    [LF] ++ sectionHeading options ++ [LF; LF] ++ join [LF] lines
  else
    let paragraph := join (js " ") (map (fun entry => text entry) entries) in
    [LF] ++ sectionHeading options ++ [LF; LF] ++ paragraph.

Definition hasTranscriptSection (content sectionHeading : jsstring) : bool :=
  includes content sectionHeading.

(* ------------------------------------------------------------------ *)
(** ** Track selection *)

Record CaptionTrack : Type :=
  { baseUrl : option jsstring; url : option jsstring; languageCode : jsstring }.

Definition NO_TRACK : jsstring := js "No suitable caption track found.".

Definition selectTrack (tracks : list CaptionTrack) (lang : jsstring)
  : jsstring + CaptionTrack :=
  let track := find (fun t => jsstring_eqb (languageCode t) lang) tracks in
  let track :=
    match track with
    | Some t => Some t
    | None =>
        let baseLang := hd lang (split_on (ch "-") lang) in
        find (fun t => startsWith (languageCode t) baseLang) tracks
    end in
  let track :=
    match track with
    | Some t => Some t
    | None => nth_error tracks 0
    end in
  match track with
  | Some t => inr t
  | None => inl NO_TRACK
  end.

(* ------------------------------------------------------------------ *)
(** ** The command [fetchTranscriptForCurrentNote] of [main.ts] *)

(** [YouTubeTranscriptSettings]; the fields [includeTimestamps] and
    [sectionHeading] carry a prefix, their names being taken by
    [FormatOptions]. *)
Record YouTubeTranscriptSettings : Type :=
  { language : jsstring;
    setting_includeTimestamps : bool;
    setting_sectionHeading : jsstring }.

Definition DEFAULT_SETTINGS : YouTubeTranscriptSettings :=
  {| language := js "en";
     setting_includeTimestamps := false;
     setting_sectionHeading := js "## Transcript" |}.

(** What an awaited call into the host or the network does. *)
Inductive outcome (A : Type) : Type :=
| Returns (a : A)
| ThrowsError (message : jsstring)    (* an [Error] with this message *)
| ThrowsOther.                        (* some other thrown value *)

Arguments Returns {A} a.
Arguments ThrowsError {A} message.
Arguments ThrowsOther {A}.

(** The collaborators of the command: the text of the active Markdown file
    (absent when there is none), the retrieval of a transcript for a video
    identifier and a language, and the write of [vault.modify], which
    either stores its argument or throws and stores nothing. *)
Record Host : Type :=
  { active_file : option jsstring;
    fetchTranscript : jsstring -> jsstring -> outcome (list (TranscriptEntry Q));
    vault_modify : jsstring -> outcome unit }.

(** What a run leaves behind: the text stored by [vault.modify], if any,
    and the notices shown, oldest first. *)
Record Run : Type :=
  { written : option jsstring; notices : list jsstring }.

Definition stop_with (shown : list jsstring) : Run :=
  {| written := None; notices := shown |}.

Definition failure_notice {A : Type} (o : outcome A) : jsstring :=
  match o with
  | ThrowsError message => js "Failed to fetch transcript: " ++ message
  | _ => js "Failed to fetch transcript: Unknown error"
  end.

Definition fetchTranscriptForCurrentNote (host : Host)
  (settings : YouTubeTranscriptSettings) : Run :=
  match active_file host with
  | None => stop_with [js "No active Markdown file"]
  | Some content =>
      if hasTranscriptSection content (setting_sectionHeading settings)
      then stop_with [js "This note already has a transcript section"]
      else
        let urls := findYouTubeUrls content in
        match nth_error urls 0 with
        | Some (u :: rl) =>
            let firstUrl := u :: rl in
            match extractVideoId firstUrl with
            | Some (v :: id) =>
                let videoId := v :: id in
                let fetching := js "Fetching transcript..." in
                let lang :=
                  match language settings with
                  | [] => js "en"
                  | l => l
                  end in
                match fetchTranscript host videoId lang with
                | Returns transcript =>
                    if Nat.eqb (length transcript) 0
                    then stop_with [fetching; js "No transcript entries found"]
                    else
                      let formatted :=
                        formatTranscript transcript
                          {| includeTimestamps := setting_includeTimestamps settings;
                             sectionHeading := setting_sectionHeading settings |} in
                      let updated := content ++ [LF] ++ formatted in
                      match vault_modify host updated with
                      | Returns _ =>
                          {| written := Some updated;
                             notices :=
                               [fetching;
                                js "Transcript added (" ++
                                toString (Z.of_nat (length transcript)) ++
                                js " entries)"] |}
                      | failed => stop_with [fetching; failure_notice failed]
                      end
                | failed => stop_with [fetching; failure_notice failed]
                end
            | _ => stop_with [js "Could not extract video ID from URL"]
            end
        | _ => stop_with [js "No YouTube URL found in this note"]
        end
  end.

(** The text of the note after the run. *)
Definition document_after (content : jsstring) (r : Run) : jsstring :=
  match written r with
  | Some d => d
  | None => content
  end.

(* ------------------------------------------------------------------ *)
(** ** Retrieval: [transcript.ts] *)

Definition BACKSLASH : N := 92.

(** [JSON.stringify] of a string: [QuoteJSONString].  Control characters,
    the double quote, the backslash and unpaired surrogates are escaped,
    everything else is copied. *)
Definition hex_digit (n : N) : N :=
  if (n <? 10)%N then (48 + n)%N else (87 + n)%N.

Definition UnicodeEscape (c : N) : jsstring :=
  [BACKSLASH; ch "u"; hex_digit (c / 4096); hex_digit (c / 256 mod 16);
   hex_digit (c / 16 mod 16); hex_digit (c mod 16)]%N.

Definition is_leading_surrogate (c : N) : bool := between 55296 56319 c.
Definition is_trailing_surrogate (c : N) : bool := between 56320 57343 c.

Fixpoint quote_chars (s : jsstring) : jsstring :=
  match s with
  | [] => []
  | c :: t =>
      if N.eqb c 8 then BACKSLASH :: ch "b" :: quote_chars t
      else if N.eqb c 9 then BACKSLASH :: ch "t" :: quote_chars t
      else if N.eqb c 10 then BACKSLASH :: ch "n" :: quote_chars t
      else if N.eqb c 12 then BACKSLASH :: ch "f" :: quote_chars t
      else if N.eqb c 13 then BACKSLASH :: ch "r" :: quote_chars t
      else if N.eqb c DQUOTE then BACKSLASH :: DQUOTE :: quote_chars t
      else if N.eqb c BACKSLASH then BACKSLASH :: BACKSLASH :: quote_chars t
      else if (c <? 32)%N then UnicodeEscape c ++ quote_chars t
      else if is_leading_surrogate c then
        match t with
        | d :: t' =>
            if is_trailing_surrogate d then c :: d :: quote_chars t'
            else UnicodeEscape c ++ quote_chars t
        | [] => UnicodeEscape c
        end
      else if is_trailing_surrogate c then UnicodeEscape c ++ quote_chars t
      else c :: quote_chars t
  end.

Definition QuoteJSONString (s : jsstring) : jsstring :=
  DQUOTE :: quote_chars s ++ [DQUOTE].

Module Transcript.

Definition USER_AGENT : jsstring :=
  js "Mozilla/5.0 (Macintosh; Intel Mac OS X 10_15_7) AppleWebKit/537.36 (KHTML, like Gecko) Chrome/131.0.0.0 Safari/537.36".

(** The interfaces of the player response.  The response body is taken at
    the type the source casts it to, unchecked; a member that is absent or
    [null] is [None].  A body of another shape, such as a track without its
    [languageCode], is not a value of these types. *)
Record PlayerCaptionsTracklist : Type :=
  { captionTracks : option (list CaptionTrack) }.

Record Captions : Type :=
  { captions_playerCaptionsTracklistRenderer : option PlayerCaptionsTracklist }.

Record PlayabilityStatus : Type := { status : option jsstring }.

Record PlayerResponse : Type :=
  { captions : option Captions;
    playerCaptionsTracklistRenderer : option PlayerCaptionsTracklist;
    playabilityStatus : option PlayabilityStatus }.

(** The argument and the result of the host's [requestUrl]. *)
Record RequestUrlParam : Type :=
  { request_url : jsstring;
    method : option jsstring;
    headers : list (jsstring * jsstring);
    body : option jsstring }.

Record RequestUrlResponse : Type :=
  { response_status : Z; response_text : jsstring; response_json : PlayerResponse }.

(** The network answers a request, or throws; its answer may depend on the
    requests made before. *)
Definition Network : Type :=
  list RequestUrlParam -> RequestUrlParam -> outcome RequestUrlResponse.

(** An asynchronous computation: from the requests made so far to the
    requests made in the end, with what it returns or throws. *)
Definition Async (A : Type) : Type :=
  list RequestUrlParam -> list RequestUrlParam * outcome A.

Definition resolve {A : Type} (a : A) : Async A := fun log => (log, Returns a).

Definition throw {A : Type} (message : jsstring) : Async A :=
  fun log => (log, ThrowsError message).

(** [await]: a rejection is rethrown, and what follows is not run. *)
Definition await {A B : Type} (m : Async A) (f : A -> Async B) : Async B :=
  fun log =>
    match m log with
    | (log', Returns a) => f a log'
    | (log', ThrowsError message) => (log', ThrowsError message)
    | (log', ThrowsOther) => (log', ThrowsOther)
    end.

Notation "'let*' x ':=' m 'in' k" := (await m (fun x => k))
  (at level 10, x name, m at level 100, k at level 200).

Definition requestUrl (net : Network) (param : RequestUrlParam)
  : Async RequestUrlResponse :=
  fun log => (log ++ [param], net log param).

(** A function that returns or throws an [Error], called from an
    asynchronous one. *)
Definition call {A : Type} (r : jsstring + A) : Async A :=
  match r with
  | inl message => throw message
  | inr a => resolve a
  end.

Definition RECAPTCHA : jsstring :=
  js "class=" ++ [DQUOTE] ++ js "g-recaptcha" ++ [DQUOTE].

(** The regex  QINNERTUBE_API_KEYQ:Q([^Q]+)Q , Q the double quote. *)
Definition KEY_OPEN : jsstring :=
  [DQUOTE] ++ js "INNERTUBE_API_KEY" ++ [DQUOTE] ++ js ":" ++ [DQUOTE].

Definition API_KEY : regex :=
  Str KEY_OPEN >> Group 1 (Plus (Set_ (ncls [CChar DQUOTE]))) >> Str [DQUOTE].

(** The regex  INNERTUBE_API_KEYBQ:BQ([^BQ]+)BQ , B the backslash and Q the
    double quote: the key inside a string of an embedded script. *)
Definition ESCAPED_KEY_OPEN : jsstring :=
  js "INNERTUBE_API_KEY" ++ [BACKSLASH; DQUOTE] ++ js ":" ++ [BACKSLASH; DQUOTE].

Definition ESCAPED_API_KEY : regex :=
  Str ESCAPED_KEY_OPEN >>
  Group 1 (Plus (Set_ (ncls [CChar BACKSLASH; CChar DQUOTE]))) >>
  Str [BACKSLASH; DQUOTE].

Definition TOO_MANY : jsstring :=
  js "YouTube is receiving too many requests. Try again later.".

Definition NO_API_KEY : jsstring :=
  js "Could not find YouTube API key. Video may not be available.".

Definition watch_page (videoId lang : jsstring) : RequestUrlParam :=
  {| request_url := js "https://www.youtube.com/watch?v=" ++ videoId;
     method := None;
     headers := [(js "User-Agent", USER_AGENT); (js "Accept-Language", lang)];
     body := None |}.

Definition extractApiKey (net : Network) (videoId lang : jsstring) : Async jsstring :=
  let* response := requestUrl net (watch_page videoId lang) in
  if includes (response_text response) RECAPTCHA then throw TOO_MANY
  else
    let match_ :=
      match exec API_KEY (response_text response) with
      | Some mt => Some mt
      | None => exec ESCAPED_API_KEY (response_text response)
      end in
    match match_ with
    | Some mt =>
        match capture 1 mt with
        | Some (c :: t) => resolve (c :: t)
        | _ => throw NO_API_KEY
        end
    | None => throw NO_API_KEY
    end.

(** The request body
    [JSON.stringify({context: {client: {clientName, clientVersion}}, videoId})]. *)
Definition member (name : string) (value : jsstring) : jsstring :=
  QuoteJSONString (js name) ++ js ":" ++ value.

Definition player_body (videoId : jsstring) : jsstring :=
  js "{" ++
  member "context"
    (js "{" ++
     member "client"
       (js "{" ++ member "clientName" (QuoteJSONString (js "ANDROID")) ++ js "," ++
        member "clientVersion" (QuoteJSONString (js "20.10.38")) ++ js "}") ++
     js "}") ++
  js "," ++ member "videoId" (QuoteJSONString videoId) ++ js "}".

Definition player_request (videoId apiKey : jsstring) : RequestUrlParam :=
  {| request_url := js "https://www.youtube.com/youtubei/v1/player?key=" ++ apiKey;
     method := Some (js "POST");
     headers := [(js "Content-Type", js "application/json");
                 (js "User-Agent", USER_AGENT)];
     body := Some (player_body videoId) |}.

Definition NO_VIDEO_INFORMATION : jsstring :=
  js "Failed to fetch video information from YouTube.".
Definition DISABLED : jsstring := js "Transcripts are disabled for this video.".
Definition NOT_AVAILABLE : jsstring := js "No transcripts available for this video.".
Definition NO_CAPTION_TRACKS : jsstring := js "No caption tracks found for this video.".

Definition fetchCaptionTracks (net : Network) (videoId apiKey : jsstring)
  : Async (list CaptionTrack) :=
  let* response := requestUrl net (player_request videoId apiKey) in
  if negb (response_status response =? 200) then throw NO_VIDEO_INFORMATION
  else
    let json := response_json response in
    let tracklist :=
      match
        match captions json with
        | Some c => captions_playerCaptionsTracklistRenderer c
        | None => None
        end
      with
      | Some t => Some t
      | None => playerCaptionsTracklistRenderer json
      end in
    match captions json, tracklist with
    | Some _, Some tracklist =>
        let tracks := captionTracks tracklist in
        match tracks with
        | Some (t :: ts) => resolve (t :: ts)
        | _ => throw NO_CAPTION_TRACKS
        end
    | _, _ =>
        let isPlayable :=
          match
            match playabilityStatus json with
            | Some p => status p
            | None => None
            end
          with
          | Some s => jsstring_eqb s (js "OK")
          | None => false
          end in
        throw (if isPlayable then DISABLED else NOT_AVAILABLE)
    end.

(** [/&fmt=[^&]+/] *)
Definition FMT : regex :=
  Str (js "&fmt=") >> Plus (Set_ (ncls [CChar (ch "&")])).

Definition NO_TRANSCRIPT_URL : jsstring :=
  js "No transcript URL found in caption track.".
Definition RATE_LIMITED : jsstring := js "Too many requests. Please try again later.".
Definition NO_TRANSCRIPT : jsstring := js "Failed to fetch transcript from YouTube.".

Definition transcript_request (transcriptUrl lang : jsstring) : RequestUrlParam :=
  {| request_url := transcriptUrl;
     method := None;
     headers := [(js "User-Agent", USER_AGENT); (js "Accept-Language", lang)];
     body := None |}.

Definition fetchTranscriptXml (net : Network) (track : CaptionTrack)
  (lang : jsstring) : Async jsstring :=
  let url :=
    match baseUrl track with
    | Some (c :: t) => Some (c :: t)
    | _ => url track
    end in
  match url with
  | Some (c :: t) =>
      let transcriptUrl := replace_first FMT [] (c :: t) in
      let* response := requestUrl net (transcript_request transcriptUrl lang) in
      if response_status response =? 429 then throw RATE_LIMITED
      else
        if negb (response_status response =? 200) ||
           match response_text response with [] => true | _ :: _ => false end
        then throw NO_TRANSCRIPT
        else resolve (response_text response)
  | _ => throw NO_TRANSCRIPT_URL
  end.

(** [fetchTranscript]; the language is [None] when the argument is left
    out, and is then ["en"]. *)
Definition fetchTranscript (net : Network) (videoId : jsstring)
  (lang : option jsstring) : Async (list (TranscriptEntry float_expr)) :=
  let lang := match lang with Some l => l | None => js "en" end in
  let* apiKey := extractApiKey net videoId lang in
  let* tracks := fetchCaptionTracks net videoId apiKey in
  let* track := call (selectTrack tracks lang) in
  let* xml := fetchTranscriptXml net track lang in
  call (parseTranscriptXml xml (languageCode track)).

End Transcript.

(* ------------------------------------------------------------------ *)
(** ** Settings: [loadSettings], [saveSettings] and the settings tab *)

(** What the host keeps for the plugin: the object given to [saveData].
    Any member may be missing from what [loadData] returns, and nothing is
    returned before the first save. *)
Record StoredData : Type :=
  { stored_language : option jsstring;
    stored_includeTimestamps : option bool;
    stored_sectionHeading : option jsstring }.

(** [Object.assign({}, DEFAULT_SETTINGS, await this.loadData())]. *)
Definition loadSettings (data : option StoredData) : YouTubeTranscriptSettings :=
  match data with
  | None => DEFAULT_SETTINGS
  | Some d =>
      {| language :=
           match stored_language d with
           | Some v => v
           | None => language DEFAULT_SETTINGS
           end;
         setting_includeTimestamps :=
           match stored_includeTimestamps d with
           | Some v => v
           | None => setting_includeTimestamps DEFAULT_SETTINGS
           end;
         setting_sectionHeading :=
           match stored_sectionHeading d with
           | Some v => v
           | None => setting_sectionHeading DEFAULT_SETTINGS
           end |}
  end.

(** [saveData(this.settings)]. *)
Definition saveSettings (settings : YouTubeTranscriptSettings) : StoredData :=
  {| stored_language := Some (language settings);
     stored_includeTimestamps := Some (setting_includeTimestamps settings);
     stored_sectionHeading := Some (setting_sectionHeading settings) |}.

(** The plugin as the settings tab sees it: its settings and what the host
    has stored for it. *)
Record Plugin : Type :=
  { plugin_settings : YouTubeTranscriptSettings; plugin_data : option StoredData }.

(** A change made in one of the three controls of the tab. *)
Inductive change : Type :=
| Language (value : jsstring)
| IncludeTimestamps (value : bool)
| SectionHeading (value : jsstring).

(** The [onChange] handlers: the setting is assigned, an empty text giving
    way to the default, and the settings are saved. *)
Definition onChange (c : change) (plugin : Plugin) : Plugin :=
  let current := plugin_settings plugin in
  let settings :=
    match c with
    | Language value =>
        {| language := match value with [] => js "en" | _ :: _ => value end;
           setting_includeTimestamps := setting_includeTimestamps current;
           setting_sectionHeading := setting_sectionHeading current |}
    | IncludeTimestamps value =>
        {| language := language current;
           setting_includeTimestamps := value;
           setting_sectionHeading := setting_sectionHeading current |}
    | SectionHeading value =>
        {| language := language current;
           setting_includeTimestamps := setting_includeTimestamps current;
           setting_sectionHeading :=
             match value with [] => js "## Transcript" | _ :: _ => value end |}
    end in
  {| plugin_settings := settings; plugin_data := Some (saveSettings settings) |}.

(* ------------------------------------------------------------------ *)
(** ** The decoder of the unit tests and of the earlier retrieval *)

(** The replacer of [decodeEntities]: the name is looked up once for the
    test and once more for the value returned. *)
Definition decodeEntities_replacer (mt : rmatch) : jsstring :=
  match capture 1 mt with
  | Some (c :: t) => fromCharCode (parseInt (c :: t) 10)
  | _ =>
      match capture 2 mt with
      | Some (c :: t) => fromCharCode (parseInt (c :: t) 16)
      | _ =>
          match capture 3 mt with
          | Some (c :: t) =>
              match get_entity (c :: t) with
              | Some tested =>
                  if truthy tested then
                    match get_entity (c :: t) with
                    | Some returned => ToString returned
                    | None => js "undefined"
                    end
                  else whole mt
              | None => whole mt
              end
          | _ => whole mt
          end
      end
  end.

Definition decodeEntities (text : jsstring) : jsstring :=
  let decode := replace_all ENTITY decodeEntities_replacer in
  decode (decode text).

(* ------------------------------------------------------------------ *)
(** ** Double precision: [parseFloat], the product and [formatTimestamp] *)

Local Open Scope Q_scope.

(** The numbers of JavaScript are the binary64 numbers: 53 significant
    bits, the exponent of the last bit from -1074 to 971, rounding to
    nearest with ties to even. *)
Definition pow2 (p : Z) : Q := 2 ^ p.

(** The integer part of the binary logarithm of a positive rational. *)
Definition ilog2 (x : Q) : Z :=
  let k := (Z.log2 (Qnum x) - Z.log2 (Zpos (Qden x)))%Z in
  if Qle_bool (pow2 k) x then k else (k - 1)%Z.

(** The nearest integer, ties to even. *)
Definition nearest_even (y : Q) : Z :=
  let f := Qfloor y in
  match Qcompare (y - inject_Z f) (1 # 2) with
  | Lt => f
  | Gt => (f + 1)%Z
  | Eq => if Z.even f then f else (f + 1)%Z
  end.

(** The exponent of the last bit of the doubles around a positive [x]. *)
Definition last_place (x : Q) : Z := Z.max (ilog2 x - 52) (-1074).

(** The nearest double to a positive rational, were the exponent unbounded
    above. *)
Definition nearest (x : Q) : Q :=
  let p := last_place x in
  inject_Z (nearest_even (x / pow2 p)) * pow2 p.

Module Double.

(** A double: NaN, an infinity, or a finite number given by its sign (there
    are two zeros) and its magnitude. *)
Inductive double : Type :=
| NaN
| Infinity (negative : bool)
| Finite (negative : bool) (magnitude : Q).

(** The double for the exact magnitude [x] of a result: zero keeps the sign,
    and what rounds to 2^1024 or more is an infinity. *)
Definition round (negative : bool) (x : Q) : double :=
  if Qle_bool x 0 then Finite negative 0
  else
    let y := nearest x in
    if Qle_bool (pow2 1024) y then Infinity negative else Finite negative y.

(** An integer literal (below 2^53 in size, where doubles are exact). *)
Definition of_Z (z : Z) : double := Finite (z <? 0)%Z (inject_Z (Z.abs z)).

(** The product. *)
Definition mul (a b : double) : double :=
  match a, b with
  | NaN, _ | _, NaN => NaN
  | Infinity s, Infinity t => Infinity (xorb s t)
  | Infinity s, Finite t m | Finite t m, Infinity s =>
      if Qeq_bool m 0 then NaN else Infinity (xorb s t)
  | Finite s m, Finite t n => round (xorb s t) (m * n)
  end.

(** The quotient. *)
Definition div (a b : double) : double :=
  match a, b with
  | NaN, _ | _, NaN => NaN
  | Infinity _, Infinity _ => NaN
  | Infinity s, Finite t _ => Infinity (xorb s t)
  | Finite s _, Infinity t => Finite (xorb s t) 0
  | Finite s m, Finite t n =>
      if Qeq_bool n 0
      then if Qeq_bool m 0 then NaN else Infinity (xorb s t)
      else round (xorb s t) (m / n)
  end.

(** [Math.floor]. *)
Definition floor (a : double) : double :=
  match a with
  | Finite false m => Finite false (inject_Z (Qfloor m))
  | Finite true m => Finite true (inject_Z (Qceiling m))
  | _ => a
  end.

(** The remainder [%]: it has the sign of the dividend and is exact. *)
Definition rem (a b : double) : double :=
  match a, b with
  | NaN, _ | _, NaN | Infinity _, _ => NaN
  | Finite _ _, Infinity _ => a
  | Finite s m, Finite _ n =>
      if Qeq_bool n 0 then NaN
      else Finite s (m - n * inject_Z (Qfloor (m / n)))
  end.

Definition signed (negative : bool) (m : Q) : Q := if negative then - m else m.

(** The comparison [>]. *)
Definition gt (a b : double) : bool :=
  match a, b with
  | NaN, _ | _, NaN => false
  | Infinity s, Infinity t => negb s && t
  | Infinity s, Finite _ _ => negb s
  | Finite _ _, Infinity t => t
  | Finite s m, Finite t n => negb (Qle_bool (signed s m) (signed t n))
  end.

(** The decimal exponent of a positive rational: the [n] with
    10^(n-1) <= x < 10^n, reached from an estimate by the binary
    logarithm. *)
Fixpoint exponent_up (fuel : nat) (x : Q) (n : Z) : Z :=
  match fuel with
  | O => n
  | S fuel' => if Qle_bool (10 ^ n) x then exponent_up fuel' x (n + 1) else n
  end.

Fixpoint exponent_down (fuel : nat) (x : Q) (n : Z) : Z :=
  match fuel with
  | O => n
  | S fuel' =>
      if Qle_bool (10 ^ (n - 1)) x then n else exponent_down fuel' x (n - 1)
  end.

Definition decimal_exponent (x : Q) : Z :=
  exponent_down 4 x (exponent_up 4 x (ilog2 x * 30103 / 100000)%Z).

(** [s], of [k] digits, is a numeral of the double [x] at the exponent
    [n]: [s * 10^(n-k)] rounds to [x]. *)
Definition is_numeral_of (x : Q) (k n s : Z) : bool :=
  (10 ^ (k - 1) <=? s)%Z && (s <? 10 ^ k)%Z &&
  Qeq_bool (nearest (inject_Z s * 10 ^ (n - k))) x.

(** Of two numerals of [k] digits the nearer to [x], the even one when
    they are as near. *)
Definition nearer (x : Q) (k : Z) (a b : Z * Z) : Z * Z :=
  let distance :=
    fun p : Z * Z => Qabs (inject_Z (snd p) * 10 ^ (fst p - k) - x) in
  match Qcompare (distance a) (distance b) with
  | Lt => a
  | Gt => b
  | Eq => if Z.even (snd a) then a else b
  end.

(** The numeral of [k] digits of [x], if there is one, with its
    exponent: the numerals next to [x] are tried. *)
Definition numeral_of_length (x : Q) (k : Z) : option (Z * Z) :=
  let n := decimal_exponent x in
  let next_to :=
    fun n' : Z =>
      let s := Qfloor (x / 10 ^ (n' - k)) in [(n', s); (n', (s + 1)%Z)] in
  match filter (fun p => is_numeral_of x k (fst p) (snd p))
               (next_to n ++ next_to (n + 1)%Z) with
  | [] => None
  | p :: ps => Some (fold_left (nearer x k) ps p)
  end.

(** The shortest numeral of a positive double: [(n, s)], 17 digits being
    enough for every double. *)
Fixpoint shortest_numeral (fuel : nat) (x : Q) (k : Z) : Z * Z :=
  match numeral_of_length x k with
  | Some p => p
  | None =>
      match fuel with
      | O => (decimal_exponent x, Qfloor (x / 10 ^ (decimal_exponent x - k)))
      | S fuel' => shortest_numeral fuel' x (k + 1)
      end
  end.

(** The digits [ds] of a numeral laid out at the exponent [n]: plain up to
    21 integer digits and down to six zeros after the point, with an
    exponent otherwise. *)
Definition layout (n : Z) (ds : jsstring) : jsstring :=
  let k := Z.of_nat (length ds) in
  if (-5 <=? n)%Z && (n <=? 21)%Z then
    if (k <=? n)%Z then ds ++ repeat (ch "0") (Z.to_nat (n - k))
    else if (0 <? n)%Z
         then firstn (Z.to_nat n) ds ++ js "." ++ skipn (Z.to_nat n) ds
         else js "0." ++ repeat (ch "0") (Z.to_nat (- n)) ++ ds
  else
    let e := (n - 1)%Z in
    let exponent :=
      js "e" ++ (if (e <? 0)%Z then js "-" else js "+") ++ toString (Z.abs e) in
    match ds with
    | [] => exponent
    | [d] => [d] ++ exponent
    | d :: fraction => [d] ++ js "." ++ fraction ++ exponent
    end.

(** [Number.prototype.toString] of a positive double.  An integer below
    2^53 is the only numeral that rounds to it, and prints as its decimal
    digits; any other double prints as its shortest numeral. *)
Definition positive_toString (m : Q) : jsstring :=
  if Qeq_bool m (inject_Z (Qfloor m)) && negb (Qle_bool (pow2 53) m)
  then toString (Qfloor m)
  else layout (fst (shortest_numeral 16 m 1))
              (toString (snd (shortest_numeral 16 m 1))).

(** [Number.prototype.toString]. *)
Definition Number_toString (a : double) : jsstring :=
  match a with
  | NaN => js "NaN"
  | Infinity false => js "Infinity"
  | Infinity true => js "-Infinity"
  | Finite s m =>
      if Qle_bool m 0 then js "0"
      else (if s then js "-" else []) ++ positive_toString m
  end.

(** [formatTimestamp], each operation in double precision. *)
Definition formatTimestamp (ms : double) : jsstring :=
  let totalSeconds := floor (div ms (of_Z 1000)) in
  let hours := floor (div totalSeconds (of_Z 3600)) in
  let minutes := floor (div (rem totalSeconds (of_Z 3600)) (of_Z 60)) in
  let seconds := rem totalSeconds (of_Z 60) in
  let pad := fun n : double => pad2 (Number_toString n) in
  if gt hours (of_Z 0)
  then Number_toString hours ++ js ":" ++ pad minutes ++ js ":" ++ pad seconds
  else Number_toString minutes ++ js ":" ++ pad seconds.

(** [formatTranscript], the offsets being doubles. *)
Definition formatTranscript (entries : list (TranscriptEntry double))
  (options : FormatOptions) : jsstring :=
  if includeTimestamps options then
    let lines :=
      map (fun entry =>
             js "[" ++ formatTimestamp (offset entry) ++ js "] " ++ text entry)
          entries in
    [LF] ++ sectionHeading options ++ [LF; LF] ++ join [LF] lines
  else
    let paragraph := join (js " ") (map (fun entry => text entry) entries) in
    [LF] ++ sectionHeading options ++ [LF; LF] ++ paragraph.

(** White space and line terminators, which [parseFloat] skips at the
    start of its argument. *)
Definition is_white_space (c : N) : bool :=
  existsb (N.eqb c)
    [9; 10; 11; 12; 13; 32; 160; 5760; 8232; 8233; 8239; 8287; 12288; 65279]%N
  || between 8192 8202 c.

Fixpoint trim_start (s : jsstring) : jsstring :=
  match s with
  | c :: t => if is_white_space c then trim_start t else s
  | [] => []
  end.

Definition is_digit (c : N) : bool := between 48 57 c.

(** The decimal digits at the head of [s], and what follows them. *)
Fixpoint span_digits (s : jsstring) : jsstring * jsstring :=
  match s with
  | c :: t =>
      if is_digit c then let (ds, rest) := span_digits t in (c :: ds, rest)
      else ([], s)
  | [] => ([], [])
  end.

(** The number that a run of decimal digits denotes. *)
Definition MV (ds : jsstring) : Z :=
  fold_left (fun v c => v * 10 + (Z.of_N c - 48))%Z ds 0%Z.

(** The exponent at the head of [s]: [e] or [E], an optional sign, and
    digits; 0 when [s] does not start with an exponent part. *)
Definition exponent_part (s : jsstring) : Z :=
  match s with
  | c :: t =>
      if N.eqb c (ch "e") || N.eqb c (ch "E") then
        let (negative, u) :=
          match t with
          | sg :: u =>
              if N.eqb sg (ch "+") then (false, u)
              else if N.eqb sg (ch "-") then (true, u)
              else (false, t)
          | [] => (false, t)
          end in
        let (ds, _) := span_digits u in
        if negative then (- MV ds)%Z else MV ds
      else 0%Z
  | [] => 0%Z
  end.

(** The longest prefix of [s] that is an unsigned decimal literal:
    [Infinity], or digits with an optional fraction and an optional
    exponent, the digits before or after the point being optional but not
    both.  No prefix gives NaN; otherwise the value is rounded to the
    nearest double. *)
Definition StrUnsignedDecimalLiteral (negative : bool) (s : jsstring) : double :=
  if startsWith s (js "Infinity") then Infinity negative
  else
    let (int, rest) := span_digits s in
    match rest with
    | c :: rest' =>
        if N.eqb c (ch ".") then
          let (frac, rest'') := span_digits rest' in
          match int ++ frac with
          | [] => NaN
          | ds =>
              round negative
                (inject_Z (MV ds) *
                 10 ^ (exponent_part rest'' - Z.of_nat (length frac)))
          end
        else
          match int with
          | [] => NaN
          | ds => round negative (inject_Z (MV ds) * 10 ^ exponent_part rest)
          end
    | [] =>
        match int with
        | [] => NaN
        | ds => round negative (inject_Z (MV ds))
        end
    end.

(** [parseFloat] on a string. *)
Definition parseFloat (s : jsstring) : double :=
  match trim_start s with
  | c :: t =>
      if N.eqb c (ch "+") then StrUnsignedDecimalLiteral false t
      else if N.eqb c (ch "-") then StrUnsignedDecimalLiteral true t
      else StrUnsignedDecimalLiteral false (c :: t)
  | [] => NaN
  end.

(** The value of the arithmetic that the parser leaves in an entry. *)
Fixpoint eval (e : float_expr) : double :=
  match e with
  | FParseFloat s => parseFloat s
  | FLit z => of_Z z
  | FMul a b => mul (eval a) (eval b)
  end.

End Double.

Local Close Scope Q_scope.

(* ------------------------------------------------------------------ *)
(** ** Vocabulary of the statements *)

Local Close Scope Z_scope.

(** The literal prefixes of [VIDEO_ID_PATTERNS], in their order. *)
Definition PREFIXES : list string :=
  [ "youtube.com/watch?v="; "youtu.be/"; "youtube.com/embed/";
    "youtube.com/v/"; "youtube.com/shorts/" ]%string.

(** Eleven characters of [[a-zA-Z0-9_-]]. *)
Definition is_token (t : jsstring) : bool :=
  Nat.eqb (length t) 11 && forallb (in_class id_class) t.

(** [url] holds [prefix] followed at once by the token [tok], after the
    text [a]. *)
Definition token_after (prefix : string) (a tok : jsstring) (url : jsstring) : Prop :=
  is_token tok = true /\ exists b, url = a ++ js prefix ++ tok ++ b.

Definition occurs (prefix : string) (url : jsstring) : Prop :=
  exists a tok, token_after prefix a tok url.

(** [tok] follows the leftmost occurrence of the first prefix, in the order
    of the list, that occurs in [url] with a token behind it. *)
Definition selected_from (prefixes : list string) (url tok : jsstring) : Prop :=
  exists i prefix a,
    nth_error prefixes i = Some prefix /\
    token_after prefix a tok url /\
    (forall j prefix', j < i -> nth_error prefixes j = Some prefix' ->
                       ~ occurs prefix' url) /\
    (forall a' tok', token_after prefix a' tok' url -> length a <= length a').

Definition selected : jsstring -> jsstring -> Prop := selected_from PREFIXES.

(** The URLs of the five shapes on the platform's own hosts, up to the
    token. *)
Definition WATCH_URL : string := "https://www.youtube.com/watch?v=".

Definition PATH_URLS : list string :=
  [ "https://youtu.be/"; "https://www.youtube.com/embed/";
    "https://www.youtube.com/v/"; "https://www.youtube.com/shorts/" ]%string.

(** The host of a URL: what stands between [://] and the next [/]. *)
Fixpoint until_slash (s : jsstring) : jsstring :=
  match s with
  | [] => []
  | c :: s' => if N.eqb c (ch "/") then [] else c :: until_slash s'
  end.

Fixpoint host_of (url : jsstring) : jsstring :=
  match strip_prefix (js "://") url with
  | Some t => until_slash t
  | None =>
      match url with
      | [] => []
      | _ :: url' => host_of url'
      end
  end.

(** The match that an identifier pattern produces where [prefix] and then
    eleven identifier characters stand at the head of [s = prefix ++ t]. *)
Definition id_hit (prefix : string) (p : nat) (s t : jsstring) : rmatch :=
  {| before := []; whole := firstn (length (js prefix) + 11) s;
     groups := [(1, firstn 11 t)]; after := skipn 11 t;
     stop := p + length (js prefix) + 11 |}.

(** [clash p x]: [p] and [x] differ at a position that both have, so that
    no extension of [x] starts with [p]. *)
Fixpoint clash (p x : jsstring) : bool :=
  match p, x with
  | a :: p', b :: x' => if N.eqb a b then clash p' x' else true
  | _, _ => false
  end.

(** No suffix of [a], however it is continued, starts with [p]. *)
Fixpoint no_start (p a : jsstring) : bool :=
  match a with
  | [] => true
  | _ :: a' => clash p a && no_start p a'
  end.

(** A match found after skipping the text [a]. *)
Definition prepend (a : jsstring) (mt : rmatch) : rmatch :=
  fold_right shift mt a.

(** Two decimal digits of a number below 100. *)
Definition two_digits (n : Z) : jsstring :=
  [Z.to_N (48 + n / 10); Z.to_N (48 + n mod 10)]%Z.

(** The number that a run of decimal digits denotes. *)
Definition decimal_value (s : jsstring) : Z :=
  fold_left (fun v c => 10 * v + (Z.of_N c - 48))%Z s 0%Z.

(** [s] is the plain decimal numeral of [n]: it denotes [n] and has no
    leading zero, [0] itself being written with one digit. *)
Definition plain_decimal (s : jsstring) (n : Z) : Prop :=
  decimal_value s = n /\
  (n = 0%Z -> s = js "0") /\
  (0 < n -> hd_error s <> Some (ch "0"))%Z.

(** The line that [formatTranscript] writes for an entry when timestamps
    are asked for. *)
Definition timestamped (entry : TranscriptEntry Q) : jsstring :=
  js "[" ++ formatTimestamp (offset entry) ++ js "] " ++ text entry.

(** The two entries of the end-to-end scenario. *)
Definition SCENARIO : list (TranscriptEntry Q) :=
  [ {| text := js "We're no strangers"; duration := 2000%Q; offset := 0%Q;
       lang := None |};
    {| text := js "to love"; duration := 1000%Q; offset := 2000%Q;
       lang := None |} ].

(** The base language of a code: what stands before its first hyphen. *)
Fixpoint base_language (lang : jsstring) : jsstring :=
  match lang with
  | [] => []
  | c :: lang' => if N.eqb c (ch "-") then [] else c :: base_language lang'
  end.

Definition exact_match (lang : jsstring) (t : CaptionTrack) : Prop :=
  languageCode t = lang.

Definition base_match (lang : jsstring) (t : CaptionTrack) : Prop :=
  exists more, languageCode t = base_language lang ++ more.

(** [t] is the first element of [l], in the order of the list, with [P]. *)
Definition first_with {A : Type} (P : A -> Prop) (l : list A) (t : A) : Prop :=
  exists l1 l2, l = l1 ++ t :: l2 /\ P t /\ forall x, In x l1 -> ~ P x.

Definition SAMPLE_TRACKS : list CaptionTrack :=
  [ {| baseUrl := None; url := None; languageCode := js "de" |};
    {| baseUrl := None; url := None; languageCode := js "en-US" |} ].

(** [this.settings.language || "en"]. *)
Definition preferred_language (settings : YouTubeTranscriptSettings) : jsstring :=
  match language settings with
  | [] => js "en"
  | l => l
  end.

Definition options_of (settings : YouTubeTranscriptSettings) : FormatOptions :=
  {| includeTimestamps := setting_includeTimestamps settings;
     sectionHeading := setting_sectionHeading settings |}.

(** The whole pipeline succeeds on [content] and ends in the write of [d]:
    no section yet, a first URL, its identifier, a retrieval that returns
    entries, at least one of them, and a write that does not throw. *)
Definition pipeline_succeeds (host : Host) (settings : YouTubeTranscriptSettings)
  (content d : jsstring) : Prop :=
  hasTranscriptSection content (setting_sectionHeading settings) = false /\
  exists firstUrl videoId transcript,
    nth_error (findYouTubeUrls content) 0 = Some firstUrl /\
    extractVideoId firstUrl = Some videoId /\
    fetchTranscript host videoId (preferred_language settings) = Returns transcript /\
    transcript <> [] /\
    d = content ++ [LF] ++ formatTranscript transcript (options_of settings) /\
    vault_modify host d = Returns tt.

(** A host for the scenario: the note of the README, a retrieval that
    returns the two entries, and a write that succeeds. *)
Definition SCENARIO_NOTE : jsstring :=
  js "---" ++ [LF] ++ js "source: https://www.youtube.com/watch?v=dQw4w9WgXcQ" ++
  [LF] ++ js "---" ++ [LF] ++ js "Video description from YouTube...".

Definition SCENARIO_HOST : Host :=
  {| active_file := Some SCENARIO_NOTE;
     fetchTranscript := fun _ _ => Returns SCENARIO;
     vault_modify := fun _ => Returns tt |}.

(** The longest prefix of [s] within a class, and what follows it. *)
Fixpoint take_class (cl : cclass) (s : jsstring) : jsstring :=
  match s with
  | c :: t => if in_class cl c then c :: take_class cl t else []
  | [] => []
  end.

Fixpoint drop_class (cl : cclass) (s : jsstring) : jsstring :=
  match s with
  | c :: t => if in_class cl c then drop_class cl t else s
  | [] => []
  end.

Definition starts_in (cl : cclass) (s : jsstring) : bool :=
  match s with
  | c :: _ => in_class cl c
  | [] => false
  end.

(** A [<text>] element of the caption XML: its two attribute values and
    its inner text. *)
Record element : Type :=
  { el_start : jsstring; el_dur : jsstring; el_body : jsstring }.

Definition not_quote : cclass := ncls [CChar DQUOTE].
Definition not_lt : cclass := ncls [CChar (ch "<")].

Definition OPEN : jsstring := js "<text start=" ++ [DQUOTE].
Definition MID : jsstring := DQUOTE :: js " dur=" ++ [DQUOTE].
Definition CLOSE_TAG : jsstring := DQUOTE :: js ">".
Definition END_TAG : jsstring := js "</text>".

(** The element as it is written in the XML. *)
Definition element_text (e : element) : jsstring :=
  OPEN ++ el_start e ++ MID ++ el_dur e ++ CLOSE_TAG ++ el_body e ++ END_TAG.

(** No double quote in the attribute values, no [<] in the inner text. *)
Definition well_formed (e : element) : Prop :=
  forallb (in_class not_quote) (el_start e) = true /\
  forallb (in_class not_quote) (el_dur e) = true /\
  forallb (in_class not_lt) (el_body e) = true.

(** Reading an element at the head of [s]: the element and what follows. *)
Definition element_at (s : jsstring) : option (element * jsstring) :=
  match strip_prefix OPEN s with
  | None => None
  | Some s1 =>
      match strip_prefix MID (drop_class not_quote s1) with
      | None => None
      | Some s2 =>
          match strip_prefix CLOSE_TAG (drop_class not_quote s2) with
          | None => None
          | Some s3 =>
              match strip_prefix END_TAG (drop_class not_lt s3) with
              | None => None
              | Some s4 =>
                  Some ({| el_start := take_class not_quote s1;
                           el_dur := take_class not_quote s2;
                           el_body := take_class not_lt s3 |}, s4)
              end
          end
      end
  end.

(** The match that [RE_XML_TRANSCRIPT] produces on an element. *)
Definition element_match (p : nat) (e : element) (rest : jsstring) : rmatch :=
  {| before := []; whole := element_text e;
     groups := [(3, el_body e); (2, el_dur e); (1, el_start e)];
     after := rest; stop := p + length (element_text e) |}.

(** The element that a match of [RE_XML_TRANSCRIPT] has captured. *)
Definition element_of (mt : rmatch) : option element :=
  match capture 1 mt, capture 2 mt, capture 3 mt with
  | Some a, Some d, Some t => Some {| el_start := a; el_dur := d; el_body := t |}
  | _, _, _ => None
  end.

(** The elements that the scan of [parseTranscriptXml] meets, in order:
    leftmost first, each search resuming behind the previous element. *)
Definition matched_elements (xml : jsstring) : list element :=
  flat_map (fun mt => match element_of mt with Some e => [e] | None => [] end)
           (matchAll RE_XML_TRANSCRIPT xml).

(** The guard of the loop: both attribute values are non-empty. *)
Definition kept (e : element) : bool :=
  match el_start e, el_dur e with
  | _ :: _, _ :: _ => true
  | _, _ => false
  end.

(** The entry pushed for an element. *)
Definition entry_for (lang : jsstring) (e : element) : TranscriptEntry float_expr :=
  {| offset := FMul (FParseFloat (el_start e)) (FLit 1000);
     duration := FMul (FParseFloat (el_dur e)) (FLit 1000);
     text := decodeXmlEntities (el_body e);
     lang := Some lang |}.

(** A caption document: elements, each after a stretch of other text, and
    the text behind the last one. *)
Fixpoint render (doc : list (jsstring * element)) (tail : jsstring) : jsstring :=
  match doc with
  | [] => tail
  | (gap, e) :: doc' => gap ++ element_text e ++ render doc' tail
  end.

(** The stretches between the elements hold no opening of an element, and
    the elements are well formed. *)
Definition wf_document (doc : list (jsstring * element)) (tail : jsstring) : Prop :=
  Forall (fun ge => includes (fst ge) OPEN = false /\ well_formed (snd ge)) doc /\
  includes tail OPEN = false.

(** The XML holds an element somewhere. *)
Definition holds_element (xml : jsstring) (e : element) : Prop :=
  well_formed e /\ exists pre post, xml = pre ++ element_text e ++ post.

(** Sample elements: one whose [start] attribute is empty, one complete. *)
Definition EMPTY_START : element :=
  {| el_start := []; el_dur := js "1"; el_body := js "hi" |}.

Definition COMPLETE : element :=
  {| el_start := js "1.5"; el_dur := js "2"; el_body := js "a &amp; b" |}.

(** A sample document with an XML declaration and a root element around
    the two sample elements. *)
Definition SAMPLE_DOCUMENT : list (jsstring * element) :=
  [ (js "<?xml version=" ++ [DQUOTE] ++ js "1.0" ++ [DQUOTE] ++ js " ?><transcript>",
     EMPTY_START);
    ([], COMPLETE) ].

Definition SAMPLE_TAIL : jsstring := js "</transcript>".

Definition digit_class : cclass := cls [CDigit].
Definition hex_class : cclass := cls [CRange 97 102; CRange 65 70; CRange 48 57].
Definition word_class : cclass := cls [CWord].

(** The number that a numeral denotes in a radix. *)
Definition numeral_value (radix : Z) (ds : jsstring) : Z :=
  fold_left (fun v c => v * radix + match digit_of c with Some d => d | None => 0 end)%Z
            ds 0%Z.

(** The references [&#ds;] and [&#xhs;]. *)
Definition decimal_reference (ds : jsstring) : jsstring := js "&#" ++ ds ++ js ";".
Definition hex_reference (hs : jsstring) : jsstring := js "&#x" ++ hs ++ js ";".

(** The JavaScript string of the character with code point [cp]: one code
    unit up to 0xFFFF, a surrogate pair up to 0x10FFFF, nothing beyond. *)
Definition utf16 (cp : Z) : option jsstring :=
  if (cp <? 65536)%Z then Some [Z.to_N cp]
  else if (cp <=? 1114111)%Z
       then Some [Z.to_N (55296 + (cp - 65536) / 1024);
                  Z.to_N (56320 + (cp - 65536) mod 1024)]%Z
       else None.

(** One alternative of [ENTITY] read at the head of [s]: the literal
    [lead], a non-empty run of the class, a semicolon; the run and what
    follows the semicolon. *)
Definition numeral_at (lead : jsstring) (cl : cclass) (s : jsstring)
  : option (jsstring * jsstring) :=
  match strip_prefix lead s with
  | Some s1 =>
      match take_class cl s1 with
      | [] => None
      | c :: t =>
          match strip_prefix (js ";") (drop_class cl s1) with
          | Some more => Some (c :: t, more)
          | None => None
          end
      end
  | None => None
  end.

(** A reference read at the head of [s]: the group that captures
    (1 decimal, 2 hexadecimal, 3 named), the literal before the captured
    run, the run, and what follows the reference. *)
Definition entity_at (s : jsstring) : option (nat * jsstring * jsstring * jsstring) :=
  match strip_prefix (js "&") s with
  | Some s1 =>
      match numeral_at (js "#") digit_class s1 with
      | Some (ds, more) => Some (1, js "#", ds, more)
      | None =>
          match numeral_at (js "#x") hex_class s1 with
          | Some (hs, more) => Some (2, js "#x", hs, more)
          | None =>
              match numeral_at [] word_class s1 with
              | Some (w, more) => Some (3, [], w, more)
              | None => None
              end
          end
      end
  | None => None
  end.

(** The match that [ENTITY] produces on a reference. *)
Definition entity_match (p i : nat) (lead x more : jsstring) : rmatch :=
  {| before := []; whole := js "&" ++ lead ++ x ++ js ";";
     groups := [(i, x)]; after := more;
     stop := p + length (js "&" ++ lead ++ x ++ js ";") |}.

(** The leftmost reference of [s]: the text before it and the reference. *)
Fixpoint find_entity (s : jsstring)
  : option (jsstring * (nat * jsstring * jsstring * jsstring)) :=
  match entity_at s with
  | Some e => Some ([], e)
  | None =>
      match s with
      | [] => None
      | c :: s' =>
          match find_entity s' with
          | Some (b, e) => Some (c :: b, e)
          | None => None
          end
      end
  end.

(** What the replacer returns for a reference. *)
Definition substitution (i : nat) (lead x : jsstring) : jsstring :=
  replacer (entity_match 0 i lead x []).

(** One pass of the decoder, reference after reference. *)
Fixpoint decode_steps (fuel : nat) (s : jsstring) : jsstring :=
  match fuel with
  | O => s
  | S fuel' =>
      match find_entity s with
      | None => s
      | Some (b, (i, lead, x, more)) =>
          b ++ substitution i lead x ++ decode_steps fuel' more
      end
  end.

(** The class of [TRAILING]: closing parenthesis, comma, full stop, closing
    bracket, closing angle bracket. *)
Definition punctuation : cclass :=
  cls [CChar (ch ")"); CChar (ch ","); CChar (ch "."); CChar (ch "]"); CChar (ch ">")].

(** The last character of [s] is in the class. *)
Fixpoint last_in (cl : cclass) (s : jsstring) : bool :=
  match s with
  | [] => false
  | c :: t => match t with [] => in_class cl c | _ :: _ => last_in cl t end
  end.

(** The matcher threads its state: what reaches the continuation is the
    input behind a consumed prefix, at the index behind it. *)
Definition threads {R : Type}
  (m : mstate -> (mstate -> option R) -> option R) : Prop :=
  forall st k x, m st k = Some x ->
  exists st' w, k st' = Some x /\ rest st = w ++ rest st' /\
                pos st' = pos st + length w.

(** What the matcher can consume: [derives r w cs] when the text [w] is in
    the language of [r], with the captures [cs] that matching it records,
    the latest first.  The anchors are not constrained here. *)
Inductive derives : regex -> jsstring -> list (nat * jsstring) -> Prop :=
| derives_Empty : derives Empty [] []
| derives_Str (s : jsstring) : derives (Str s) s []
| derives_Set (cl : cclass) (c : N) :
    in_class cl c = true -> derives (Set_ cl) [c] []
| derives_Seq (r1 r2 : regex) (w1 w2 : jsstring) (c1 c2 : list (nat * jsstring)) :
    derives r1 w1 c1 -> derives r2 w2 c2 -> derives (Seq r1 r2) (w1 ++ w2) (c2 ++ c1)
| derives_Alt_l (r1 r2 : regex) (w : jsstring) (c : list (nat * jsstring)) :
    derives r1 w c -> derives (Alt r1 r2) w c
| derives_Alt_r (r1 r2 : regex) (w : jsstring) (c : list (nat * jsstring)) :
    derives r2 w c -> derives (Alt r1 r2) w c
| derives_Star_nil (g : bool) (r : regex) : derives (Star g r) [] []
| derives_Star_cons (g : bool) (r : regex) (w1 w2 : jsstring)
    (c1 c2 : list (nat * jsstring)) :
    derives r w1 c1 -> derives (Star g r) w2 c2 ->
    derives (Star g r) (w1 ++ w2) (c2 ++ c1)
| derives_Group (i : nat) (r : regex) (w : jsstring) (c : list (nat * jsstring)) :
    derives r w c -> derives (Group i r) w ((i, w) :: c)
| derives_Bol : derives Bol [] []
| derives_Eol : derives Eol [] [].

(** The matcher is sound for [r]: what it consumes before it calls the
    continuation is derived by [r], captures included. *)
Definition sound {R : Type} (r : regex)
  (m : mstate -> (mstate -> option R) -> option R) : Prop :=
  forall st k x, m st k = Some x ->
  exists st' w cs, derives r w cs /\ k st' = Some x /\ rest st = w ++ rest st' /\
                   pos st' = pos st + length w /\ caps st' = cs ++ caps st.

(** [u] occurs in [s]. *)
Definition within (u s : jsstring) : Prop := exists a b, s = a ++ u ++ b.

(** [u] starts with [http://] or [https://]. *)
Definition has_scheme (u : jsstring) : Prop :=
  exists t, u = js "http://" ++ t \/ u = js "https://" ++ t.

Definition from_the_text (content u : jsstring) : Prop :=
  has_scheme u /\ within u content.

(** What [findYouTubeUrls] passes to [addUrl], call after call: the source
    field of the front matter if there is a front matter, the links and
    embeds, the bare URLs. *)
Definition candidates (content : jsstring) : list (option jsstring) :=
  match exec FRONTMATTER content with
  | Some mt =>
      match capture 1 mt with
      | Some (c :: t) =>
          [match exec SOURCE (c :: t) with
           | Some source => capture 1 source
           | None => None
           end]
      | _ => []
      end
  | None => []
  end ++
  map (capture 1) (matchAll markdownPattern content) ++
  map (capture 1) (matchAll plainPattern content).

(** A literal and the longest run of a class behind it, non-empty: the run
    and what follows it. *)
Definition run_at (lead : jsstring) (cl : cclass) (s : jsstring)
  : option (jsstring * jsstring) :=
  match strip_prefix lead s with
  | Some s1 =>
      match take_class cl s1 with
      | [] => None
      | c :: t => Some (c :: t, drop_class cl s1)
      end
  | None => None
  end.

(** [page] holds [key] between the two delimiters. *)
Definition delimited (open key close page : jsstring) : Prop :=
  within (open ++ key ++ close) page.

(** Reading a timestamp back: its fields between colons are decimal
    numerals, the digits of a number in base 60. *)
Definition seconds_of (stamp : jsstring) : Z :=
  fold_left (fun acc field => 60 * acc + decimal_value field)%Z
            (split_on (ch ":") stamp) 0%Z.

(** Neither the language nor the heading is empty. *)
Definition well_set (settings : YouTubeTranscriptSettings) : Prop :=
  language settings <> [] /\ setting_sectionHeading settings <> [].

Section RetrievalVocabulary.
Import Transcript.

(** The player response lists [tracks]: it has a [captions] member, the
    track list is the one inside it or else the one beside it, and the
    list holds the tracks, at least one. *)
Definition listed (json : PlayerResponse) (tracks : list CaptionTrack) : Prop :=
  exists c tracklist,
    captions json = Some c /\
    (captions_playerCaptionsTracklistRenderer c = Some tracklist \/
     captions_playerCaptionsTracklistRenderer c = None /\
     playerCaptionsTracklistRenderer json = Some tracklist) /\
    captionTracks tracklist = Some tracks /\ tracks <> [].

(** [u] is what [track.baseUrl || track.url] evaluates to, and is not
    empty. *)
Definition transcript_source (track : CaptionTrack) (u : jsstring) : Prop :=
  u <> [] /\
  (baseUrl track = Some u \/
   (baseUrl track = None \/ baseUrl track = Some []) /\ url track = Some u).

(** The language that [fetchTranscript] works with. *)
Definition language_argument (lang : option jsstring) : jsstring :=
  match lang with Some l => l | None => js "en" end.

(** A network that answers every request. *)
Definition answers (net : Network) : Prop :=
  forall log param, exists response, net log param = Returns response.

(** The messages of the errors that the retrieval throws itself. *)
Definition MESSAGES : list jsstring :=
  [TOO_MANY; NO_API_KEY; NO_VIDEO_INFORMATION; DISABLED; NOT_AVAILABLE;
   NO_CAPTION_TRACKS; NO_TRANSCRIPT_URL; RATE_LIMITED; NO_TRANSCRIPT; NO_ENTRIES].

Definition expected {A : Type} (good : A -> Prop) (o : outcome A) : Prop :=
  match o with
  | Returns a => good a
  | ThrowsError message => In message MESSAGES
  | ThrowsOther => False
  end.

(** A sample exchange: a watch page that shows a key, a player response
    with one track, and the sample caption document. *)
Definition SAMPLE_ID : jsstring := js "dQw4w9WgXcQ".

Definition SAMPLE_TRACK : CaptionTrack :=
  {| baseUrl :=
       Some (js "https://www.youtube.com/api/timedtext?v=dQw4w9WgXcQ&fmt=srv3&lang=en");
     url := None;
     languageCode := js "en-US" |}.

Definition NO_JSON : PlayerResponse :=
  {| captions := None; playerCaptionsTracklistRenderer := None;
     playabilityStatus := None |}.

Definition SAMPLE_KEY : jsstring := js "AIzaSy-sample_key".

Definition SAMPLE_PAGE : jsstring :=
  js "<script>ytcfg.set({" ++ KEY_OPEN ++ SAMPLE_KEY ++ [DQUOTE] ++
  js "});</script>".

Definition SAMPLE_PLAYER : PlayerResponse :=
  {| captions :=
       Some {| captions_playerCaptionsTracklistRenderer :=
                 Some {| captionTracks := Some [SAMPLE_TRACK] |} |};
     playerCaptionsTracklistRenderer := None;
     playabilityStatus := Some {| status := Some (js "OK") |} |}.

Definition SAMPLE_NETWORK : Network :=
  fun log _ =>
    match log with
    | [] =>
        Returns {| response_status := 200; response_text := SAMPLE_PAGE;
                   response_json := NO_JSON |}
    | [_] =>
        Returns {| response_status := 200; response_text := [];
                   response_json := SAMPLE_PLAYER |}
    | _ =>
        Returns {| response_status := 200;
                   response_text := render SAMPLE_DOCUMENT SAMPLE_TAIL;
                   response_json := NO_JSON |}
    end.

(** The body of the request to the player, up to the identifier. *)
Definition in_quotes (v : jsstring) : jsstring := DQUOTE :: v ++ [DQUOTE].

Definition quoted (s : string) : jsstring := in_quotes (js s).

Definition BODY_HEAD : jsstring :=
  js "{" ++ quoted "context" ++ js ":{" ++ quoted "client" ++ js ":{" ++
  quoted "clientName" ++ js ":" ++ quoted "ANDROID" ++ js "," ++
  quoted "clientVersion" ++ js ":" ++ quoted "20.10.38" ++ js "}}," ++
  quoted "videoId" ++ js ":".

End RetrievalVocabulary.

(** A note with the same URL in a link and bare. *)
Definition TWICE : jsstring :=
  js "[video](https://youtu.be/abc12345678) and https://youtu.be/abc12345678 again".

(** Doubles. *)
Local Open Scope Q_scope.
(** The nonnegative doubles, as rationals. *)
Definition binary64 (x : Q) : Prop :=
  exists m e : Z,
    (0 <= m < 2 ^ 53)%Z /\ (-1074 <= e <= 971)%Z /\ x == inject_Z m * pow2 e.

(** The magnitude that [Double.round] returns below 2^1024. *)
Definition rounded (x : Q) : Q := if Qle_bool x 0 then 0 else nearest x.
Local Close Scope Q_scope.

(** A run of decimal digits. *)
Definition all_digits (ds : jsstring) : Prop := forallb Double.is_digit ds = true.

(** A character with which no number starts, white space skipped. *)
Definition starts_no_number (c : N) : Prop :=
  Double.is_white_space c = false /\ Double.is_digit c = false /\
  ~ In c (js "+-.I").







(** An entry with exact numbers, its numbers taken as doubles. *)
Definition as_doubles (entry : TranscriptEntry Q)
  : TranscriptEntry Double.double :=
  {| text := text entry; duration := Double.Finite false (duration entry);
     offset := Double.Finite false (offset entry); lang := lang entry |}.

(** An element with a given [start], for the examples. *)
Definition element_with_start (start : jsstring) : element :=
  {| el_start := start; el_dur := js "2"; el_body := js "Hello" |}.

(* ------------------------------------------------------------------ *)
(** ** Facts about strings *)

Lemma strip_prefix_app (p t : jsstring) : strip_prefix p (p ++ t) = Some t.
Proof.
  induction p as [|a p IH]; simpl; [reflexivity|].
  now rewrite N.eqb_refl.
Qed.

Lemma strip_prefix_inv (p s t : jsstring) :
  strip_prefix p s = Some t -> s = p ++ t.
Proof.
  revert s; induction p as [|a p IH]; intros s; simpl.
  - now intros [= ->].
  - destruct s as [|b s]; [discriminate|].
    destruct (N.eqb_spec a b) as [->|]; [|discriminate].
    intros H; apply IH in H; now subst.
Qed.

Lemma strip_prefix_iff (p s t : jsstring) :
  strip_prefix p s = Some t <-> s = p ++ t.
Proof.
  split; [apply strip_prefix_inv|intros ->; apply strip_prefix_app].
Qed.

Lemma strip_prefix_none (p s : jsstring) :
  strip_prefix p s = None -> forall t, s <> p ++ t.
Proof.
  intros H t ->. rewrite strip_prefix_app in H; discriminate.
Qed.

Lemma jsstring_eqb_eq (a b : jsstring) : jsstring_eqb a b = true <-> a = b.
Proof.
  unfold jsstring_eqb; destruct (list_eq_dec N.eq_dec a b); split; congruence.
Qed.

Lemma jsstring_eqb_refl (a : jsstring) : jsstring_eqb a a = true.
Proof. now apply jsstring_eqb_eq. Qed.

Lemma includes_iff (s p : jsstring) :
  includes s p = true <-> exists a b, s = a ++ p ++ b.
Proof.
  induction s as [|c s IH].
  - simpl. unfold startsWith. rewrite orb_false_r. split.
    + destruct (strip_prefix p []) as [t|] eqn:E; [|discriminate].
      intros _. apply strip_prefix_inv in E. now exists [], t.
    + intros (a & b & H). destruct a; [|discriminate]. simpl in H.
      rewrite H, strip_prefix_app. reflexivity.
  - simpl. rewrite orb_true_iff, IH. unfold startsWith. split.
    + intros [H|(a & b & ->)].
      * destruct (strip_prefix p (c :: s)) as [t|] eqn:E; [|discriminate].
        apply strip_prefix_inv in E. now exists [], t.
      * now exists (c :: a), b.
    + intros (a & b & H). destruct a as [|x a].
      * left. simpl in H. rewrite H, strip_prefix_app. reflexivity.
      * right. injection H as _ ->. now exists a, b.
Qed.

(* ------------------------------------------------------------------ *)
(** ** Facts about the matcher *)

Section RunEquations.
Context {R : Type} (st : mstate) (k : mstate -> option R).

Lemma run_Seq (r1 r2 : regex) :
  run (r1 >> r2) st k = run r1 st (fun st1 => run r2 st1 k).
Proof. reflexivity. Qed.

Lemma run_Str (s : jsstring) :
  run (Str s) st k =
  match strip_prefix s (rest st) with
  | Some t => k {| pos := pos st + length s; rest := t; caps := caps st |}
  | None => None
  end.
Proof. reflexivity. Qed.

Lemma run_Set (cl : cclass) :
  run (Set_ cl) st k =
  match rest st with
  | c :: t =>
      if in_class cl c
      then k {| pos := S (pos st); rest := t; caps := caps st |}
      else None
  | [] => None
  end.
Proof. reflexivity. Qed.

Lemma run_Alt (r1 r2 : regex) :
  run (Alt r1 r2) st k = orelse (run r1 st k) (run r2 st k).
Proof. reflexivity. Qed.

Lemma run_Group (i : nat) (r : regex) :
  run (Group i r) st k =
  run r st (fun st' =>
    k {| pos := pos st'; rest := rest st';
         caps := (i, firstn (pos st' - pos st) (rest st)) :: caps st' |}).
Proof. reflexivity. Qed.

Lemma run_Star (greedy : bool) (r : regex) :
  run (Star greedy r) st k =
  star_loop (fun st0 k0 => run r st0 k0) greedy k (length (rest st)) st.
Proof. reflexivity. Qed.

Lemma run_Eol :
  run Eol st k = match rest st with [] => k st | _ :: _ => None end.
Proof. reflexivity. Qed.
End RunEquations.

Lemma run_Rep_class {R : Type} (cl : cclass) (n : nat) (st : mstate)
  (k : mstate -> option R) :
  run (Rep n (Set_ cl)) st k =
  if Nat.leb n (length (rest st)) && forallb (in_class cl) (firstn n (rest st))
  then k {| pos := pos st + n; rest := skipn n (rest st); caps := caps st |}
  else None.
Proof.
  revert st; induction n as [|n IH]; intros [p s c]; simpl.
  - now rewrite Nat.add_0_r.
  - destruct s as [|x s]; simpl; [reflexivity|].
    destruct (in_class cl x); simpl; [|now rewrite andb_false_r].
    rewrite IH; simpl. now rewrite Nat.add_succ_r.
Qed.

Lemma exec_from_hit (r : regex) (p : nat) (s : jsstring) (mt : rmatch) :
  match_here r p s = Some mt -> exec_from r p s = Some mt.
Proof. intros H; destruct s; simpl; now rewrite H. Qed.

Lemma exec_from_miss (r : regex) (p : nat) (c : N) (s : jsstring) :
  match_here r p (c :: s) = None ->
  exec_from r p (c :: s) = option_map (shift c) (exec_from r (S p) s).
Proof. intros H; simpl; now rewrite H. Qed.

Lemma star_loop_threads {R : Type}
  (body : mstate -> (mstate -> option R) -> option R) (greedy : bool) :
  threads body ->
  forall n (k : mstate -> option R) st x,
  star_loop body greedy k n st = Some x ->
  exists st' w, k st' = Some x /\ rest st = w ++ rest st' /\
                pos st' = pos st + length w.
Proof.
  intros Hb. induction n as [|n IH]; intros k st x H; cbn [star_loop] in H.
  - exists st, []. cbn [app length]. now rewrite Nat.add_0_r.
  - assert (A : forall y,
      body st (fun st' => if Nat.ltb (pos st) (pos st')
                          then star_loop body greedy k n st' else None) = Some y ->
      exists st' w, k st' = Some y /\ rest st = w ++ rest st' /\
                    pos st' = pos st + length w).
    { intros y Hy. apply Hb in Hy as (st1 & w1 & H1 & R1 & P1).
      destruct (Nat.ltb (pos st) (pos st1)); [|discriminate].
      apply IH in H1 as (st2 & w2 & H2 & R2 & P2).
      exists st2, (w1 ++ w2). rewrite <- app_assoc, <- R2, length_app.
      repeat split; trivial. lia. }
    assert (B : k st = Some x ->
      exists st' w, k st' = Some x /\ rest st = w ++ rest st' /\
                    pos st' = pos st + length w).
    { intros Hk. exists st, []. cbn [app length]. now rewrite Nat.add_0_r. }
    destruct greedy; unfold orelse in H.
    + destruct (body st _) as [y|] eqn:E; [injection H as ->; now apply A|now apply B].
    + destruct (k st) as [y|] eqn:E; [injection H as ->; now apply B|now apply A].
Qed.

Lemma run_threads {R : Type} (r : regex) :
  threads (fun st (k : mstate -> option R) => run r st k).
Proof.
  induction r as [|s|cl|r1 IH1 r2 IH2|r1 IH1 r2 IH2|greedy r IH|i r IH| |];
    intros st k x H; cbn [run] in H.
  - exists st, []. cbn [app length]. now rewrite Nat.add_0_r.
  - destruct (strip_prefix s (rest st)) as [t|] eqn:E; [|discriminate].
    apply strip_prefix_inv in E.
    exists {| pos := pos st + length s; rest := t; caps := caps st |}, s.
    split; [exact H|split; [exact E|reflexivity]].
  - destruct (rest st) as [|c t] eqn:E; [discriminate|].
    destruct (in_class cl c); [|discriminate].
    exists {| pos := S (pos st); rest := t; caps := caps st |}, [c].
    split; [exact H|split; [reflexivity|cbn [pos length]; lia]].
  - apply IH1 in H as (st1 & w1 & H1 & R1 & P1).
    apply IH2 in H1 as (st2 & w2 & H2 & R2 & P2).
    exists st2, (w1 ++ w2). rewrite <- app_assoc, <- R2, length_app.
    repeat split; trivial. lia.
  - unfold orelse in H. destruct (run r1 st k) as [y|] eqn:E.
    + injection H as ->. now apply IH1.
    + now apply IH2.
  - now apply (star_loop_threads _ _ IH) in H.
  - apply IH in H as (st1 & w & H1 & R1 & P1).
    exists {| pos := pos st1; rest := rest st1;
              caps := (i, firstn (pos st1 - pos st) (rest st)) :: caps st1 |}, w.
    split; [exact H1|split; [exact R1|exact P1]].
  - destruct (Nat.eqb (pos st) 0); [|discriminate].
    exists st, []. cbn [app length]. now rewrite Nat.add_0_r.
  - destruct (rest st) eqn:E; [|discriminate].
    exists st, []. cbn [app length]. now rewrite Nat.add_0_r.
Qed.

(** A match splits the input: the text skipped, the text matched, the rest. *)
Lemma match_here_splits (r : regex) (p : nat) (s : jsstring) (mt : rmatch) :
  match_here r p s = Some mt ->
  before mt = [] /\ s = whole mt ++ after mt /\ stop mt = p + length (whole mt).
Proof.
  unfold match_here.
  destruct (run r _ _) as [st'|] eqn:E; [|discriminate]. intros [= <-].
  apply run_threads in E as (st1 & w & [= ->] & R1 & P1).
  cbn [pos rest] in R1, P1. cbn [before whole after stop].
  rewrite P1, R1. replace (p + length w - p) with (length w + 0) by lia.
  rewrite firstn_app_2. cbn [firstn]. rewrite app_nil_r. now repeat split.
Qed.

Lemma exec_from_splits (r : regex) (s : jsstring) :
  forall p mt, exec_from r p s = Some mt -> s = before mt ++ whole mt ++ after mt.
Proof.
  induction s as [|c s IH]; intros p mt H.
  - cbn [exec_from] in H. destruct (match_here r p []) as [m0|] eqn:E; [|discriminate].
    injection H as ->. now destruct (match_here_splits _ _ _ _ E) as (-> & E' & _).
  - destruct (match_here r p (c :: s)) as [m0|] eqn:E.
    + rewrite (exec_from_hit _ _ _ _ E) in H. injection H as ->.
      now destruct (match_here_splits _ _ _ _ E) as (-> & E' & _).
    + rewrite (exec_from_miss _ _ _ _ E) in H.
      destruct (exec_from r (S p) s) as [m1|] eqn:E1; [|discriminate].
      injection H as <-. cbn [shift before whole after app]. f_equal.
      exact (IH _ _ E1).
Qed.

(** The fuel of [matchAll] and of [replace] is never used up: any amount
    beyond the length of the input gives the same result. *)
Lemma matchAll_from_fuel (r : regex) (n : nat) :
  forall m p s, length s < n -> length s < m ->
  matchAll_from n r p s = matchAll_from m r p s.
Proof.
  induction n as [|n IH]; intros m p s Hn Hm; [lia|].
  destruct m as [|m]; [lia|]. cbn [matchAll_from].
  destruct (exec_from r p s) as [mt|] eqn:E; [|reflexivity].
  apply exec_from_splits in E. f_equal.
  assert (L : length s = length (before mt) + length (whole mt) + length (after mt))
    by (rewrite E at 1; rewrite !length_app; lia).
  destruct (whole mt) as [|c w]; destruct (after mt) as [|d a]; trivial;
    cbn [length] in L; apply IH; cbn [length]; lia.
Qed.

Lemma replace_from_fuel (r : regex) (f : rmatch -> jsstring) (n : nat) :
  forall m p s, length s < n -> length s < m ->
  replace_from n r f p s = replace_from m r f p s.
Proof.
  induction n as [|n IH]; intros m p s Hn Hm; [lia|].
  destruct m as [|m]; [lia|]. cbn [replace_from].
  destruct (exec_from r p s) as [mt|] eqn:E; [|reflexivity].
  apply exec_from_splits in E. do 2 f_equal.
  assert (L : length s = length (before mt) + length (whole mt) + length (after mt))
    by (rewrite E at 1; rewrite !length_app; lia).
  destruct (whole mt) as [|c w]; destruct (after mt) as [|d a]; trivial;
    cbn [length] in L; [f_equal| |]; apply IH; cbn [length]; lia.
Qed.

(* ------------------------------------------------------------------ *)
(** ** [extractVideoId] *)

Lemma is_token_length (t : jsstring) : is_token t = true -> length t = 11.
Proof.
  unfold is_token; rewrite andb_true_iff, Nat.eqb_eq; tauto.
Qed.

Lemma is_token_firstn (t : jsstring) :
  is_token (firstn 11 t) =
  Nat.leb 11 (length t) && forallb (in_class id_class) (firstn 11 t).
Proof.
  unfold is_token. f_equal. rewrite length_firstn.
  destruct (Nat.leb_spec 11 (length t)); [apply Nat.eqb_eq|apply Nat.eqb_neq]; lia.
Qed.

Lemma match_here_id (prefix : string) (p : nat) (s : jsstring) :
  match_here (id_pattern prefix) p s =
  match strip_prefix (js prefix) s with
  | Some t => if is_token (firstn 11 t) then Some (id_hit prefix p s t) else None
  | None => None
  end.
Proof.
  unfold match_here, id_pattern. rewrite run_Seq, run_Str; simpl rest.
  destruct (strip_prefix (js prefix) s) as [t|]; [|reflexivity].
  rewrite run_Group, run_Rep_class, is_token_firstn; cbn [pos rest caps].
  destruct (_ && _); [|reflexivity].
  cbn [pos rest caps]; unfold id_hit.
  replace (p + length (js prefix) + 11 - p) with (length (js prefix) + 11) by lia.
  replace (p + length (js prefix) + 11 - (p + length (js prefix))) with 11 by lia.
  reflexivity.
Qed.

Lemma match_here_id_token (prefix : string) (p : nat) (s tok : jsstring) :
  token_after prefix [] tok s ->
  exists mt, match_here (id_pattern prefix) p s = Some mt /\
             capture 1 mt = Some tok /\ before mt = [].
Proof.
  intros (Ht & b & ->). simpl. rewrite match_here_id, strip_prefix_app.
  assert (E : firstn 11 (tok ++ b) = tok).
  { rewrite <- (is_token_length _ Ht). rewrite firstn_app, Nat.sub_diag, firstn_all.
    simpl. apply app_nil_r. }
  rewrite E, Ht. eexists; split; [reflexivity|]. split; [|reflexivity].
  unfold capture, id_hit; cbn [groups group_of Nat.eqb]. now rewrite E.
Qed.

Lemma match_here_id_inv (prefix : string) (p : nat) (s : jsstring) (mt : rmatch) :
  match_here (id_pattern prefix) p s = Some mt ->
  exists tok, capture 1 mt = Some tok /\ before mt = [] /\
              token_after prefix [] tok s.
Proof.
  rewrite match_here_id.
  destruct (strip_prefix (js prefix) s) as [t|] eqn:E; [|discriminate].
  destruct (is_token (firstn 11 t)) eqn:Ht; [|discriminate].
  intros [= <-]. exists (firstn 11 t). repeat split; trivial.
  exists (skipn 11 t). cbn [app]. rewrite firstn_skipn. now apply strip_prefix_inv.
Qed.

Lemma token_after_cons (prefix : string) (c : N) (a tok s : jsstring) :
  token_after prefix (c :: a) tok (c :: s) <-> token_after prefix a tok s.
Proof.
  unfold token_after; split; intros (Ht & b & H); split; trivial; exists b.
  - simpl in H; congruence.
  - simpl; congruence.
Qed.

Lemma token_after_head (prefix : string) (c x : N) (a tok s : jsstring) :
  token_after prefix (x :: a) tok (c :: s) -> x = c.
Proof. intros (_ & b & H); simpl in H; congruence. Qed.

(** The scan of one pattern finds the leftmost token behind its prefix. *)
Lemma exec_id_some (prefix : string) (s : jsstring) :
  forall p mt, exec_from (id_pattern prefix) p s = Some mt ->
  exists tok, capture 1 mt = Some tok /\
              token_after prefix (before mt) tok s /\
              (forall a' tok', token_after prefix a' tok' s ->
                               length (before mt) <= length a').
Proof.
  induction s as [|c s IH]; intros p mt H.
  - simpl in H. destruct (match_here _ p []) as [m0|] eqn:E; [|discriminate].
    injection H as ->. apply match_here_id_inv in E as (tok & Hc & Hb & Ht).
    exists tok; rewrite Hb; split; [trivial|split; [trivial|intros; simpl; lia]].
  - destruct (match_here (id_pattern prefix) p (c :: s)) as [m0|] eqn:E.
    + rewrite (exec_from_hit _ _ _ _ E) in H. injection H as ->.
      apply match_here_id_inv in E as (tok & Hc & Hb & Ht).
      exists tok; rewrite Hb; split; [trivial|split; [trivial|intros; simpl; lia]].
    + rewrite (exec_from_miss _ _ _ _ E) in H.
      destruct (exec_from (id_pattern prefix) (S p) s) as [m1|] eqn:E1; [|discriminate].
      injection H as <-. destruct (IH _ _ E1) as (tok & Hc & Ht & Hmin).
      exists tok; simpl; split; [trivial|split].
      * now apply token_after_cons.
      * intros [|x a'] tok' H'.
        -- destruct (match_here_id_token _ p _ _ H') as (m2 & Hm & _). congruence.
        -- pose proof (token_after_head _ _ _ _ _ _ H') as ->.
           specialize (Hmin a' tok' (proj1 (token_after_cons prefix c a' tok' s) H')).
           simpl; lia.
Qed.

Lemma exec_id_none (prefix : string) (s : jsstring) :
  forall p, exec_from (id_pattern prefix) p s = None -> ~ occurs prefix s.
Proof.
  induction s as [|c s IH]; intros p H (a & tok & Ht).
  - simpl in H. destruct (match_here _ p []) eqn:E; [discriminate|].
    destruct a as [|x a].
    + destruct (match_here_id_token _ p _ _ Ht) as (m2 & Hm & _). congruence.
    + destruct Ht as (_ & b & Hb). discriminate.
  - destruct (match_here (id_pattern prefix) p (c :: s)) as [m0|] eqn:E.
    + rewrite (exec_from_hit _ _ _ _ E) in H. discriminate.
    + rewrite (exec_from_miss _ _ _ _ E) in H.
      destruct (exec_from (id_pattern prefix) (S p) s) eqn:E1; [discriminate|].
      destruct a as [|x a].
      * destruct (match_here_id_token _ p _ _ Ht) as (m2 & Hm & _). congruence.
      * pose proof (token_after_head _ _ _ _ _ _ Ht) as ->.
        apply (IH _ E1). exists a, tok.
        exact (proj1 (token_after_cons prefix c a tok s) Ht).
Qed.

Lemma is_token_cons (tok : jsstring) :
  is_token tok = true -> exists c t, tok = c :: t.
Proof.
  intros H; apply is_token_length in H. destruct tok; [discriminate|eauto].
Qed.

Lemma first_id_none (prefix : string) (more : list regex) (url : jsstring) :
  exec (id_pattern prefix) url = None ->
  first_id (id_pattern prefix :: more) url = first_id more url.
Proof. intros H; cbn [first_id]; now rewrite H. Qed.

Lemma first_id_some (prefix : string) (more : list regex) (url tok : jsstring)
  (mt : rmatch) :
  exec (id_pattern prefix) url = Some mt -> capture 1 mt = Some tok ->
  is_token tok = true ->
  first_id (id_pattern prefix :: more) url = Some tok.
Proof.
  intros H Hc Ht; cbn [first_id]; rewrite H, Hc.
  now destruct (is_token_cons _ Ht) as (c & t & ->).
Qed.

Lemma first_id_spec (prefixes : list string) (url : jsstring) :
  match first_id (map id_pattern prefixes) url with
  | Some tok => selected_from prefixes url tok
  | None => forall prefix, In prefix prefixes -> ~ occurs prefix url
  end.
Proof.
  induction prefixes as [|prefix more IH]; [intros ? []|].
  cbn [map]. destruct (exec (id_pattern prefix) url) as [mt|] eqn:E.
  - destruct (exec_id_some _ _ _ _ E) as (tok & Hc & Ht & Hmin).
    rewrite (first_id_some _ _ _ _ _ E Hc (proj1 Ht)).
    exists 0, prefix, (before mt); repeat split; trivial; try apply Ht.
    intros j ? Hj; lia.
  - rewrite (first_id_none _ _ _ E). pose proof (exec_id_none _ _ _ E) as Hno.
    destruct (first_id (map id_pattern more) url) as [tok|].
    + destruct IH as (i & pre & a & Hn & Ht & Hearly & Hmin).
      exists (S i), pre, a; repeat split; trivial; try apply Ht.
      intros [|j] pre' Hj Hn'; cbn in Hn'.
      * now injection Hn' as <-.
      * apply (Hearly j); [lia|trivial].
    + intros pre [<-|Hin]; [trivial|now apply IH].
Qed.

Lemma app_same_length (A : Type) (a a' x y : list A) :
  a ++ x = a' ++ y -> length a = length a' -> a = a' /\ x = y.
Proof.
  revert a'; induction a as [|c a IH]; intros [|c' a'] H L; try discriminate.
  - now split.
  - injection H as -> H. injection L as L. destruct (IH _ H L) as [-> ->]. now split.
Qed.

Lemma selected_from_unique (prefixes : list string) (url tok tok' : jsstring) :
  selected_from prefixes url tok -> selected_from prefixes url tok' -> tok = tok'.
Proof.
  intros (i & pre & a & Hn & Ht & Hearly & Hmin)
         (i' & pre' & a' & Hn' & Ht' & Hearly' & Hmin').
  destruct (Nat.lt_trichotomy i i') as [L|[->|L]].
  - exfalso. apply (Hearly' i pre L Hn). now exists a, tok.
  - rewrite Hn in Hn'; injection Hn' as <-.
    pose proof (Hmin _ _ Ht') as L1. pose proof (Hmin' _ _ Ht) as L2.
    destruct Ht as (T & b & Hb), Ht' as (T' & b' & Hb').
    rewrite Hb in Hb'. apply app_same_length in Hb' as [_ Hb']; [|lia].
    apply app_inv_head in Hb'. apply app_same_length in Hb' as [Hb' _]; trivial.
    rewrite (is_token_length _ T), (is_token_length _ T'); reflexivity.
  - exfalso. apply (Hearly i' pre' L Hn'). now exists a', tok'.
Qed.

Lemma extractVideoId_patterns :
  VIDEO_ID_PATTERNS = map id_pattern PREFIXES.
Proof. reflexivity. Qed.

Lemma extractVideoId_some_iff (url tok : jsstring) :
  extractVideoId url = Some tok <-> selected url tok.
Proof.
  unfold extractVideoId, selected. rewrite extractVideoId_patterns.
  pose proof (first_id_spec PREFIXES url) as H.
  destruct (first_id (map id_pattern PREFIXES) url) as [t|]; split.
  - now intros [= <-].
  - intros H'. f_equal. exact (selected_from_unique _ _ _ _ H H').
  - discriminate.
  - intros (i & pre & a & Hn & Ht & _). exfalso.
    apply (H pre); [now apply nth_error_In in Hn|now exists a, tok].
Qed.

Lemma extractVideoId_none_iff (url : jsstring) :
  extractVideoId url = None <->
  forall prefix, In prefix PREFIXES -> ~ occurs prefix url.
Proof.
  unfold extractVideoId. rewrite extractVideoId_patterns.
  pose proof (first_id_spec PREFIXES url) as H.
  destruct (first_id (map id_pattern PREFIXES) url) as [t|]; split; trivial.
  - discriminate.
  - intros H'. exfalso. destruct H as (i & pre & a & Hn & Ht & _).
    apply (H' pre); [now apply nth_error_In in Hn|now exists a, t].
Qed.

Lemma clash_strip (p x s : jsstring) :
  clash p x = true -> strip_prefix p (x ++ s) = None.
Proof.
  revert x; induction p as [|a p IH]; intros [|b x]; simpl; try discriminate.
  destruct (N.eqb a b); [apply IH|reflexivity].
Qed.

Lemma exec_id_skip (prefix : string) (a s : jsstring) :
  no_start (js prefix) a = true ->
  forall p, exec_from (id_pattern prefix) p (a ++ s) =
            option_map (prepend a) (exec_from (id_pattern prefix) (p + length a) s).
Proof.
  induction a as [|c a IH]; intros H p.
  - simpl. rewrite Nat.add_0_r. now destruct (exec_from _ p s).
  - cbn [no_start] in H. apply andb_true_iff in H as [Hc Ha].
    cbn [app]. rewrite exec_from_miss.
    + rewrite (IH Ha). cbn [length]. rewrite Nat.add_succ_r.
      now destruct (exec_from _ _ s).
    + rewrite match_here_id. change (c :: a ++ s) with ((c :: a) ++ s).
      now rewrite (clash_strip _ _ _ Hc).
Qed.

Lemma capture_prepend (i : nat) (a : jsstring) (mt : rmatch) :
  capture i (prepend a mt) = capture i mt.
Proof. induction a; [reflexivity|exact IHa]. Qed.

Lemma firstn_token (tok tail : jsstring) :
  is_token tok = true -> firstn 11 (tok ++ tail) = tok.
Proof.
  intros H. rewrite <- (is_token_length _ H).
  rewrite firstn_app, Nat.sub_diag, firstn_all. apply app_nil_r.
Qed.

Lemma token_no_dot (tok : jsstring) :
  is_token tok = true -> ~ In (ch ".") tok.
Proof.
  unfold is_token; rewrite andb_true_iff, forallb_forall.
  intros [_ H] Hin. apply H in Hin. discriminate.
Qed.

Lemma exec_id_no_dot (prefix : string) (p : nat) (s : jsstring) :
  In (ch ".") (js prefix) -> ~ In (ch ".") s ->
  exec_from (id_pattern prefix) p s = None.
Proof.
  intros Hp Hs. destruct (exec_from (id_pattern prefix) p s) as [mt|] eqn:E; trivial.
  destruct (exec_id_some _ _ _ _ E) as (tok & _ & (_ & b & ->) & _).
  exfalso; apply Hs. rewrite !in_app_iff; auto.
Qed.

(** In a string that ends a concrete text [a ++ prefix] with a token, the
    patterns listed before [prefix] fail and the one of [prefix] hits. *)
Lemma first_id_canonical (earlier : list string) (prefix : string)
  (more : list regex) (a tok tail : jsstring) :
  Forall (fun pj => no_start (js pj) (a ++ js prefix) = true /\
                    In (ch ".") (js pj)) earlier ->
  no_start (js prefix) a = true ->
  is_token tok = true ->
  earlier = [] \/ ~ In (ch ".") tail ->
  first_id (map id_pattern earlier ++ id_pattern prefix :: more)
           ((a ++ js prefix) ++ tok ++ tail) = Some tok.
Proof.
  intros He Ha Ht Htail. induction He as [|pj earlier [Hj Hdot] He IH].
  - cbn [map app]. destruct (match_here_id_token prefix (0 + length a)
      (js prefix ++ tok ++ tail) tok) as (mt & Hm & Hc & _).
    { split; trivial. now exists tail. }
    eapply first_id_some; [|rewrite capture_prepend; exact Hc|trivial].
    unfold exec. rewrite <- app_assoc, (exec_id_skip _ _ _ Ha).
    now rewrite (exec_from_hit _ _ _ _ Hm).
  - cbn [map app]. rewrite first_id_none.
    + apply IH. right. destruct Htail as [|]; [discriminate|trivial].
    + unfold exec. rewrite (exec_id_skip _ _ _ Hj), exec_id_no_dot; trivial.
      destruct Htail as [|Htail]; [discriminate|].
      rewrite in_app_iff. intros [H|H]; [now apply (token_no_dot _ Ht)|auto].
Qed.

(** C1, as amended.  [extractVideoId] returns a token exactly when the
    string holds, anywhere and whatever its host, one of the five literal
    prefixes followed at once by eleven characters of [[A-Za-z0-9_-]]: the
    token returned follows the leftmost occurrence of the first prefix, in
    the listed order, that occurs so; it returns [null] exactly when no
    prefix occurs so, and it is total.  In particular the watch URL of the
    platform with the token as its first query parameter returns the token
    whatever follows, and the short-link, embed, legacy and shorts URLs
    return it when no dot follows the token. *)
Theorem extractVideoId_leftmost_token_of_first_pattern :
  (forall url tok, extractVideoId url = Some tok <-> selected url tok) /\
  (forall url, extractVideoId url = None <->
               forall prefix, In prefix PREFIXES -> ~ occurs prefix url) /\
  (forall tok tail, is_token tok = true ->
     extractVideoId (js WATCH_URL ++ tok ++ tail) = Some tok) /\
  (forall shape tok tail, In shape PATH_URLS -> is_token tok = true ->
     ~ In (ch ".") tail ->
     extractVideoId (js shape ++ tok ++ tail) = Some tok).
Proof.
  split; [exact extractVideoId_some_iff|].
  split; [exact extractVideoId_none_iff|].
  split.
  - intros tok tail Ht.
    change (first_id (map id_pattern [] ++
                      id_pattern "youtube.com/watch?v=" :: map id_pattern (skipn 1 PREFIXES))
                     ((js "https://www." ++ js "youtube.com/watch?v=") ++ tok ++ tail) = Some tok).
    apply first_id_canonical; [constructor|reflexivity|assumption|now left].
  - intros shape tok tail Hin Ht Htail.
    assert (D : forall l, Forall (fun pj => In (ch ".") (js pj)) l ->
                forall a, forallb (fun pj => no_start (js pj) a) l = true ->
                Forall (fun pj => no_start (js pj) a = true /\ In (ch ".") (js pj)) l).
    { induction 1 as [|pj l Hd _ IH]; intros a Hl; constructor.
      - cbn [forallb] in Hl. apply andb_true_iff in Hl. tauto.
      - cbn [forallb] in Hl. apply andb_true_iff in Hl. now apply IH. }
    assert (dot : forall l, forallb (fun pj => existsb (N.eqb (ch ".")) (js pj)) l = true ->
                  Forall (fun pj => In (ch ".") (js pj)) l).
    { intros l Hl. apply Forall_forall. intros pj Hpj.
      rewrite forallb_forall in Hl. specialize (Hl _ Hpj).
      apply existsb_exists in Hl as (x & Hx & E). apply N.eqb_eq in E. now subst. }
    destruct Hin as [<-|[<-|[<-|[<-|[]]]]];
      [ change (first_id (map id_pattern (firstn 1 PREFIXES) ++
                          id_pattern "youtu.be/" :: map id_pattern (skipn 2 PREFIXES))
                         ((js "https://" ++ js "youtu.be/") ++ tok ++ tail) = Some tok)
      | change (first_id (map id_pattern (firstn 2 PREFIXES) ++
                          id_pattern "youtube.com/embed/" :: map id_pattern (skipn 3 PREFIXES))
                         ((js "https://www." ++ js "youtube.com/embed/") ++ tok ++ tail) = Some tok)
      | change (first_id (map id_pattern (firstn 3 PREFIXES) ++
                          id_pattern "youtube.com/v/" :: map id_pattern (skipn 4 PREFIXES))
                         ((js "https://www." ++ js "youtube.com/v/") ++ tok ++ tail) = Some tok)
      | change (first_id (map id_pattern (firstn 4 PREFIXES) ++
                          id_pattern "youtube.com/shorts/" :: map id_pattern (skipn 5 PREFIXES))
                         ((js "https://www." ++ js "youtube.com/shorts/") ++ tok ++ tail) = Some tok) ];
      (apply first_id_canonical;
       [ apply D; [apply dot; reflexivity|reflexivity]
       | reflexivity | assumption | right; assumption ]).
Qed.

(** C1 fails as stated: a URL whose host is foreign is answered with a
    token, and a watch URL of the platform whose [v] parameter is not the
    first one is answered with [null]. *)
Lemma extractVideoId_foreign_host_and_late_parameter :
  host_of (js "https://notyoutube.com/watch?v=dQw4w9WgXcQ") = js "notyoutube.com" /\
  extractVideoId (js "https://notyoutube.com/watch?v=dQw4w9WgXcQ")
    = Some (js "dQw4w9WgXcQ") /\
  host_of (js "https://www.youtube.com/watch?feature=share&v=dQw4w9WgXcQ")
    = js "www.youtube.com" /\
  extractVideoId (js "https://www.youtube.com/watch?feature=share&v=dQw4w9WgXcQ")
    = None.
Proof. repeat split; vm_compute; reflexivity. Qed.

Lemma extractVideoId_short_link_witness :
  In "https://youtu.be/"%string PATH_URLS /\
  is_token (js "dQw4w9WgXcQ") = true /\
  ~ In (ch ".") (js "?t=42") /\
  extractVideoId (js "https://youtu.be/" ++ js "dQw4w9WgXcQ" ++ js "?t=42")
    = Some (js "dQw4w9WgXcQ").
Proof.
  assert (H1 : In "https://youtu.be/"%string PATH_URLS) by (simpl; auto).
  assert (H2 : is_token (js "dQw4w9WgXcQ") = true) by reflexivity.
  assert (H3 : ~ In (ch ".") (js "?t=42")).
  { simpl. intros [H|[H|[H|[H|[H|[]]]]]]; discriminate H. }
  split; [exact H1|split; [exact H2|split; [exact H3|]]].
  exact (proj2 (proj2 (proj2 extractVideoId_leftmost_token_of_first_pattern))
           _ _ _ H1 H2 H3).
Defined.

(* ------------------------------------------------------------------ *)
(** ** [findYouTubeUrls] *)

(** C2, the code at a failing input.  The same bare URL stands at the end
    of two sentences.  Each time it is found with its full stop, which is
    what [addUrl] looks up in the array, while the array holds the URL
    without it: the second find is pushed as well and the result holds the
    URL twice. *)
Theorem findYouTubeUrls_pushes_a_duplicate :
  findYouTubeUrls
    (js "See https://youtu.be/abc12345678. Again: https://youtu.be/abc12345678.")
  = [js "https://youtu.be/abc12345678"; js "https://youtu.be/abc12345678"] /\
  ~ NoDup (findYouTubeUrls
    (js "See https://youtu.be/abc12345678. Again: https://youtu.be/abc12345678.")).
Proof.
  assert (E : findYouTubeUrls
    (js "See https://youtu.be/abc12345678. Again: https://youtu.be/abc12345678.")
    = [js "https://youtu.be/abc12345678"; js "https://youtu.be/abc12345678"])
    by (vm_compute; reflexivity).
  split; [exact E|]. rewrite E. intros H.
  inversion H as [|x l Hn _]. apply Hn. now left.
Qed.

(* ------------------------------------------------------------------ *)
(** ** [decodeXmlEntities] *)

Lemma decodeXmlEntities_two_passes (text : jsstring) :
  decodeXmlEntities text = decode (decode text).
Proof. reflexivity. Qed.

(** The six decodings listed for the decoder. *)
Lemma decodeXmlEntities_examples :
  decodeXmlEntities (js "Let&#39;s go") = js "Let's go" /\
  decodeXmlEntities (js "A &amp; B") = js "A & B" /\
  decodeXmlEntities (js "&lt;tag&gt;") = js "<tag>" /\
  decodeXmlEntities (js "&#x3C;&#x3E;") = js "<>" /\
  decodeXmlEntities (js "&amp;#39;") = js "'" /\
  decodeXmlEntities (js "Normal text") = js "Normal text".
Proof. repeat split; vm_compute; reflexivity. Qed.

(** Two passes, not a fixpoint: a third level of encoding survives. *)
Lemma decodeXmlEntities_not_a_fixpoint :
  decodeXmlEntities (js "&amp;amp;lt;") = js "&lt;" /\
  decode (js "&amp;#39;") = js "&#39;".
Proof. split; vm_compute; reflexivity. Qed.

(** C3, the code at a failing input.  [__proto__] is none of the six names,
    yet the lookup [NAMED_ENTITIES[named]] finds the property that every
    object literal inherits, a truthy value, and the reference is replaced
    by that value's string instead of being left as it is. *)
Theorem decodeXmlEntities_inherited_name :
  assoc (js "__proto__") NAMED_ENTITIES = None /\
  decodeXmlEntities (js "&__proto__;") = js "[object Object]" /\
  decodeXmlEntities (js "&__proto__;") <> js "&__proto__;" /\
  decodeXmlEntities (js "&unknown;") = js "&unknown;".
Proof.
  repeat split; try (vm_compute; reflexivity).
  vm_compute; discriminate.
Qed.

(* ------------------------------------------------------------------ *)
(** ** [formatTimestamp] and [formatTranscript] *)

Section Timestamps.
Local Open Scope Z_scope.

Lemma digit_char (d : Z) : 0 <= d < 10 -> Z.of_N (Z.to_N (48 + d)) - 48 = d.
Proof. intros H. rewrite Z2N.id; lia. Qed.

Lemma digits_value (fuel : nat) :
  forall n acc, 0 <= n < 10 ^ Z.of_nat (S fuel) ->
  fold_left (fun v c => 10 * v + (Z.of_N c - 48)) (digits fuel n acc) 0 =
  fold_left (fun v c => 10 * v + (Z.of_N c - 48)) acc n.
Proof.
  induction fuel as [|fuel IH]; intros n acc H.
  - change (10 ^ Z.of_nat 1) with 10 in H. cbn [digits fold_left].
    rewrite digit_char by (apply Z.mod_pos_bound; lia).
    rewrite Z.mod_small by lia. reflexivity.
  - cbn [digits]. destruct (Z.ltb_spec n 10) as [L|L].
    + cbn [fold_left]. rewrite digit_char by (apply Z.mod_pos_bound; lia).
      rewrite Z.mod_small by lia. reflexivity.
    + rewrite IH.
      * cbn [fold_left]. rewrite digit_char by (apply Z.mod_pos_bound; lia).
        f_equal. pose proof (Z.div_mod n 10). lia.
      * rewrite Nat2Z.inj_succ, Z.pow_succ_r in H by lia.
        split; [apply Z.div_pos; lia|apply Z.div_lt_upper_bound; lia].
Qed.

Lemma digits_head (fuel : nat) :
  forall n acc, 0 < n < 10 ^ Z.of_nat (S fuel) ->
  hd_error (digits fuel n acc) <> Some (ch "0").
Proof.
  induction fuel as [|fuel IH]; intros n acc H.
  - change (10 ^ Z.of_nat 1) with 10 in H. cbn [digits hd_error].
    rewrite Z.mod_small by lia. change (ch "0") with 48%N.
    assert (Z.to_N (48 + n) <> 48%N) by lia. congruence.
  - cbn [digits]. destruct (Z.ltb_spec n 10) as [L|L].
    + cbn [hd_error]. rewrite Z.mod_small by lia. change (ch "0") with 48%N.
      assert (Z.to_N (48 + n) <> 48%N) by lia. congruence.
    + apply IH. rewrite Nat2Z.inj_succ, Z.pow_succ_r in H by lia.
      split; [apply Z.div_str_pos; lia|apply Z.div_lt_upper_bound; lia].
Qed.

Lemma below_power_of_ten (n : Z) :
  0 < n -> n < 10 ^ Z.of_nat (S (Z.to_nat (Z.log2 n))).
Proof.
  intros H. pose proof (Z.log2_nonneg n) as L.
  destruct (Z.log2_spec n H) as [_ U].
  rewrite Nat2Z.inj_succ, Z2Nat.id by lia.
  eapply Z.lt_le_trans; [exact U|].
  apply Z.pow_le_mono_l; lia.
Qed.

Lemma toString_plain (n : Z) : 0 <= n -> plain_decimal (toString n) n.
Proof.
  intros H. unfold toString. destruct (Z.ltb_spec n 0) as [|_]; [lia|].
  assert (D : n = 0 \/ 0 < n) by lia. destruct D as [->|P].
  - repeat split; try reflexivity. lia.
  - pose proof (below_power_of_ten n P) as B. repeat split.
    + unfold decimal_value. rewrite digits_value by lia. reflexivity.
    + lia.
    + intros _. apply digits_head; lia.
Qed.

Lemma toString_one_digit (n : Z) :
  0 <= n < 10 -> toString n = [Z.to_N (48 + n)].
Proof.
  intros H. unfold toString. destruct (Z.ltb_spec n 0) as [|_]; [lia|].
  destruct (Z.to_nat (Z.log2 n)); cbn [digits].
  - now rewrite Z.mod_small by lia.
  - destruct (Z.ltb_spec n 10); [|lia]. now rewrite Z.mod_small by lia.
Qed.

Lemma toString_two_digits (n : Z) :
  10 <= n < 100 -> toString n = two_digits n.
Proof.
  intros H. unfold toString. destruct (Z.ltb_spec n 0) as [|_]; [lia|].
  assert (L : 3 <= Z.log2 n).
  { change 3 with (Z.log2 10). apply Z.log2_le_mono; lia. }
  destruct (Z.to_nat (Z.log2 n)) as [|fuel] eqn:E; [lia|].
  cbn [digits]. destruct (Z.ltb_spec n 10); [lia|].
  assert (Q : 0 <= n / 10 < 10).
  { split; [apply Z.div_pos; lia|apply Z.div_lt_upper_bound; lia]. }
  unfold two_digits. destruct fuel; cbn [digits].
  - now rewrite (Z.mod_small (n / 10)) by lia.
  - destruct (Z.ltb_spec (n / 10) 10); [|lia].
    now rewrite (Z.mod_small (n / 10)) by lia.
Qed.

Lemma pad2_toString (n : Z) :
  0 <= n < 100 -> pad2 (toString n) = two_digits n.
Proof.
  intros H. destruct (Z.ltb_spec n 10) as [L|L].
  - rewrite toString_one_digit by lia. unfold pad2, two_digits. cbn.
    rewrite Z.div_small, Z.mod_small by lia. reflexivity.
  - rewrite toString_two_digits by lia. reflexivity.
Qed.

Lemma whole_seconds (ms : Q) :
  (0 <= ms)%Q ->
  0 <= Qfloor (ms / 1000) /\
  ((3600000 <= ms)%Q -> 3600 <= Qfloor (ms / 1000)) /\
  ((ms < 3600000)%Q -> Qfloor (ms / 1000) < 3600).
Proof.
  intros H. split; [|split].
  - change 0 with (Qfloor 0%Q). apply Qfloor_resp_le, Qle_shift_div_l;
      [reflexivity|]. now rewrite Qmult_0_l.
  - intros L. change 3600 with (Qfloor 3600%Q).
    apply Qfloor_resp_le, Qle_shift_div_l; [reflexivity|exact L].
  - intros L. rewrite Zlt_Qlt. eapply Qle_lt_trans; [apply Qfloor_le|].
    apply Qlt_shift_div_r; [reflexivity|exact L].
Qed.

(** In exact arithmetic, with [t] the whole seconds of a nonnegative
    number of milliseconds, the timestamp is H:MM:SS from one hour on and
    M:SS below: the hours [t / 3600], or below one hour the minutes
    [t / 60], as a plain decimal numeral without padding, then the minutes
    within the hour, if hours are written, and the seconds within the
    minute with two digits each. *)
Lemma formatTimestamp_exact_shape :
  (forall ms : Q, (0 <= ms)%Q ->
     let t := Qfloor (ms / 1000) in
     ((3600000 <= ms)%Q ->
        formatTimestamp ms =
        toString (t / 3600) ++ js ":" ++ two_digits (t / 60 mod 60) ++
        js ":" ++ two_digits (t mod 60)) /\
     ((ms < 3600000)%Q ->
        formatTimestamp ms =
        toString (t / 60) ++ js ":" ++ two_digits (t mod 60)) /\
     plain_decimal (toString (t / 3600)) (t / 3600) /\
     plain_decimal (toString (t / 60)) (t / 60)) /\
  formatTimestamp 0%Q = js "0:00" /\
  formatTimestamp 45000%Q = js "0:45" /\
  formatTimestamp 125000%Q = js "2:05" /\
  formatTimestamp 3665000%Q = js "1:01:05".
Proof.
  split; [|repeat split; vm_compute; reflexivity].
  intros ms H t. destruct (whole_seconds ms H) as (T & Thour & Tbelow). fold t in T, Thour, Tbelow.
  assert (Es : Z.rem t 60 = t mod 60) by (apply Z.rem_mod_nonneg; lia).
  assert (Em : Z.rem t 3600 / 60 = t / 60 mod 60).
  { rewrite Z.rem_mod_nonneg by lia.
    change 3600 with (60 * 60). rewrite Z.rem_mul_r by lia.
    rewrite Z.mul_comm, Z.div_add by lia.
    rewrite Z.div_small by (apply Z.mod_pos_bound; lia). reflexivity. }
  assert (Bs : 0 <= t mod 60 < 100).
  { pose proof (Z.mod_pos_bound t 60); lia. }
  assert (Bm : 0 <= t / 60 mod 60 < 100).
  { pose proof (Z.mod_pos_bound (t / 60) 60); lia. }
  unfold formatTimestamp. fold t. rewrite Es, Em.
  split; [|split; [|split]].
  - intros L. specialize (Thour L). destruct (Z.ltb_spec 0 (t / 3600)) as [_|N].
    + now rewrite !pad2_toString.
    + assert (1 <= t / 3600) by (apply Z.div_le_lower_bound; lia). lia.
  - intros L. specialize (Tbelow L). rewrite (Z.div_small t 3600) by lia.
    cbn [Z.ltb Z.compare]. rewrite pad2_toString by lia.
    rewrite (Z.mod_small (t / 60)); [reflexivity|].
    split; [apply Z.div_pos; lia|apply Z.div_lt_upper_bound; lia].
  - apply toString_plain, Z.div_pos; lia.
  - apply toString_plain, Z.div_pos; lia.
Qed.

End Timestamps.

Lemma split_on_no_sep (sep : N) (x : jsstring) :
  ~ In sep x -> split_on sep x = [x].
Proof.
  induction x as [|c x IH]; intros H; [reflexivity|].
  cbn [split_on]. destruct (N.eqb_spec c sep) as [->|_].
  - exfalso; apply H; now left.
  - rewrite IH; [reflexivity|]. intros Hin; apply H; now right.
Qed.

Lemma split_on_app_sep (sep : N) (x rest : jsstring) :
  ~ In sep x -> split_on sep (x ++ sep :: rest) = x :: split_on sep rest.
Proof.
  induction x as [|c x IH]; intros H.
  - cbn [app split_on]. now rewrite N.eqb_refl.
  - cbn [app split_on]. destruct (N.eqb_spec c sep) as [->|_].
    + exfalso; apply H; now left.
    + rewrite IH; [reflexivity|]. intros Hin; apply H; now right.
Qed.


Lemma digits_no_LF (fuel : nat) :
  forall n acc, ~ In LF acc -> ~ In LF (digits fuel n acc).
Proof.
  assert (D : forall n, Z.to_N (48 + n mod 10) <> LF).
  { intros n. pose proof (Z.mod_pos_bound n 10 eq_refl). unfold LF. lia. }
  induction fuel as [|fuel IH]; intros n acc H; cbn [digits].
  - intros [E|Hin]; [exact (D n E)|auto].
  - destruct (n <? 10)%Z.
    + intros [E|Hin]; [exact (D n E)|auto].
    + apply IH. intros [E|Hin]; [exact (D n E)|auto].
Qed.

Lemma toString_no_LF (n : Z) : ~ In LF (toString n).
Proof.
  unfold toString. destruct (n <? 0)%Z.
  - intros [E|Hin]; [discriminate E|]. revert Hin. apply digits_no_LF. intros [].
  - apply digits_no_LF. intros [].
Qed.

Lemma pad2_no_LF (s : jsstring) : ~ In LF s -> ~ In LF (pad2 s).
Proof.
  intros H. unfold pad2. rewrite in_app_iff. intros [Hin|Hin]; [|auto].
  apply repeat_spec in Hin. discriminate Hin.
Qed.

Lemma formatTimestamp_no_LF (ms : Q) : ~ In LF (formatTimestamp ms).
Proof.
  unfold formatTimestamp.
  assert (C : ~ In LF (js ":")) by (intros [E|[]]; discriminate E).
  destruct (0 <? _)%Z; rewrite !in_app_iff;
    intuition (eauto using toString_no_LF, pad2_no_LF);
    match goal with
    | H : In LF (toString _) |- _ => exact (toString_no_LF _ H)
    | H : In LF (pad2 (toString _)) |- _ =>
        exact (pad2_no_LF _ (toString_no_LF _) H)
    end.
Qed.

Lemma timestamped_no_LF (entry : TranscriptEntry Q) :
  ~ In LF (text entry) -> ~ In LF (timestamped entry).
Proof.
  intros H. unfold timestamped. rewrite !in_app_iff.
  intros [Hin|[Hin|[Hin|Hin]]].
  - destruct Hin as [E|[]]; discriminate E.
  - exact (formatTimestamp_no_LF _ Hin).
  - destruct Hin as [E|[E|[]]]; discriminate E.
  - auto.
Qed.

(* ------------------------------------------------------------------ *)
(** ** [selectTrack] *)

Lemma find_first {A : Type} (f : A -> bool) (l : list A) (x : A) :
  find f l = Some x ->
  exists l1 l2, l = l1 ++ x :: l2 /\ f x = true /\ forall y, In y l1 -> f y = false.
Proof.
  induction l as [|a l IH]; [discriminate|]. cbn [find].
  destruct (f a) eqn:E.
  - intros [= ->]. exists [], l. repeat split; trivial. intros y [].
  - intros H. destruct (IH H) as (l1 & l2 & -> & Hx & Hl1).
    exists (a :: l1), l2. repeat split; trivial.
    intros y [<-|Hy]; auto.
Qed.

Lemma split_on_head (sep : N) (s : jsstring) :
  exists ws, split_on sep s =
             (fix before (s : jsstring) : jsstring :=
                match s with
                | [] => []
                | c :: s' => if N.eqb c sep then [] else c :: before s'
                end) s :: ws.
Proof.
  induction s as [|c s [ws IH]]; [now exists []|].
  cbn [split_on]. destruct (N.eqb c sep); [eauto|].
  rewrite IH. eauto.
Qed.

Lemma split_hyphen_base (lang : jsstring) :
  hd lang (split_on (ch "-") lang) = base_language lang.
Proof.
  destruct (split_on_head (ch "-") lang) as [ws ->]. cbn [hd].
  induction lang as [|c lang IH]; [reflexivity|].
  cbn [base_language]. destruct (N.eqb c (ch "-")); [reflexivity|]. now f_equal.
Qed.

Lemma startsWith_iff (s p : jsstring) :
  startsWith s p = true <-> exists more, s = p ++ more.
Proof.
  unfold startsWith. destruct (strip_prefix p s) as [t|] eqn:E; split.
  - intros _. exists t. now apply strip_prefix_inv.
  - reflexivity.
  - discriminate.
  - intros [more ->]. rewrite strip_prefix_app in E. discriminate.
Qed.

(** C8.  On a list with at least one track the selection returns a track,
    never an error: the first track whose language code equals the
    preferred one if there is one; else the first track whose code starts
    with the base language of the preferred code (what precedes its first
    hyphen) if there is one; else the first track of the list. *)
Theorem selectTrack_three_tiers (tracks : list CaptionTrack) (lang : jsstring) :
  tracks <> [] ->
  exists t, selectTrack tracks lang = inr t /\
    ( first_with (exact_match lang) tracks t \/
      ((forall x, In x tracks -> ~ exact_match lang x) /\
       first_with (base_match lang) tracks t) \/
      ((forall x, In x tracks -> ~ exact_match lang x) /\
       (forall x, In x tracks -> ~ base_match lang x) /\
       hd_error tracks = Some t) ).
Proof.
  intros Hne. unfold selectTrack. rewrite split_hyphen_base.
  destruct (find (fun t => jsstring_eqb (languageCode t) lang) tracks) as [t|] eqn:E1.
  - exists t; split; [reflexivity|]. left.
    destruct (find_first _ _ _ E1) as (l1 & l2 & -> & Ht & Hl1).
    exists l1, l2. repeat split.
    + now apply jsstring_eqb_eq.
    + intros x Hx Hm. apply Hl1 in Hx. apply jsstring_eqb_eq in Hm. congruence.
  - assert (N1 : forall x, In x tracks -> ~ exact_match lang x).
    { intros x Hx Hm. apply (find_none _ _ E1) in Hx.
      apply jsstring_eqb_eq in Hm. congruence. }
    destruct (find (fun t => startsWith (languageCode t) (base_language lang)) tracks)
      as [t|] eqn:E2.
    + exists t; split; [reflexivity|]. right; left. split; [exact N1|].
      destruct (find_first _ _ _ E2) as (l1 & l2 & -> & Ht & Hl1).
      exists l1, l2. repeat split.
      * now apply startsWith_iff.
      * intros x Hx Hm. apply Hl1 in Hx. apply startsWith_iff in Hm. congruence.
    + destruct tracks as [|t tracks]; [congruence|].
      exists t; split; [reflexivity|]. right; right. repeat split; trivial.
      intros x Hx Hm. apply (find_none _ _ E2) in Hx.
      apply startsWith_iff in Hm. congruence.
Qed.

Lemma selectTrack_witness :
  SAMPLE_TRACKS <> [] /\
  exists t, selectTrack SAMPLE_TRACKS (js "en-GB") = inr t /\
    ( first_with (exact_match (js "en-GB")) SAMPLE_TRACKS t \/
      ((forall x, In x SAMPLE_TRACKS -> ~ exact_match (js "en-GB") x) /\
       first_with (base_match (js "en-GB")) SAMPLE_TRACKS t) \/
      ((forall x, In x SAMPLE_TRACKS -> ~ exact_match (js "en-GB") x) /\
       (forall x, In x SAMPLE_TRACKS -> ~ base_match (js "en-GB") x) /\
       hd_error SAMPLE_TRACKS = Some t) ).
Proof.
  assert (H : SAMPLE_TRACKS <> []) by discriminate.
  split; [exact H|]. exact (selectTrack_three_tiers SAMPLE_TRACKS (js "en-GB") H).
Defined.

Example selectTrack_base_language :
  selectTrack SAMPLE_TRACKS (js "en-GB")
  = inr {| baseUrl := None; url := None; languageCode := js "en-US" |}.
Proof. vm_compute. reflexivity. Qed.

(* ------------------------------------------------------------------ *)
(** ** The command *)

Lemma written_only_on_success (host : Host) (settings : YouTubeTranscriptSettings)
  (content d : jsstring) :
  active_file host = Some content ->
  written (fetchTranscriptForCurrentNote host settings) = Some d ->
  pipeline_succeeds host settings content d.
Proof.
  intros Hc. unfold fetchTranscriptForCurrentNote, pipeline_succeeds. rewrite Hc.
  destruct (hasTranscriptSection content _); [discriminate|].
  destruct (nth_error (findYouTubeUrls content) 0) as [[|u rl]|] eqn:Eu;
    try discriminate.
  destruct (extractVideoId (u :: rl)) as [[|v id]|] eqn:Ev; try discriminate.
  fold (preferred_language settings). fold (options_of settings).
  destruct (fetchTranscript host (v :: id) (preferred_language settings))
    as [transcript| |] eqn:Ef; try discriminate.
  destruct transcript as [|e es]; [discriminate|]. cbn [length Nat.eqb].
  destruct (vault_modify host _) as [[]| |] eqn:Em; try discriminate.
  cbn [written]. intros [= <-]. split; [reflexivity|].
  exists (u :: rl), (v :: id), (e :: es). repeat split; trivial. discriminate.
Qed.

(** C9.  With a note open, the command stores a new text only when the
    whole pipeline has succeeded, and the text stored is then the note
    followed by a newline and the fragment.  On each failure path nothing is
    stored and the note keeps its text: a note that already holds the
    heading (the only notice is then that the note already has a transcript
    section), no URL detected, no identifier extracted, a retrieval that
    throws, and a retrieval that returns no entry.  A note holds the heading
    when the heading is a substring of its text. *)
Theorem document_unchanged_on_failure (host : Host)
  (settings : YouTubeTranscriptSettings) (content : jsstring) :
  active_file host = Some content ->
  let r := fetchTranscriptForCurrentNote host settings in
  (forall d, written r = Some d -> pipeline_succeeds host settings content d) /\
  (hasTranscriptSection content (setting_sectionHeading settings) = true ->
     document_after content r = content /\
     notices r = [js "This note already has a transcript section"]) /\
  (findYouTubeUrls content = [] -> document_after content r = content) /\
  (forall firstUrl, nth_error (findYouTubeUrls content) 0 = Some firstUrl ->
     extractVideoId firstUrl = None -> document_after content r = content) /\
  (forall firstUrl videoId,
     nth_error (findYouTubeUrls content) 0 = Some firstUrl ->
     extractVideoId firstUrl = Some videoId ->
     (forall transcript,
        fetchTranscript host videoId (preferred_language settings)
        <> Returns transcript) ->
     document_after content r = content) /\
  (forall firstUrl videoId,
     nth_error (findYouTubeUrls content) 0 = Some firstUrl ->
     extractVideoId firstUrl = Some videoId ->
     fetchTranscript host videoId (preferred_language settings) = Returns [] ->
     document_after content r = content) /\
  (hasTranscriptSection content (setting_sectionHeading settings) = true <->
   exists a b, content = a ++ setting_sectionHeading settings ++ b).
Proof.
  intros Hc r.
  assert (A : forall d, written r = Some d -> pipeline_succeeds host settings content d).
  { intros d. now apply written_only_on_success. }
  assert (U : (forall d, ~ pipeline_succeeds host settings content d) ->
              document_after content r = content).
  { intros H. unfold document_after.
    pose proof A as A'. destruct (written r) as [d|]; trivial.
    exfalso. exact (H d (A' d eq_refl)). }
  split; [exact A|]. split; [|split; [|split; [|split; [|split]]]].
  6: apply includes_iff.
  - intros Hs. split.
    + apply U. intros d [Hn _]. congruence.
    + subst r. unfold fetchTranscriptForCurrentNote. now rewrite Hc, Hs.
  - intros Hu. apply U. intros d (_ & u & v & t & Hn & _).
    rewrite Hu in Hn. discriminate.
  - intros u Hu Hv. apply U. intros d (_ & u' & v & t & Hn & Hv' & _). congruence.
  - intros u v Hu Hv Hf. apply U.
    intros d (_ & u' & v' & t & Hn & Hv' & Hf' & _).
    assert (u' = u) by congruence; subst u'.
    assert (v' = v) by congruence; subst v'. exact (Hf t Hf').
  - intros u v Hu Hv Hf. apply U.
    intros d (_ & u' & v' & t & Hn & Hv' & Hf' & Hne & _).
    assert (u' = u) by congruence; subst u'.
    assert (v' = v) by congruence; subst v'. congruence.
Qed.

(** The scenario run end to end: the note of the README gets the fragment
    appended. *)
Example command_on_scenario :
  written (fetchTranscriptForCurrentNote SCENARIO_HOST DEFAULT_SETTINGS)
  = Some (SCENARIO_NOTE ++ [LF] ++ [LF] ++ js "## Transcript" ++ [LF; LF] ++
          js "We're no strangers to love") /\
  notices (fetchTranscriptForCurrentNote SCENARIO_HOST DEFAULT_SETTINGS)
  = [js "Fetching transcript..."; js "Transcript added (2 entries)"].
Proof. split; vm_compute; reflexivity. Qed.

Lemma document_unchanged_witness :
  active_file SCENARIO_HOST = Some SCENARIO_NOTE /\
  forall d,
    written (fetchTranscriptForCurrentNote SCENARIO_HOST DEFAULT_SETTINGS) = Some d ->
    pipeline_succeeds SCENARIO_HOST DEFAULT_SETTINGS SCENARIO_NOTE d.
Proof.
  assert (H : active_file SCENARIO_HOST = Some SCENARIO_NOTE) by reflexivity.
  split; [exact H|].
  exact (proj1 (document_unchanged_on_failure SCENARIO_HOST DEFAULT_SETTINGS
                  SCENARIO_NOTE H)).
Defined.

(* ------------------------------------------------------------------ *)
(** ** Greedy runs of a class *)

Lemma take_drop_class (cl : cclass) (s : jsstring) :
  take_class cl s ++ drop_class cl s = s.
Proof.
  induction s as [|c s IH]; [reflexivity|]. cbn [take_class drop_class].
  destruct (in_class cl c); [cbn [app]; now f_equal|reflexivity].
Qed.

Lemma take_class_all (cl : cclass) (s : jsstring) :
  forallb (in_class cl) (take_class cl s) = true.
Proof.
  induction s as [|c s IH]; [reflexivity|]. cbn [take_class].
  destruct (in_class cl c) eqn:E; [cbn [forallb]; now rewrite E|reflexivity].
Qed.

Lemma drop_class_stops (cl : cclass) (s : jsstring) :
  starts_in cl (drop_class cl s) = false.
Proof.
  induction s as [|c s IH]; [reflexivity|]. cbn [drop_class].
  destruct (in_class cl c) eqn:E; [exact IH|cbn [starts_in]; exact E].
Qed.

Lemma take_class_app (cl : cclass) (a s : jsstring) :
  forallb (in_class cl) a = true -> starts_in cl s = false ->
  take_class cl (a ++ s) = a /\ drop_class cl (a ++ s) = s.
Proof.
  intros Ha Hs. induction a as [|c a IH]; cbn [app].
  - destruct s as [|c s]; [now split|]. cbn [starts_in] in Hs.
    cbn [take_class drop_class]. rewrite Hs. now split.
  - cbn [forallb] in Ha. apply andb_true_iff in Ha as [Hc Ha].
    cbn [take_class drop_class]. rewrite Hc.
    destruct (IH Ha) as [-> ->]. now split.
Qed.

Lemma firstn_take_class (cl : cclass) (s : jsstring) :
  firstn (length (take_class cl s)) s = take_class cl s.
Proof.
  rewrite <- (take_drop_class cl s) at 2.
  rewrite firstn_app, Nat.sub_diag, firstn_all. apply app_nil_r.
Qed.

(** A greedy star of a class, followed by something that cannot start with
    a character of the class, takes the longest run. *)
Lemma star_class_greedy {R : Type} (cl : cclass) (k : mstate -> option R) :
  (forall st', starts_in cl (rest st') = true -> k st' = None) ->
  forall n st, length (rest st) <= n ->
  star_loop (fun st0 k0 => run (Set_ cl) st0 k0) true k n st =
  k {| pos := pos st + length (take_class cl (rest st));
       rest := drop_class cl (rest st); caps := caps st |}.
Proof.
  intros Hk. induction n as [|n IH]; intros [p s c] Hn; cbn [pos rest caps] in *.
  - destruct s; [|cbn in Hn; lia]. cbn. now rewrite Nat.add_0_r.
  - cbn [star_loop]. rewrite run_Set. cbn [pos rest caps].
    destruct s as [|x s].
    + cbn. now rewrite Nat.add_0_r.
    + cbn [take_class drop_class]. destruct (in_class cl x) eqn:E.
      * replace (p <? S p) with true by (symmetry; apply Nat.ltb_lt; lia).
        rewrite IH by (cbn in Hn |- *; lia). cbn [pos rest caps length].
        replace (p + S (length (take_class cl s)))
          with (S p + length (take_class cl s)) by lia.
        match goal with |- orelse ?a _ = _ => destruct a eqn:Ea; [reflexivity|] end.
        cbn [orelse]. apply Hk. cbn [rest starts_in]. exact E.
      * cbn [orelse length]. now rewrite Nat.add_0_r.
Qed.

Lemma run_group_star_class {R : Type} (i : nat) (cl : cclass) (st : mstate)
  (k : mstate -> option R) :
  (forall st', starts_in cl (rest st') = true -> k st' = None) ->
  run (Group i (Star true (Set_ cl))) st k =
  k {| pos := pos st + length (take_class cl (rest st));
       rest := drop_class cl (rest st);
       caps := (i, take_class cl (rest st)) :: caps st |}.
Proof.
  intros Hk. rewrite run_Group, run_Star, star_class_greedy; trivial.
  - cbn [pos rest caps].
    replace (pos st + length (take_class cl (rest st)) - pos st)
      with (length (take_class cl (rest st))) by lia.
    now rewrite firstn_take_class.
  - intros st' Hs. apply Hk. exact Hs.
Qed.

Lemma run_Str_stuck {R : Type} (cl : cclass) (c : N) (lit : jsstring)
  (r : regex) (k : mstate -> option R) :
  in_class cl c = false ->
  forall st', starts_in cl (rest st') = true -> run (Str (c :: lit) >> r) st' k = None.
Proof.
  intros Hc st' Hs. rewrite run_Seq, run_Str.
  destruct (rest st') as [|x s]; [discriminate|]. cbn [starts_in] in Hs.
  cbn [strip_prefix]. destruct (N.eqb_spec c x) as [->|_]; [congruence|reflexivity].
Qed.

Lemma run_Str_stuck_last {R : Type} (cl : cclass) (c : N) (lit : jsstring)
  (k : mstate -> option R) :
  in_class cl c = false ->
  forall st', starts_in cl (rest st') = true -> run (Str (c :: lit)) st' k = None.
Proof.
  intros Hc st' Hs. rewrite run_Str.
  destruct (rest st') as [|x s]; [discriminate|]. cbn [starts_in] in Hs.
  cbn [strip_prefix]. destruct (N.eqb_spec c x) as [->|_]; [congruence|reflexivity].
Qed.

(* ------------------------------------------------------------------ *)
(** ** [parseTranscriptXml] *)

Lemma element_at_inv (s rest : jsstring) (e : element) :
  element_at s = Some (e, rest) -> s = element_text e ++ rest /\ well_formed e.
Proof.
  unfold element_at.
  destruct (strip_prefix OPEN s) as [s1|] eqn:E1; [|discriminate].
  destruct (strip_prefix MID (drop_class not_quote s1)) as [s2|] eqn:E2; [|discriminate].
  destruct (strip_prefix CLOSE_TAG (drop_class not_quote s2)) as [s3|] eqn:E3;
    [|discriminate].
  destruct (strip_prefix END_TAG (drop_class not_lt s3)) as [s4|] eqn:E4;
    [|discriminate].
  intros [= <- <-]. apply strip_prefix_inv in E1, E2, E3, E4. split.
  - unfold element_text; cbn [el_start el_dur el_body].
    rewrite <- !app_assoc, <- E4, take_drop_class, <- E3, take_drop_class,
      <- E2, take_drop_class. exact E1.
  - repeat split; apply take_class_all.
Qed.

Lemma element_at_text (e : element) (rest : jsstring) :
  well_formed e -> element_at (element_text e ++ rest) = Some (e, rest).
Proof.
  intros (H1 & H2 & H3). unfold element_at, element_text.
  rewrite <- !app_assoc, strip_prefix_app.
  destruct (take_class_app not_quote (el_start e)
              (MID ++ el_dur e ++ CLOSE_TAG ++ el_body e ++ END_TAG ++ rest) H1 eq_refl)
    as [T1 D1].
  rewrite T1, D1, strip_prefix_app.
  destruct (take_class_app not_quote (el_dur e)
              (CLOSE_TAG ++ el_body e ++ END_TAG ++ rest) H2 eq_refl) as [T2 D2].
  rewrite T2, D2, strip_prefix_app.
  destruct (take_class_app not_lt (el_body e) (END_TAG ++ rest) H3 eq_refl)
    as [T3 D3].
  rewrite T3, D3, strip_prefix_app. now destruct e.
Qed.

Lemma match_here_xml (p : nat) (s : jsstring) :
  match_here RE_XML_TRANSCRIPT p s =
  match element_at s with
  | Some (e, more) => Some (element_match p e more)
  | None => None
  end.
Proof.
  destruct (element_at s) as [[e more]|] eqn:E.
  - destruct (element_at_inv _ _ _ E) as [Hs _]. revert E.
    unfold element_at, match_here, RE_XML_TRANSCRIPT.
    fold OPEN MID CLOSE_TAG END_TAG not_quote not_lt.
    rewrite run_Seq, run_Str. cbn [pos rest caps].
    destruct (strip_prefix OPEN s) as [s1|]; [|discriminate].
    rewrite run_Seq, run_group_star_class
      by (intros st'; apply run_Str_stuck; reflexivity).
    rewrite run_Seq, run_Str. cbn [pos rest caps].
    destruct (strip_prefix MID (drop_class not_quote s1)) as [s2|]; [|discriminate].
    rewrite run_Seq, run_group_star_class
      by (intros st'; apply run_Str_stuck; reflexivity).
    rewrite run_Seq, run_Str. cbn [pos rest caps].
    destruct (strip_prefix CLOSE_TAG (drop_class not_quote s2)) as [s3|]; [|discriminate].
    rewrite run_Seq, run_group_star_class
      by (intros st'; apply run_Str_stuck_last; reflexivity).
    rewrite run_Str. cbn [pos rest caps].
    destruct (strip_prefix END_TAG (drop_class not_lt s3)) as [s4|]; [|discriminate].
    intros [= <- <-]. cbn [pos rest caps]. unfold element_match. f_equal.
    assert (L : forall q, q + length OPEN + length (take_class not_quote s1) +
                          length MID + length (take_class not_quote s2) +
                          length CLOSE_TAG + length (take_class not_lt s3) +
                          length END_TAG =
                          q + length (element_text
                                {| el_start := take_class not_quote s1;
                                   el_dur := take_class not_quote s2;
                                   el_body := take_class not_lt s3 |})).
    { intros q. unfold element_text; cbn [el_start el_dur el_body].
      rewrite !length_app. lia. }
    rewrite L. f_equal.
    rewrite Hs at 1.
    replace (p + length _ - p) with (length (element_text
      {| el_start := take_class not_quote s1; el_dur := take_class not_quote s2;
         el_body := take_class not_lt s3 |}) + 0) by lia.
    rewrite firstn_app_2. cbn [firstn]. apply app_nil_r.
  - revert E. unfold element_at, match_here, RE_XML_TRANSCRIPT.
    fold OPEN MID CLOSE_TAG END_TAG not_quote not_lt.
    rewrite run_Seq, run_Str. cbn [pos rest caps].
    destruct (strip_prefix OPEN s) as [s1|]; [|reflexivity].
    rewrite run_Seq, run_group_star_class
      by (intros st'; apply run_Str_stuck; reflexivity).
    rewrite run_Seq, run_Str. cbn [pos rest caps].
    destruct (strip_prefix MID (drop_class not_quote s1)) as [s2|]; [|reflexivity].
    rewrite run_Seq, run_group_star_class
      by (intros st'; apply run_Str_stuck; reflexivity).
    rewrite run_Seq, run_Str. cbn [pos rest caps].
    destruct (strip_prefix CLOSE_TAG (drop_class not_quote s2)) as [s3|]; [|reflexivity].
    rewrite run_Seq, run_group_star_class
      by (intros st'; apply run_Str_stuck_last; reflexivity).
    rewrite run_Str. cbn [pos rest caps].
    destruct (strip_prefix END_TAG (drop_class not_lt s3)) as [s4|]; [|reflexivity].
    discriminate.
Qed.

Lemma prepend_fields (a : jsstring) (mt : rmatch) :
  before (prepend a mt) = a ++ before mt /\ whole (prepend a mt) = whole mt /\
  groups (prepend a mt) = groups mt /\ after (prepend a mt) = after mt /\
  stop (prepend a mt) = stop mt.
Proof.
  induction a as [|c a (H1 & H2 & H3 & H4 & H5)]; [now repeat split|].
  cbn [prepend fold_right shift before whole groups after stop app].
  fold (prepend a mt). rewrite H1. now repeat split.
Qed.

Lemma element_of_prepend (a : jsstring) (mt : rmatch) :
  element_of (prepend a mt) = element_of mt.
Proof. unfold element_of. now rewrite !capture_prepend. Qed.

Lemma element_of_match (p : nat) (e : element) (more : jsstring) :
  element_of (element_match p e more) = Some e.
Proof. now destruct e. Qed.

Lemma strip_prefix_app_cases (p g s r : jsstring) :
  strip_prefix p (g ++ s) = Some r ->
  strip_prefix p g <> None \/
  exists x p2, p = g ++ x :: p2 /\ strip_prefix (x :: p2) s = Some r.
Proof.
  revert g; induction p as [|a p IH]; intros g H.
  - left. discriminate.
  - destruct g as [|b g].
    + right. exists a, p. now split.
    + cbn [app strip_prefix] in H |- *. destruct (N.eqb_spec a b) as [->|]; [|discriminate].
      destruct (IH _ H) as [L|(x & p2 & -> & Hx)]; [now left|].
      right. exists x, p2. now split.
Qed.

Lemma includes_cons_false (c : N) (s p : jsstring) :
  includes (c :: s) p = false -> startsWith (c :: s) p = false /\ includes s p = false.
Proof. cbn [includes]. now rewrite orb_false_iff. Qed.

(** The opening of an element cannot start inside a stretch free of it and
    run over into what follows, when that is empty or starts with [<]. *)
Lemma no_open_across (c : N) (g s : jsstring) :
  startsWith (c :: g) OPEN = false ->
  s = [] \/ (exists x, s = ch "<" :: x) ->
  strip_prefix OPEN ((c :: g) ++ s) = None.
Proof.
  intros Hg Hs. destruct (strip_prefix OPEN ((c :: g) ++ s)) as [r|] eqn:E; trivial.
  exfalso. apply strip_prefix_app_cases in E as [L|(x & p2 & Hp & Hx)].
  - unfold startsWith in Hg. destruct (strip_prefix OPEN (c :: g)); congruence.
  - assert (Hin : In (ch "<") (tl OPEN)).
    { destruct Hs as [->|[y ->]]; [discriminate Hx|].
      cbn [strip_prefix] in Hx. destruct (N.eqb_spec x (ch "<")) as [->|]; [|discriminate].
      rewrite Hp. cbn [app tl]. apply in_or_app. right. now left. }
    cbv in Hin. intuition discriminate.
Qed.

Lemma exec_xml_skip (g s : jsstring) :
  includes g OPEN = false ->
  s = [] \/ (exists x, s = ch "<" :: x) ->
  forall p, exec_from RE_XML_TRANSCRIPT p (g ++ s) =
            option_map (prepend g) (exec_from RE_XML_TRANSCRIPT (p + length g) s).
Proof.
  intros Hg Hs. induction g as [|c g IH]; intros p.
  - cbn [app length]. rewrite Nat.add_0_r.
    now destruct (exec_from RE_XML_TRANSCRIPT p s).
  - apply includes_cons_false in Hg as [Hc Hg].
    cbn [app]. rewrite exec_from_miss.
    + rewrite (IH Hg). cbn [length]. rewrite Nat.add_succ_r.
      now destruct (exec_from _ _ s).
    + rewrite match_here_xml. unfold element_at.
      change (c :: g ++ s) with ((c :: g) ++ s).
      now rewrite (no_open_across _ _ _ Hc Hs).
Qed.

Lemma exec_xml_none (s : jsstring) :
  includes s OPEN = false -> forall p, exec_from RE_XML_TRANSCRIPT p s = None.
Proof.
  intros H p. rewrite <- (app_nil_r s), (exec_xml_skip _ _ H (or_introl eq_refl)).
  cbn [exec_from]. rewrite match_here_xml. reflexivity.
Qed.

Lemma exec_xml_element (e : element) (more : jsstring) (p : nat) :
  well_formed e ->
  exec_from RE_XML_TRANSCRIPT p (element_text e ++ more) =
  Some (element_match p e more).
Proof.
  intros H. apply exec_from_hit. now rewrite match_here_xml, element_at_text.
Qed.

Lemma exec_xml_inv (s : jsstring) :
  forall p mt, exec_from RE_XML_TRANSCRIPT p s = Some mt ->
  exists e, element_of mt = Some e /\ well_formed e /\
            s = before mt ++ element_text e ++ after mt /\
            whole mt = element_text e.
Proof.
  induction s as [|c s IH]; intros p mt H.
  - cbn [exec_from] in H. rewrite match_here_xml in H.
    destruct (element_at []) as [[e more]|] eqn:E; [|discriminate].
    injection H as <-. destruct (element_at_inv _ _ _ E) as [Hs Hw].
    exists e. rewrite element_of_match.
    split; [reflexivity|split; [exact Hw|split; [exact Hs|reflexivity]]].
  - destruct (match_here RE_XML_TRANSCRIPT p (c :: s)) as [m0|] eqn:E.
    + rewrite (exec_from_hit _ _ _ _ E) in H. injection H as ->.
      rewrite match_here_xml in E.
      destruct (element_at (c :: s)) as [[e more]|] eqn:E'; [|discriminate].
      injection E as <-. destruct (element_at_inv _ _ _ E') as [Hs Hw].
      exists e. rewrite element_of_match.
    split; [reflexivity|split; [exact Hw|split; [exact Hs|reflexivity]]].
    + rewrite (exec_from_miss _ _ _ _ E) in H.
      destruct (exec_from RE_XML_TRANSCRIPT (S p) s) as [m1|] eqn:E1; [|discriminate].
      injection H as <-. destruct (IH _ _ E1) as (e & He & Hw & Hs & Hwh).
      exists e. split; [exact He|split; [exact Hw|split; [|exact Hwh]]].
      cbn [shift before after]. cbn [app]. now f_equal.
Qed.

Lemma element_text_cons (e : element) : exists x, element_text e = ch "<" :: x.
Proof. eexists. unfold element_text, OPEN. cbn [js map list_ascii_of_string app]. reflexivity. Qed.

Lemma matchAll_xml_sound (fuel : nat) :
  forall p s mt, In mt (matchAll_from fuel RE_XML_TRANSCRIPT p s) ->
  exists e, element_of mt = Some e /\ well_formed e /\
            exists pre post, s = pre ++ element_text e ++ post.
Proof.
  induction fuel as [|fuel IH]; intros p s mt H; [destruct H|].
  cbn [matchAll_from] in H.
  destruct (exec_from RE_XML_TRANSCRIPT p s) as [m0|] eqn:E; [|destruct H].
  destruct (exec_xml_inv _ _ _ E) as (e & He & Hw & Hs & Hwh).
  destruct H as [<-|H].
  - exists e. split; [exact He|split; [exact Hw|]]. now exists (before m0), (after m0).
  - destruct (element_text_cons e) as [x Hx]. rewrite Hwh, Hx in H.
    destruct (IH _ _ _ H) as (e' & He' & Hw' & pre & post & Hs').
    exists e'. split; [exact He'|split; [exact Hw'|]].
    exists (before m0 ++ element_text e ++ pre), post.
    rewrite Hs, Hs', <- !app_assoc. reflexivity.
Qed.

Lemma matched_elements_sound (xml : jsstring) (e : element) :
  In e (matched_elements xml) -> holds_element xml e.
Proof.
  unfold matched_elements, matchAll. rewrite in_flat_map.
  intros (mt & Hin & He).
  destruct (matchAll_xml_sound _ _ _ _ Hin) as (e' & He' & Hw & Hocc).
  rewrite He' in He. destruct He as [<-|[]]. now split.
Qed.

Lemma matchAll_xml_render (doc : list (jsstring * element)) (tail : jsstring) :
  wf_document doc tail ->
  forall fuel p, length (render doc tail) < fuel ->
  flat_map (fun mt => match element_of mt with Some e => [e] | None => [] end)
           (matchAll_from fuel RE_XML_TRANSCRIPT p (render doc tail)) = map snd doc.
Proof.
  intros [Hdoc Htail]. induction Hdoc as [|[g e] doc [Hg Hw] Hdoc IH];
    intros fuel p Hf; (destruct fuel as [|fuel]; [lia|]); cbn [matchAll_from render].
  - cbn [render] in Hf. now rewrite (exec_xml_none _ Htail).
  - cbn [fst snd] in Hg, Hw. destruct (element_text_cons e) as [x Hx].
    rewrite exec_xml_skip; trivial.
    2:{ right. exists (x ++ render doc tail). now rewrite Hx. }
    rewrite (exec_xml_element _ _ _ Hw). cbn [option_map].
    destruct (prepend_fields g (element_match (p + length g) e (render doc tail)))
      as (_ & Hwh & _ & Haf & Hst).
    rewrite Hwh, Haf, Hst. cbn [whole after stop element_match]. rewrite Hx.
    cbn [flat_map map snd]. rewrite element_of_prepend, element_of_match.
    cbn [app]. f_equal. apply IH.
    cbn [render] in Hf. rewrite !length_app, Hx in Hf. cbn [length] in Hf. lia.
Qed.

Lemma matched_elements_render (doc : list (jsstring * element)) (tail : jsstring) :
  wf_document doc tail -> matched_elements (render doc tail) = map snd doc.
Proof.
  intros H. unfold matched_elements, matchAll. apply matchAll_xml_render; trivial. lia.
Qed.

Lemma entry_of_element (lang : jsstring) (mt : rmatch) :
  entry_of lang mt =
  map (entry_for lang)
      (filter kept (match element_of mt with Some e => [e] | None => [] end)).
Proof.
  unfold entry_of, element_of.
  destruct (capture 1 mt) as [[|s start]|], (capture 2 mt) as [[|d dur]|],
           (capture 3 mt) as [t|]; reflexivity.
Qed.

Lemma parse_via_elements (xml lang : jsstring) :
  parseTranscriptXml xml lang =
  match filter kept (matched_elements xml) with
  | [] => inl NO_ENTRIES
  | e :: es => inr (map (entry_for lang) (e :: es))
  end.
Proof.
  unfold parseTranscriptXml, matched_elements.
  assert (E : forall ms,
    flat_map (entry_of lang) ms =
    map (entry_for lang)
      (filter kept
         (flat_map (fun mt => match element_of mt with Some e => [e] | None => [] end)
                   ms))).
  { induction ms as [|mt ms IH]; [reflexivity|].
    cbn [flat_map]. rewrite filter_app, map_app, <- IH, entry_of_element. reflexivity. }
  rewrite E. now destruct (filter kept _).
Qed.

(** C4, as amended.  [parseTranscriptXml] fails, with the message that no
    entries were found and with no other, exactly when none of the elements
    met by its scan has both a non-empty [start] and a non-empty [dur]; a
    success never carries an empty sequence.  Every element met by the scan
    is an element that the XML holds, so an XML that holds none fails; and
    on a document made of well-formed elements between stretches of other
    text, the elements met are the elements of the document. *)
Theorem parseTranscriptXml_fails_iff_no_kept_element (xml lang : jsstring) :
  (parseTranscriptXml xml lang = inl NO_ENTRIES <->
   Forall (fun e => kept e = false) (matched_elements xml)) /\
  (forall entries, parseTranscriptXml xml lang = inr entries -> entries <> []) /\
  (forall message, parseTranscriptXml xml lang = inl message -> message = NO_ENTRIES) /\
  (forall e, In e (matched_elements xml) -> holds_element xml e) /\
  ((forall e, ~ holds_element xml e) -> parseTranscriptXml xml lang = inl NO_ENTRIES) /\
  (forall doc tail, wf_document doc tail -> xml = render doc tail ->
     matched_elements xml = map snd doc).
Proof.
  assert (F : filter kept (matched_elements xml) = [] <->
              Forall (fun e => kept e = false) (matched_elements xml)).
  { induction (matched_elements xml) as [|e l IH]; [now split|].
    cbn [filter]. destruct (kept e) eqn:K; split.
    - discriminate.
    - intros H. inversion H; congruence.
    - intros H. constructor; [exact K|now apply IH].
    - intros H. inversion H. now apply IH. }
  rewrite parse_via_elements.
  split; [split|split; [|split; [|split; [|split]]]].
  - intros H. apply F. now destruct (filter kept _).
  - intros H. apply F in H. now rewrite H.
  - intros entries. destruct (filter kept _); [discriminate|].
    intros [= <-]. discriminate.
  - intros message. destruct (filter kept _); [|discriminate]. now intros [= <-].
  - apply matched_elements_sound.
  - intros H. destruct (matched_elements xml) as [|e l] eqn:E; [reflexivity|].
    exfalso. apply (H e). apply matched_elements_sound. rewrite E. now left.
  - intros doc tail Hwf ->. now apply matched_elements_render.
Qed.

(** C4 fails as stated: this XML is one [<text>] element of the expected
    shape, met by the scan, and the parser fails on it, the [start]
    attribute being empty. *)
Lemma parseTranscriptXml_fails_on_empty_start :
  holds_element (element_text EMPTY_START) EMPTY_START /\
  matched_elements (element_text EMPTY_START) = [EMPTY_START] /\
  parseTranscriptXml (element_text EMPTY_START) (js "en") = inl NO_ENTRIES.
Proof.
  split; [|split; vm_compute; reflexivity].
  split; [now repeat split|]. exists [], []. now rewrite app_nil_r.
Qed.

Lemma sample_document_wf : wf_document SAMPLE_DOCUMENT SAMPLE_TAIL.
Proof.
  split; [|reflexivity].
  repeat constructor; reflexivity.
Defined.

Lemma parseTranscriptXml_fails_witness :
  wf_document SAMPLE_DOCUMENT SAMPLE_TAIL /\
  matched_elements (render SAMPLE_DOCUMENT SAMPLE_TAIL) = map snd SAMPLE_DOCUMENT.
Proof.
  split; [exact sample_document_wf|].
  exact (proj2 (proj2 (proj2 (proj2 (proj2
           (parseTranscriptXml_fails_iff_no_kept_element
              (render SAMPLE_DOCUMENT SAMPLE_TAIL) (js "en"))))))
           SAMPLE_DOCUMENT SAMPLE_TAIL sample_document_wf eq_refl).
Defined.

(** C5, as amended.  The parser emits one entry for each element met by
    its scan whose [start] and [dur] are both non-empty, and none for the
    others: the offset is [parseFloat(start) * 1000], the duration is
    [parseFloat(dur) * 1000], the text is the decoded inner text and the
    language is the tag supplied.  On a document made of well-formed
    elements between stretches of other text the entries are those of the
    elements of the document with non-empty [start] and [dur], in document
    order, neither reordered nor merged. *)
Theorem parseTranscriptXml_entries_in_document_order :
  (forall xml lang,
     parseTranscriptXml xml lang =
     match filter kept (matched_elements xml) with
     | [] => inl NO_ENTRIES
     | e :: es => inr (map (entry_for lang) (e :: es))
     end) /\
  (forall doc tail lang, wf_document doc tail ->
     parseTranscriptXml (render doc tail) lang =
     match filter kept (map snd doc) with
     | [] => inl NO_ENTRIES
     | e :: es => inr (map (entry_for lang) (e :: es))
     end).
Proof.
  split; [exact parse_via_elements|].
  intros doc tail lang H.
  now rewrite parse_via_elements, matched_elements_render.
Qed.

(** C5 fails as stated: the sample document holds two elements of the
    expected shape and the parser emits one entry, the first element having
    an empty [start]. *)
Lemma parseTranscriptXml_skips_empty_start :
  matched_elements (render SAMPLE_DOCUMENT SAMPLE_TAIL) = [EMPTY_START; COMPLETE] /\
  parseTranscriptXml (render SAMPLE_DOCUMENT SAMPLE_TAIL) (js "en") =
  inr [ {| text := js "a & b";
           duration := FMul (FParseFloat (js "2")) (FLit 1000);
           offset := FMul (FParseFloat (js "1.5")) (FLit 1000);
           lang := Some (js "en") |} ].
Proof. split; vm_compute; reflexivity. Qed.

Lemma parseTranscriptXml_entries_witness :
  wf_document SAMPLE_DOCUMENT SAMPLE_TAIL /\
  parseTranscriptXml (render SAMPLE_DOCUMENT SAMPLE_TAIL) (js "en") =
  match filter kept (map snd SAMPLE_DOCUMENT) with
  | [] => inl NO_ENTRIES
  | e :: es => inr (map (entry_for (js "en")) (e :: es))
  end.
Proof.
  split; [exact sample_document_wf|].
  exact (proj2 parseTranscriptXml_entries_in_document_order
           SAMPLE_DOCUMENT SAMPLE_TAIL (js "en") sample_document_wf).
Defined.

(* ------------------------------------------------------------------ *)
(** ** Numeric character references *)

Lemma run_group_plus_class {R : Type} (i : nat) (cl : cclass) (st : mstate)
  (k : mstate -> option R) :
  (forall st', starts_in cl (rest st') = true -> k st' = None) ->
  run (Group i (Plus (Set_ cl))) st k =
  match take_class cl (rest st) with
  | [] => None
  | c :: t =>
      k {| pos := pos st + length (c :: t); rest := drop_class cl (rest st);
           caps := (i, c :: t) :: caps st |}
  end.
Proof.
  intros Hk. unfold Plus. rewrite run_Group, run_Seq, run_Set.
  destruct (rest st) as [|c t] eqn:E; [reflexivity|].
  cbn [take_class drop_class]. destruct (in_class cl c); [|reflexivity].
  rewrite run_Star, star_class_greedy; cbn [pos rest caps]; trivial.
  - replace (S (pos st) + length (take_class cl t) - pos st)
      with (S (length (take_class cl t))) by lia.
    cbn [firstn length]. rewrite firstn_take_class.
    now rewrite Nat.add_succ_r.
  - intros st' Hs. apply Hk. exact Hs.
Qed.

Section Numerals.
Local Open Scope Z_scope.

Lemma leading_digits_all (radix : Z) (ds : jsstring) :
  Forall (fun c => exists d, digit_of c = Some d /\ d < radix) ds ->
  forall acc seen, seen = true \/ ds <> [] ->
  leading_digits radix acc seen ds =
  Some (fold_left (fun v c => v * radix + match digit_of c with Some d => d | None => 0 end)
                  ds acc).
Proof.
  induction 1 as [|c ds (d & Hd & Hr) _ IH]; intros acc seen Hs.
  - destruct Hs as [->|]; [reflexivity|congruence].
  - cbn [leading_digits fold_left]. rewrite Hd.
    destruct (Z.ltb_spec d radix); [|lia]. apply IH. now left.
Qed.

Lemma digit_class_digit (c : N) :
  in_class digit_class c = true -> exists d, digit_of c = Some d /\ d < 10.
Proof.
  unfold in_class, digit_class, digit_of; cbn. unfold is_digit.
  rewrite orb_false_r. intros H. rewrite H. eexists; split; [reflexivity|].
  unfold between in H. apply andb_true_iff in H as [_ H]. apply N.leb_le in H. lia.
Qed.

Lemma hex_class_digit (c : N) :
  in_class hex_class c = true -> exists d, digit_of c = Some d /\ d < 16.
Proof.
  unfold in_class, hex_class, digit_of; cbn. rewrite orb_false_r.
  unfold between. intros H.
  destruct (N.leb_spec 48 c), (N.leb_spec c 57), (N.leb_spec 97 c),
           (N.leb_spec c 102), (N.leb_spec 65 c), (N.leb_spec c 70),
           (N.leb_spec c 122), (N.leb_spec c 90);
    cbn in H |- *; try discriminate; try lia;
    (eexists; split; [reflexivity|lia]).
Qed.

Lemma parseInt_numeral (radix : Z) (cl : cclass) (ds : jsstring) :
  (forall c, in_class cl c = true -> exists d, digit_of c = Some d /\ d < radix) ->
  ds <> [] -> forallb (in_class cl) ds = true ->
  parseInt ds radix = round_double (numeral_value radix ds).
Proof.
  intros Hcl Hne Hall. unfold parseInt, numeral_value.
  rewrite leading_digits_all; [reflexivity| |now right].
  apply Forall_forall. intros c Hc. apply Hcl.
  rewrite forallb_forall in Hall. now apply Hall.
Qed.

Lemma numeral_value_nonneg (radix : Z) (ds : jsstring) :
  0 <= radix -> 0 <= numeral_value radix ds.
Proof.
  intros Hr. unfold numeral_value.
  assert (G : forall acc, 0 <= acc ->
    0 <= fold_left (fun v c => v * radix +
                      match digit_of c with Some d => d | None => 0 end) ds acc).
  { induction ds as [|c ds IH]; intros acc Ha; [exact Ha|].
    cbn [fold_left]. apply IH.
    assert (0 <= match digit_of c with Some d => d | None => 0 end).
    { unfold digit_of, between.
      destruct (N.leb_spec 48 c), (N.leb_spec c 57), (N.leb_spec 97 c),
               (N.leb_spec c 122), (N.leb_spec 65 c), (N.leb_spec c 90);
        cbn; lia. }
    nia. }
  apply G. lia.
Qed.

End Numerals.

Lemma numeral_at_inv (lead : jsstring) (cl : cclass) (s x more : jsstring) :
  numeral_at lead cl s = Some (x, more) ->
  s = lead ++ x ++ js ";" ++ more /\ x <> [] /\ forallb (in_class cl) x = true.
Proof.
  unfold numeral_at.
  destruct (strip_prefix lead s) as [s1|] eqn:E1; [|discriminate].
  destruct (take_class cl s1) as [|c t] eqn:E2; [discriminate|].
  destruct (strip_prefix (js ";") (drop_class cl s1)) as [m|] eqn:E3; [|discriminate].
  intros [= <- <-]. apply strip_prefix_inv in E1, E3. repeat split.
  - rewrite E1. f_equal. rewrite <- E3, <- E2. symmetry. apply take_drop_class.
  - discriminate.
  - rewrite <- E2. apply take_class_all.
Qed.

Lemma numeral_at_text (lead : jsstring) (cl : cclass) (x more : jsstring) :
  x <> [] -> forallb (in_class cl) x = true -> in_class cl (ch ";") = false ->
  numeral_at lead cl (lead ++ x ++ js ";" ++ more) = Some (x, more).
Proof.
  intros Hne Hall Hsemi. unfold numeral_at. rewrite strip_prefix_app.
  destruct (take_class_app cl x (js ";" ++ more) Hall Hsemi) as [-> ->].
  destruct x; [congruence|]. now rewrite strip_prefix_app.
Qed.

Lemma run_numeral {R : Type} (i : nat) (lead : jsstring) (cl : cclass)
  (st : mstate) (k : mstate -> option R) :
  in_class cl (ch ";") = false ->
  run (Str lead >> Group i (Plus (Set_ cl))) st (fun st1 => run (Str (js ";")) st1 k) =
  match numeral_at lead cl (rest st) with
  | Some (x, more) =>
      k {| pos := pos st + length lead + length x + 1; rest := more;
           caps := (i, x) :: caps st |}
  | None => None
  end.
Proof.
  intros Hsemi. rewrite run_Seq, run_Str. unfold numeral_at.
  destruct (strip_prefix lead (rest st)) as [s1|]; [|reflexivity].
  rewrite run_group_plus_class
    by (intros st'; apply run_Str_stuck_last; exact Hsemi).
  cbn [pos rest caps]. destruct (take_class cl s1) as [|c t]; [reflexivity|].
  rewrite run_Str. cbn [pos rest caps].
  now destruct (strip_prefix (js ";") (drop_class cl s1)).
Qed.

Lemma run_numeral_bare {R : Type} (i : nat) (cl : cclass)
  (st : mstate) (k : mstate -> option R) :
  in_class cl (ch ";") = false ->
  run (Group i (Plus (Set_ cl))) st (fun st1 => run (Str (js ";")) st1 k) =
  match numeral_at [] cl (rest st) with
  | Some (x, more) =>
      k {| pos := pos st + length (@nil N) + length x + 1; rest := more;
           caps := (i, x) :: caps st |}
  | None => None
  end.
Proof.
  intros Hsemi. unfold numeral_at. cbn [strip_prefix].
  rewrite run_group_plus_class
    by (intros st'; apply run_Str_stuck_last; exact Hsemi).
  destruct (take_class cl (rest st)) as [|c t]; [reflexivity|].
  rewrite run_Str. cbn [pos rest caps length]. rewrite Nat.add_0_r.
  now destruct (strip_prefix (js ";") (drop_class cl (rest st))).
Qed.

Lemma entity_at_inv (s : jsstring) (i : nat) (lead x more : jsstring) :
  entity_at s = Some (i, lead, x, more) ->
  s = (js "&" ++ lead ++ x ++ js ";") ++ more /\ x <> [].
Proof.
  unfold entity_at.
  destruct (strip_prefix (js "&") s) as [s1|] eqn:E; [|discriminate].
  apply strip_prefix_inv in E.
  destruct (numeral_at (js "#") digit_class s1) as [[ds m1]|] eqn:E1.
  { intros [= <- <- <- <-]. apply numeral_at_inv in E1 as (-> & Hne & _).
    split; [|exact Hne]. rewrite E, <- !app_assoc. reflexivity. }
  destruct (numeral_at (js "#x") hex_class s1) as [[hs m2]|] eqn:E2.
  { intros [= <- <- <- <-]. apply numeral_at_inv in E2 as (-> & Hne & _).
    split; [|exact Hne]. rewrite E, <- !app_assoc. reflexivity. }
  destruct (numeral_at [] word_class s1) as [[w m3]|] eqn:E3; [|discriminate].
  intros [= <- <- <- <-]. apply numeral_at_inv in E3 as (-> & Hne & _).
  split; [|exact Hne]. rewrite E, <- !app_assoc. reflexivity.
Qed.

Lemma match_here_entity (p : nat) (s : jsstring) :
  match_here ENTITY p s =
  match entity_at s with
  | Some (i, lead, x, more) => Some (entity_match p i lead x more)
  | None => None
  end.
Proof.
  assert (W : forall i lead x more, entity_at s = Some (i, lead, x, more) ->
    forall q, q = length (js "&") + length lead + length x + 1 ->
    {| before := []; whole := firstn (p + q - p) s; groups := [(i, x)];
       after := more; stop := p + q |} = entity_match p i lead x more).
  { intros i lead x more H q ->. apply entity_at_inv in H as [-> _].
    unfold entity_match.
    replace (p + (length (js "&") + length lead + length x + 1) - p)
      with (length (js "&" ++ lead ++ x ++ js ";") + 0)
      by (rewrite !length_app; cbn [length js map list_ascii_of_string]; lia).
    rewrite firstn_app_2. cbn [firstn]. rewrite app_nil_r.
    do 2 f_equal. rewrite !length_app. cbn [length js map list_ascii_of_string]. lia. }
  revert W. unfold match_here, entity_at, ENTITY.
  fold digit_class hex_class word_class.
  rewrite run_Seq, run_Str. cbn [pos rest caps].
  destruct (strip_prefix (js "&") s) as [s1|]; [|reflexivity].
  rewrite run_Seq, !run_Alt.
  rewrite run_numeral, run_numeral, run_numeral_bare by reflexivity.
  cbn [pos rest caps].
  destruct (numeral_at (js "#") digit_class s1) as [[ds m1]|].
  { intros W. cbn [orelse pos rest caps]. f_equal.
    rewrite <- (W _ _ _ _ eq_refl (length (js "&") + length (js "#") + length ds + 1) eq_refl).
    f_equal; try (f_equal; lia); lia. }
  cbn [orelse].
  destruct (numeral_at (js "#x") hex_class s1) as [[hs m2]|].
  { intros W. cbn [orelse pos rest caps]. f_equal.
    rewrite <- (W _ _ _ _ eq_refl (length (js "&") + length (js "#x") + length hs + 1) eq_refl).
    f_equal; try (f_equal; lia); lia. }
  cbn [orelse].
  destruct (numeral_at [] word_class s1) as [[w m3]|]; [|reflexivity].
  intros W. cbn [orelse pos rest caps]. f_equal.
  rewrite <- (W _ _ _ _ eq_refl (length (js "&") + length (@nil N) + length w + 1) eq_refl).
  f_equal; try (f_equal; lia); lia.
Qed.

Lemma exec_entity (s : jsstring) :
  forall p, exec_from ENTITY p s =
  match find_entity s with
  | Some (b, (i, lead, x, more)) =>
      Some (prepend b (entity_match (p + length b) i lead x more))
  | None => None
  end.
Proof.
  induction s as [|c s IH]; intros p.
  - cbn [exec_from find_entity]. rewrite match_here_entity.
    destruct (entity_at []) as [[[[i lead] x] more]|]; [|reflexivity].
    cbn [prepend fold_right length]. now rewrite Nat.add_0_r.
  - cbn [find_entity].
    destruct (entity_at (c :: s)) as [[[[i lead] x] more]|] eqn:E.
    + rewrite (exec_from_hit ENTITY p (c :: s) (entity_match p i lead x more))
        by (now rewrite match_here_entity, E).
      cbn [prepend fold_right length]. now rewrite Nat.add_0_r.
    + rewrite exec_from_miss by (now rewrite match_here_entity, E).
      rewrite IH. destruct (find_entity s) as [[b [[[i lead] x] more]]|]; [|reflexivity].
      cbn [option_map prepend fold_right length]. now rewrite Nat.add_succ_r.
Qed.

Lemma replacer_prepend (b : jsstring) (p i : nat) (lead x more : jsstring) :
  replacer (prepend b (entity_match p i lead x more)) = substitution i lead x.
Proof.
  unfold substitution, replacer. rewrite !capture_prepend.
  destruct (prepend_fields b (entity_match p i lead x more)) as (_ & -> & _).
  reflexivity.
Qed.

Lemma replace_from_entity (fuel : nat) :
  forall p s, replace_from fuel ENTITY replacer p s = decode_steps fuel s.
Proof.
  induction fuel as [|fuel IH]; intros p s; [reflexivity|].
  cbn [replace_from decode_steps]. rewrite exec_entity.
  destruct (find_entity s) as [[b [[[i lead] x] more]]|]; [|reflexivity].
  rewrite replacer_prepend.
  destruct (prepend_fields b (entity_match (p + length b) i lead x more))
    as (-> & -> & _ & -> & ->).
  cbn [before whole after stop entity_match]. rewrite app_nil_r.
  change (js "&") with [38%N]. cbn [app]. now rewrite IH.
Qed.

Lemma decode_is_steps (s : jsstring) : decode s = decode_steps (S (length s)) s.
Proof. apply replace_from_entity. Qed.

Lemma find_entity_inv (s : jsstring) :
  forall b i lead x more, find_entity s = Some (b, (i, lead, x, more)) ->
  s = b ++ (js "&" ++ lead ++ x ++ js ";") ++ more.
Proof.
  induction s as [|c s IH]; intros b i lead x more; cbn [find_entity].
  - destruct (entity_at []) as [e|] eqn:E; [|discriminate].
    vm_compute in E. discriminate E.
  - destruct (entity_at (c :: s)) as [e|] eqn:E.
    + intros [= <- ->]. apply entity_at_inv in E as [E _]. exact E.
    + destruct (find_entity s) as [[b' [[[i' lead'] x'] more']]|] eqn:E';
        [|discriminate].
      intros [= <- <- <- <- <-]. cbn [app]. f_equal. exact (IH _ _ _ _ _ eq_refl).
Qed.

Lemma decode_steps_fuel (n : nat) :
  forall s m, length s < n -> length s < m -> decode_steps n s = decode_steps m s.
Proof.
  induction n as [|n IH]; intros s m Hn Hm; [lia|].
  destruct m as [|m]; [lia|]. cbn [decode_steps].
  destruct (find_entity s) as [[b [[[i lead] x] more]]|] eqn:E; [|reflexivity].
  apply find_entity_inv in E. do 2 f_equal.
  assert (length more < length s).
  { rewrite E, !length_app. cbn [length js map list_ascii_of_string]. lia. }
  apply IH; lia.
Qed.

Lemma strip_prefix_app_out (a : N) (lead : jsstring) :
  ~ In a lead ->
  forall s y, strip_prefix lead (s ++ a :: y) =
              option_map (fun t => t ++ a :: y) (strip_prefix lead s).
Proof.
  induction lead as [|l lead IH]; intros Hin s y; [reflexivity|].
  destruct s as [|b s]; cbn [app strip_prefix].
  - destruct (N.eqb_spec l a) as [->|_]; [|reflexivity].
    exfalso; apply Hin; now left.
  - destruct (N.eqb l b); [|reflexivity].
    apply IH. intros H; apply Hin; now right.
Qed.

Lemma class_app_out (cl : cclass) (a : N) :
  in_class cl a = false ->
  forall s y, take_class cl (s ++ a :: y) = take_class cl s /\
              drop_class cl (s ++ a :: y) = drop_class cl s ++ a :: y.
Proof.
  intros Ha s y. induction s as [|c s [IH1 IH2]]; cbn [app take_class drop_class].
  - now rewrite Ha.
  - destruct (in_class cl c); [|now split]. rewrite IH1, IH2. now split.
Qed.

Lemma numeral_at_app_out (lead : jsstring) (cl : cclass) (s y : jsstring) :
  ~ In (ch "&") lead -> in_class cl (ch "&") = false ->
  numeral_at lead cl (s ++ ch "&" :: y) =
  match numeral_at lead cl s with
  | Some (x, more) => Some (x, more ++ ch "&" :: y)
  | None => None
  end.
Proof.
  intros Hl Hc. unfold numeral_at. rewrite (strip_prefix_app_out _ _ Hl).
  destruct (strip_prefix lead s) as [s1|]; [|reflexivity]. cbn [option_map].
  destruct (class_app_out cl _ Hc s1 y) as [-> ->].
  destruct (take_class cl s1) as [|c t]; [reflexivity|].
  rewrite strip_prefix_app_out by (intros [H|[]]; discriminate H).
  now destruct (strip_prefix (js ";") (drop_class cl s1)).
Qed.

Lemma entity_at_app_out (c : N) (s y : jsstring) :
  entity_at ((c :: s) ++ ch "&" :: y) =
  match entity_at (c :: s) with
  | Some (i, lead, x, more) => Some (i, lead, x, more ++ ch "&" :: y)
  | None => None
  end.
Proof.
  unfold entity_at. change (js "&") with [38%N]. cbn [app strip_prefix].
  destruct (N.eqb 38 c); [|reflexivity].
  rewrite !numeral_at_app_out;
    try reflexivity; try (intros [H|[H|[]]]; discriminate H);
    try (intros [H|[]]; discriminate H); try (intros []).
  destruct (numeral_at (js "#") digit_class s) as [[ds m1]|]; [reflexivity|].
  destruct (numeral_at (js "#x") hex_class s) as [[hs m2]|]; [reflexivity|].
  now destruct (numeral_at [] word_class s) as [[w m3]|].
Qed.

Lemma find_entity_app_out (pre y : jsstring) :
  find_entity (pre ++ ch "&" :: y) =
  match find_entity pre with
  | Some (b, (i, lead, x, more)) => Some (b, (i, lead, x, more ++ ch "&" :: y))
  | None =>
      match find_entity (ch "&" :: y) with
      | Some (b, e) => Some (pre ++ b, e)
      | None => None
      end
  end.
Proof.
  set (F := find_entity (ch "&" :: y)).
  induction pre as [|c pre IH].
  - cbn [app]. fold F.
    change (find_entity []) with (@None (jsstring * (nat * jsstring * jsstring * jsstring))).
    now destruct F as [[b e]|].
  - change ((c :: pre) ++ ch "&" :: y) with (c :: (pre ++ ch "&" :: y)).
    cbn [find_entity]. change (c :: (pre ++ ch "&" :: y)) with ((c :: pre) ++ ch "&" :: y).
    rewrite entity_at_app_out.
    destruct (entity_at (c :: pre)) as [[[[i lead] x] more]|]; [reflexivity|].
    rewrite IH.
    destruct (find_entity pre) as [[b [[[i lead] x] more]]|]; [reflexivity|].
    now destruct F as [[b e]|].
Qed.

Lemma decode_steps_context (i : nat) (lead x post y : jsstring) :
  entity_at (ch "&" :: y) = Some (i, lead, x, post) ->
  forall k pre, length pre < k ->
  forall n n1 n2,
    length (pre ++ ch "&" :: y) < n -> length pre < n1 -> length post < n2 ->
    decode_steps n (pre ++ ch "&" :: y) =
    decode_steps n1 pre ++ substitution i lead x ++ decode_steps n2 post.
Proof.
  intros He.
  assert (Lp : length post < length (ch "&" :: y)).
  { destruct (entity_at_inv _ _ _ _ _ He) as [-> _].
    rewrite !length_app. cbn [length js map list_ascii_of_string]. lia. }
  induction k as [|k IH]; intros pre Hk n n1 n2 Hn Hn1 Hn2; [lia|].
  destruct n as [|n]; [lia|]. destruct n1 as [|n1]; [lia|].
  cbn [decode_steps]. rewrite find_entity_app_out.
  destruct (find_entity pre) as [[b [[[i' lead'] x'] more']]|] eqn:E.
  - pose proof (find_entity_inv _ _ _ _ _ _ E) as Hpre.
    assert (L : length more' < length pre).
    { rewrite Hpre, !length_app. cbn [length js map list_ascii_of_string]. lia. }
    rewrite <- !app_assoc. do 2 f_equal.
    apply IH; try lia.
    rewrite length_app in Hn |- *. lia.
  - cbn [find_entity]. rewrite He, app_nil_r. do 2 f_equal.
    apply decode_steps_fuel; [|exact Hn2].
    rewrite length_app in Hn. lia.
Qed.

Lemma decode_context (i : nat) (lead x post y pre : jsstring) :
  entity_at (ch "&" :: y) = Some (i, lead, x, post) ->
  decode (pre ++ ch "&" :: y) = decode pre ++ substitution i lead x ++ decode post.
Proof.
  intros He. rewrite !decode_is_steps.
  apply (decode_steps_context _ _ _ _ _ He (S (length pre))); lia.
Qed.

Lemma decode_single (u : N) : decode [u] = [u].
Proof.
  rewrite decode_is_steps. cbn [length decode_steps find_entity].
  unfold entity_at. change (js "&") with [38%N]. cbn [strip_prefix].
  now destruct (N.eqb 38 u).
Qed.

Lemma entity_at_decimal (ds post : jsstring) :
  ds <> [] -> forallb (in_class digit_class) ds = true ->
  entity_at (ch "&" :: js "#" ++ ds ++ js ";" ++ post) = Some (1, js "#", ds, post).
Proof.
  intros Hne Hall. unfold entity_at. change (js "&") with [ch "&"].
  cbn [strip_prefix]. rewrite N.eqb_refl.
  now rewrite numeral_at_text.
Qed.

Lemma entity_at_hex (hs post : jsstring) :
  hs <> [] -> forallb (in_class hex_class) hs = true ->
  entity_at (ch "&" :: js "#x" ++ hs ++ js ";" ++ post) = Some (2, js "#x", hs, post).
Proof.
  intros Hne Hall. unfold entity_at. change (js "&") with [ch "&"].
  cbn [strip_prefix]. rewrite N.eqb_refl.
  assert (E : numeral_at (js "#") digit_class (js "#x" ++ hs ++ js ";" ++ post) = None)
    by reflexivity.
  rewrite E. now rewrite numeral_at_text.
Qed.

Section References.
Local Open Scope Z_scope.

Lemma decimal_reference_decoded (pre ds post : jsstring) :
  ds <> [] -> forallb (in_class digit_class) ds = true ->
  decode (pre ++ decimal_reference ds ++ post) =
  decode pre ++ fromCharCode (parseInt ds 10) ++ decode post.
Proof.
  intros Hne Hall. unfold decimal_reference.
  replace ((js "&#" ++ ds ++ js ";") ++ post)
    with (ch "&" :: js "#" ++ ds ++ js ";" ++ post)
    by (now rewrite <- !app_assoc).
  rewrite (decode_context _ _ _ _ _ _ (entity_at_decimal ds post Hne Hall)).
  destruct ds; [congruence|reflexivity].
Qed.

Lemma hex_reference_decoded (pre hs post : jsstring) :
  hs <> [] -> forallb (in_class hex_class) hs = true ->
  decode (pre ++ hex_reference hs ++ post) =
  decode pre ++ fromCharCode (parseInt hs 16) ++ decode post.
Proof.
  intros Hne Hall. unfold hex_reference.
  replace ((js "&#x" ++ hs ++ js ";") ++ post)
    with (ch "&" :: js "#x" ++ hs ++ js ";" ++ post)
    by (now rewrite <- !app_assoc).
  rewrite (decode_context _ _ _ _ _ _ (entity_at_hex hs post Hne Hall)).
  destruct hs; [congruence|reflexivity].
Qed.

Lemma round_double_exact (v : Z) :
  v < 2 ^ 53 -> round_double v = Int v.
Proof.
  intros H. unfold round_double. now destruct (Z.ltb_spec v (2 ^ 53)); [|lia].
Qed.

Lemma utf16_single_iff (v : Z) :
  0 <= v -> (utf16 v = Some (fromCharCode (round_double v)) <-> v <= 65535).
Proof.
  intros H. unfold utf16, fromCharCode. destruct (Z.ltb_spec v 65536) as [L|L]; split.
  - lia.
  - intros _. rewrite round_double_exact by lia. cbn [ToUint16].
    now rewrite Z.mod_small by lia.
  - destruct (v <=? 1114111); discriminate.
  - lia.
Qed.

(** C10, as amended.  In any text, one pass of the decoder replaces a
    decimal or hexadecimal numeric reference by the single code unit
    [String.fromCharCode(parseInt(digits, radix))], and the decoder as a
    whole turns a text that is one such reference into that code unit.
    [parseInt] yields the double nearest to the value of the numeral, so
    for a value below 2^53 the code unit is the value modulo 2^16.
    Consequently exactly the references with a value of at most 0xFFFF
    decode to the character they name; the reference [&#128512;], which
    names a character written with two code units, decodes to the one code
    unit 0xF600. *)
Theorem numeric_reference_is_one_code_unit :
  (forall pre ds post,
     ds <> [] -> forallb (in_class digit_class) ds = true ->
     decode (pre ++ decimal_reference ds ++ post) =
     decode pre ++ fromCharCode (parseInt ds 10) ++ decode post /\
     decodeXmlEntities (decimal_reference ds) = fromCharCode (parseInt ds 10) /\
     parseInt ds 10 = round_double (numeral_value 10 ds) /\
     0 <= numeral_value 10 ds) /\
  (forall pre hs post,
     hs <> [] -> forallb (in_class hex_class) hs = true ->
     decode (pre ++ hex_reference hs ++ post) =
     decode pre ++ fromCharCode (parseInt hs 16) ++ decode post /\
     decodeXmlEntities (hex_reference hs) = fromCharCode (parseInt hs 16) /\
     parseInt hs 16 = round_double (numeral_value 16 hs) /\
     0 <= numeral_value 16 hs) /\
  (forall v, 0 <= v < 2 ^ 53 ->
     fromCharCode (round_double v) = [Z.to_N (v mod 2 ^ 16)]) /\
  (forall v, 0 <= v ->
     (utf16 v = Some (fromCharCode (round_double v)) <-> v <= 65535)) /\
  decodeXmlEntities (js "&#128512;") = [62976%N] /\
  utf16 128512 = Some [55357%N; 56832%N].
Proof.
  split; [|split; [|split; [|split; [|split; vm_compute; reflexivity]]]].
  - intros pre ds post Hne Hall. split; [|split; [|split]].
    + now apply decimal_reference_decoded.
    + pose proof (decimal_reference_decoded [] ds [] Hne Hall) as E.
      rewrite app_nil_r in E. cbn [app] in E. unfold decodeXmlEntities.
      change (decode []) with (@nil N) in E. rewrite app_nil_r in E.
      rewrite E. apply decode_single.
    + apply (parseInt_numeral 10 digit_class); trivial. exact digit_class_digit.
    + apply numeral_value_nonneg. lia.
  - intros pre hs post Hne Hall. split; [|split; [|split]].
    + now apply hex_reference_decoded.
    + pose proof (hex_reference_decoded [] hs [] Hne Hall) as E.
      rewrite app_nil_r in E. cbn [app] in E. unfold decodeXmlEntities.
      change (decode []) with (@nil N) in E. rewrite app_nil_r in E.
      rewrite E. apply decode_single.
    + apply (parseInt_numeral 16 hex_class); trivial. exact hex_class_digit.
    + apply numeral_value_nonneg. lia.
  - intros v H. rewrite round_double_exact by lia. reflexivity.
  - exact utf16_single_iff.
Qed.

(** C10 fails as stated: the value of this reference is 2^53 + 1, whose
    remainder modulo 2^16 is 1, and the decoder yields the code unit 0,
    [parseInt] having rounded the value to 2^53. *)
Lemma numeric_reference_beyond_double_precision :
  numeral_value 10 (js "9007199254740993") = 2 ^ 53 + 1 /\
  (2 ^ 53 + 1) mod 2 ^ 16 = 1 /\
  decode (js "&#9007199254740993;") = [0%N] /\
  decodeXmlEntities (js "&#9007199254740993;") = [0%N].
Proof. repeat split; vm_compute; reflexivity. Qed.

Lemma numeric_reference_witness :
  js "39" <> [] /\ forallb (in_class digit_class) (js "39") = true /\
  decode (js "Let" ++ decimal_reference (js "39") ++ js "s go") =
  decode (js "Let") ++ fromCharCode (parseInt (js "39") 10) ++ decode (js "s go").
Proof.
  assert (H1 : js "39" <> []) by discriminate.
  assert (H2 : forallb (in_class digit_class) (js "39") = true) by reflexivity.
  split; [exact H1|split; [exact H2|]].
  exact (proj1 (proj1 numeric_reference_is_one_code_unit
                  (js "Let") (js "39") (js "s go") H1 H2)).
Defined.

End References.

(* ------------------------------------------------------------------ *)
(** ** Supporting facts: trimming and named references *)

Lemma drop_class_nil (cl : cclass) (s : jsstring) :
  drop_class cl s = [] <-> forallb (in_class cl) s = true.
Proof.
  induction s as [|c s IH]; [now split|]. cbn [drop_class forallb].
  destruct (in_class cl c); [exact IH|]. split; discriminate.
Qed.

Lemma take_class_whole (cl : cclass) (s : jsstring) :
  forallb (in_class cl) s = true -> take_class cl s = s.
Proof.
  intros H. pose proof (take_drop_class cl s) as E.
  apply drop_class_nil in H. rewrite H, app_nil_r in E. exact E.
Qed.

Lemma match_here_trailing (p : nat) (s : jsstring) :
  match_here TRAILING p s =
  match s with
  | [] => None
  | _ :: _ =>
      if forallb (in_class punctuation) s
      then Some {| before := []; whole := s; groups := []; after := [];
                   stop := p + length s |}
      else None
  end.
Proof.
  unfold match_here, TRAILING, Plus. fold punctuation.
  rewrite !run_Seq, run_Set. cbn [pos rest caps].
  destruct s as [|c t]; [reflexivity|]. cbn [forallb].
  destruct (in_class punctuation c); [|reflexivity]. cbn [andb].
  rewrite run_Star, star_class_greedy; cbn [pos rest caps]; trivial.
  - rewrite run_Eol. cbn [pos rest caps].
    destruct (forallb (in_class punctuation) t) eqn:E.
    + rewrite (proj2 (drop_class_nil _ _) E), (take_class_whole _ _ E).
      cbn [pos rest caps].
      replace (S p + length t - p) with (length (c :: t)) by (cbn [length]; lia).
      rewrite firstn_all. do 2 f_equal. cbn [length]. lia.
    + destruct (drop_class punctuation t) eqn:D; [|reflexivity].
      apply drop_class_nil in D. congruence.
  - intros st' Hs. rewrite run_Eol. now destruct (rest st').
Qed.

Lemma last_in_all (cl : cclass) (s : jsstring) :
  s <> [] -> forallb (in_class cl) s = true -> last_in cl s = true.
Proof.
  induction s as [|c s IH]; intros Hne H; [congruence|].
  cbn [forallb] in H. apply andb_true_iff in H as [Hc Hs]. cbn [last_in].
  destruct s; [exact Hc|]. apply IH; [discriminate|exact Hs].
Qed.

(** The scan of [TRAILING] finds the trailing run of punctuation. *)
Lemma exec_trailing (u : jsstring) :
  forall p,
  match exec_from TRAILING p u with
  | Some m => u = before m ++ whole m /\ after m = [] /\ whole m <> [] /\
              forallb (in_class punctuation) (whole m) = true /\
              last_in punctuation (before m) = false
  | None => last_in punctuation u = false
  end.
Proof.
  induction u as [|c u IH]; intros p.
  - cbn [exec_from]. now rewrite match_here_trailing.
  - destruct (match_here TRAILING p (c :: u)) as [m|] eqn:E.
    + rewrite (exec_from_hit _ _ _ _ E). rewrite match_here_trailing in E.
      destruct (forallb (in_class punctuation) (c :: u)) eqn:A; [|discriminate].
      injection E as <-. cbn [before whole after]. repeat split; trivial. discriminate.
    + rewrite (exec_from_miss _ _ _ _ E). rewrite match_here_trailing in E.
      destruct (forallb (in_class punctuation) (c :: u)) eqn:A; [discriminate|].
      specialize (IH (S p)).
      destruct (exec_from TRAILING (S p) u) as [m|]; cbn [option_map].
      * destruct IH as (Hu & Ha & Hne & Hall & Hlast).
        cbn [shift before whole after]. repeat split; trivial.
        -- cbn [app]. now f_equal.
        -- cbn [last_in]. destruct (before m) as [|b bs] eqn:B; [|exact Hlast].
           cbn [app] in Hu. subst u. cbn [forallb] in A. rewrite Hall in A.
           now rewrite andb_true_r in A.
      * cbn [last_in]. destruct u as [|d u]; [|exact IH].
        cbn [forallb] in A. now rewrite andb_true_r in A.
Qed.

(** What [url.replace(TRAILING, "")] returns: the URL without its trailing
    run of punctuation. *)
Lemma trim_spec (u : jsstring) :
  exists r, u = replace_first TRAILING [] u ++ r /\
            forallb (in_class punctuation) r = true /\
            last_in punctuation (replace_first TRAILING [] u) = false.
Proof.
  unfold replace_first, exec. pose proof (exec_trailing u 0) as H.
  destruct (exec_from TRAILING 0 u) as [m|].
  - destruct H as (Hu & Ha & _ & Hall & Hlast). exists (whole m).
    rewrite Ha, !app_nil_r. now repeat split.
  - exists []. rewrite app_nil_r. now repeat split.
Qed.

Lemma addUrl_trimmed (urls : list jsstring) (url : option jsstring) :
  Forall (fun u => last_in punctuation u = false) urls ->
  Forall (fun u => last_in punctuation u = false) (addUrl urls url).
Proof.
  intros H. unfold addUrl. destruct url as [[|c t]|]; trivial.
  destruct (negb _); trivial. apply Forall_app. split; trivial.
  constructor; [|constructor]. now destruct (trim_spec (c :: t)) as (r & _ & _ & L).
Qed.

(** X2.  Whatever the text, no URL that [findYouTubeUrls] returns ends
    with a closing parenthesis, a comma, a full stop, a closing bracket or a
    closing angle bracket. *)
Lemma findYouTubeUrls_trimmed (content : jsstring) :
  Forall (fun u => last_in punctuation u = false) (findYouTubeUrls content).
Proof.
  assert (A : forall ms urls,
    Forall (fun u => last_in punctuation u = false) urls ->
    Forall (fun u => last_in punctuation u = false) (addAll urls ms)).
  { unfold addAll. induction ms as [|m ms IH]; intros urls H; [exact H|].
    cbn [fold_left]. apply IH. now apply addUrl_trimmed. }
  unfold findYouTubeUrls. apply A, A.
  destruct (exec FRONTMATTER content) as [mt|]; [|constructor].
  destruct (capture 1 mt) as [[|c t]|]; try constructor.
  destruct (exec SOURCE (c :: t)); apply addUrl_trimmed; constructor.
Qed.

Lemma entity_at_named (w post : jsstring) :
  w <> [] -> forallb (in_class word_class) w = true ->
  entity_at (ch "&" :: w ++ js ";" ++ post) = Some (3, [], w, post).
Proof.
  intros Hne Hall. unfold entity_at. change (js "&") with [ch "&"].
  cbn [strip_prefix]. rewrite N.eqb_refl.
  destruct w as [|c t]; [congruence|].
  assert (Hc : in_class word_class c = true).
  { cbn [forallb] in Hall. now apply andb_true_iff in Hall as [Hc _]. }
  assert (N35 : N.eqb 35 c = false).
  { destruct (N.eqb_spec 35 c) as [<-|]; [discriminate Hc|reflexivity]. }
  assert (E1 : forall cl, numeral_at (js "#") cl ((c :: t) ++ js ";" ++ post) = None).
  { intros cl. unfold numeral_at. change (js "#") with [35%N].
    cbn [app strip_prefix]. now rewrite N35. }
  assert (E2 : forall cl, numeral_at (js "#x") cl ((c :: t) ++ js ";" ++ post) = None).
  { intros cl. unfold numeral_at. change (js "#x") with [35%N; 120%N].
    cbn [app strip_prefix]. now rewrite N35. }
  rewrite E1, E2.
  pose proof (numeral_at_text [] word_class (c :: t) post Hne Hall eq_refl) as E3.
  change ([] ++ (c :: t) ++ js ";" ++ post) with ((c :: t) ++ js ";" ++ post) in E3.
  now rewrite E3.
Qed.

(** One pass of the decoder on a named reference, in any text: the value
    found under the name in [NAMED_ENTITIES], own or inherited, replaces
    the reference, and a name under which nothing is found leaves it as it
    is. *)
Lemma named_reference_decoded (pre w post : jsstring) :
  w <> [] -> forallb (in_class word_class) w = true ->
  decode (pre ++ ch "&" :: w ++ js ";" ++ post) =
  decode pre ++
  match get_entity w with
  | Some entity => if truthy entity then ToString entity else ch "&" :: w ++ js ";"
  | None => ch "&" :: w ++ js ";"
  end ++ decode post.
Proof.
  intros Hne Hall.
  rewrite (decode_context _ _ _ _ _ _ (entity_at_named w post Hne Hall)).
  destruct w; [congruence|reflexivity].
Qed.

Lemma unknown_name_left_verbatim (pre w post : jsstring) :
  w <> [] -> forallb (in_class word_class) w = true ->
  assoc w NAMED_ENTITIES = None -> assoc w Object_prototype = None ->
  decode (pre ++ ch "&" :: w ++ js ";" ++ post) =
  decode pre ++ (ch "&" :: w ++ js ";") ++ decode post.
Proof.
  intros Hne Hall H1 H2. rewrite named_reference_decoded by assumption.
  unfold get_entity. now rewrite H1, H2.
Qed.

(* ------------------------------------------------------------------ *)
(** ** Soundness of the matcher *)

(** Whatever a run of the matcher consumes is derived by the regex, and
    each group holds the text that its subexpression derived.  The facts
    below about what a pattern can have captured rest on this. *)

Lemma sound_here {R : Type} (r : regex) (st : mstate) (k : mstate -> option R)
  (x : R) :
  derives r [] [] -> k st = Some x ->
  exists st' w cs, derives r w cs /\ k st' = Some x /\ rest st = w ++ rest st' /\
                   pos st' = pos st + length w /\ caps st' = cs ++ caps st.
Proof.
  intros D H. exists st, [], []. cbn [app length]. rewrite Nat.add_0_r.
  now repeat split.
Qed.

Lemma star_loop_sound {R : Type} (r : regex)
  (body : mstate -> (mstate -> option R) -> option R) (greedy : bool) :
  sound r body ->
  forall n (k : mstate -> option R) st x,
  star_loop body greedy k n st = Some x ->
  exists st' w cs, derives (Star greedy r) w cs /\ k st' = Some x /\
                   rest st = w ++ rest st' /\ pos st' = pos st + length w /\
                   caps st' = cs ++ caps st.
Proof.
  intros Hb. induction n as [|n IH]; intros k st x H; cbn [star_loop] in H.
  - apply sound_here; [constructor|exact H].
  - assert (A : forall y,
      body st (fun st' => if Nat.ltb (pos st) (pos st')
                          then star_loop body greedy k n st' else None) = Some y ->
      exists st' w cs, derives (Star greedy r) w cs /\ k st' = Some y /\
                       rest st = w ++ rest st' /\ pos st' = pos st + length w /\
                       caps st' = cs ++ caps st).
    { intros y Hy. apply Hb in Hy as (st1 & w1 & c1 & D1 & H1 & R1 & P1 & C1).
      destruct (Nat.ltb (pos st) (pos st1)); [|discriminate].
      apply IH in H1 as (st2 & w2 & c2 & D2 & H2 & R2 & P2 & C2).
      exists st2, (w1 ++ w2), (c2 ++ c1).
      rewrite <- !app_assoc, <- R2, <- C1, length_app.
      split; [now constructor|]. split; [exact H2|]. split; [exact R1|].
      split; [lia|exact C2]. }
    destruct greedy; unfold orelse in H.
    + destruct (body st _) as [y|] eqn:E; [injection H as ->; now apply A|].
      apply sound_here; [constructor|exact H].
    + destruct (k st) as [y|] eqn:E; [injection H as ->|now apply A].
      apply sound_here; [constructor|exact E].
Qed.

Lemma run_sound {R : Type} (r : regex) :
  sound r (fun st (k : mstate -> option R) => run r st k).
Proof.
  induction r as [|s|cl|r1 IH1 r2 IH2|r1 IH1 r2 IH2|greedy r IH|i r IH| |];
    intros st k x H; cbn [run] in H.
  - apply sound_here; [constructor|exact H].
  - destruct (strip_prefix s (rest st)) as [t|] eqn:E; [|discriminate].
    apply strip_prefix_inv in E.
    exists {| pos := pos st + length s; rest := t; caps := caps st |}, s, [].
    split; [constructor|]. now repeat split.
  - destruct (rest st) as [|c t] eqn:E; [discriminate|].
    destruct (in_class cl c) eqn:C; [|discriminate].
    exists {| pos := S (pos st); rest := t; caps := caps st |}, [c], [].
    split; [now constructor|]. split; [exact H|]. split; [reflexivity|].
    split; [cbn [pos length]; lia|reflexivity].
  - apply IH1 in H as (st1 & w1 & c1 & D1 & H1 & R1 & P1 & C1).
    apply IH2 in H1 as (st2 & w2 & c2 & D2 & H2 & R2 & P2 & C2).
    exists st2, (w1 ++ w2), (c2 ++ c1).
    rewrite <- !app_assoc, <- R2, <- C1, length_app.
    split; [now constructor|]. split; [exact H2|]. split; [exact R1|].
    split; [lia|exact C2].
  - unfold orelse in H. destruct (run r1 st k) as [y|] eqn:E.
    + injection H as ->. apply IH1 in E as (st1 & w & c & D & H1 & R1 & P1 & C1).
      exists st1, w, c. split; [now apply derives_Alt_l|now repeat split].
    + apply IH2 in H as (st1 & w & c & D & H1 & R1 & P1 & C1).
      exists st1, w, c. split; [now apply derives_Alt_r|now repeat split].
  - now apply (star_loop_sound r _ _ IH) in H.
  - apply IH in H as (st1 & w & c & D & H1 & R1 & P1 & C1).
    exists {| pos := pos st1; rest := rest st1;
              caps := (i, firstn (pos st1 - pos st) (rest st)) :: caps st1 |}, w,
           ((i, w) :: c).
    split; [now constructor|]. split; [exact H1|]. split; [exact R1|].
    split; [exact P1|]. cbn [caps app]. rewrite C1, P1, R1.
    replace (pos st + length w - pos st) with (length w + 0) by lia.
    rewrite firstn_app_2. cbn [firstn]. now rewrite app_nil_r.
  - destruct (Nat.eqb (pos st) 0); [|discriminate].
    apply sound_here; [constructor|exact H].
  - destruct (rest st) eqn:E; [|discriminate].
    rewrite <- E. apply sound_here; [constructor|exact H].
Qed.

Lemma match_here_derives (r : regex) (p : nat) (s : jsstring) (mt : rmatch) :
  match_here r p s = Some mt -> derives r (whole mt) (groups mt).
Proof.
  unfold match_here.
  destruct (run r _ _) as [st'|] eqn:E; [|discriminate]. intros [= <-].
  apply run_sound in E as (st1 & w & cs & D & [= ->] & R1 & P1 & C1).
  cbn [pos rest caps] in R1, P1, C1. cbn [whole groups].
  rewrite P1, R1, C1, app_nil_r.
  replace (p + length w - p) with (length w + 0) by lia.
  rewrite firstn_app_2. cbn [firstn]. now rewrite app_nil_r.
Qed.

Lemma exec_from_derives (r : regex) (s : jsstring) :
  forall p mt, exec_from r p s = Some mt -> derives r (whole mt) (groups mt).
Proof.
  induction s as [|c s IH]; intros p mt H.
  - cbn [exec_from] in H. destruct (match_here r p []) as [m0|] eqn:E; [|discriminate].
    injection H as ->. exact (match_here_derives _ _ _ _ E).
  - destruct (match_here r p (c :: s)) as [m0|] eqn:E.
    + rewrite (exec_from_hit _ _ _ _ E) in H. injection H as ->.
      exact (match_here_derives _ _ _ _ E).
    + rewrite (exec_from_miss _ _ _ _ E) in H.
      destruct (exec_from r (S p) s) as [m1|] eqn:E1; [|discriminate].
      injection H as <-. cbn [shift whole groups]. exact (IH _ _ E1).
Qed.

Lemma within_refl (s : jsstring) : within s s.
Proof. exists [], []. now rewrite app_nil_r. Qed.

Lemma within_trans (a b c : jsstring) : within a b -> within b c -> within a c.
Proof.
  intros (x & y & ->) (x' & y' & ->). exists (x' ++ x), (y ++ y').
  now rewrite <- !app_assoc.
Qed.

Lemma within_app_l (a b : jsstring) : within a (a ++ b).
Proof. now exists [], b. Qed.

Lemma within_app_r (a b : jsstring) : within b (a ++ b).
Proof. exists a, []. now rewrite app_nil_r. Qed.

Lemma matchAll_from_derives (r : regex) (fuel : nat) :
  forall p s mt, In mt (matchAll_from fuel r p s) ->
  derives r (whole mt) (groups mt) /\ within (whole mt) s.
Proof.
  induction fuel as [|fuel IH]; intros p s mt H; cbn [matchAll_from] in H.
  - destruct H.
  - destruct (exec_from r p s) as [m|] eqn:E; [|destruct H].
    pose proof (exec_from_splits _ _ _ _ E) as Hs.
    destruct H as [<-|H].
    + split; [exact (exec_from_derives _ _ _ _ E)|].
      now exists (before m), (after m).
    + assert (A : forall q s', In mt (matchAll_from fuel r q s') ->
                  within s' (after m) ->
                  derives r (whole mt) (groups mt) /\ within (whole mt) s).
      { intros q s' Hin Hw. destruct (IH _ _ _ Hin) as [D W]. split; [exact D|].
        apply (within_trans _ _ _ W), (within_trans _ _ _ Hw).
        rewrite Hs, app_assoc. apply within_app_r. }
      destruct (whole m) as [|c w]; destruct (after m) as [|d a] eqn:Ea.
      * destruct H.
      * apply (A _ _ H). exists [d], []. now rewrite app_nil_r.
      * apply (A _ _ H). apply within_refl.
      * apply (A _ _ H). apply within_refl.
Qed.

Lemma matchAll_derives (r : regex) (s : jsstring) (mt : rmatch) :
  In mt (matchAll r s) -> derives r (whole mt) (groups mt) /\ within (whole mt) s.
Proof. apply matchAll_from_derives. Qed.

Lemma exec_derives (r : regex) (s : jsstring) (mt : rmatch) :
  exec r s = Some mt -> derives r (whole mt) (groups mt) /\ within (whole mt) s.
Proof.
  intros H. split; [exact (exec_from_derives _ _ _ _ H)|].
  exists (before mt), (after mt). exact (exec_from_splits _ _ _ _ H).
Qed.

Lemma derives_within (r : regex) (w : jsstring) (cs : list (nat * jsstring)) :
  derives r w cs -> forall i x, In (i, x) cs -> within x w.
Proof.
  assert (A : forall (w1 w2 : jsstring) (c1 c2 : list (nat * jsstring)),
    (forall i x, In (i, x) c1 -> within x w1) ->
    (forall i x, In (i, x) c2 -> within x w2) ->
    forall i x, In (i, x) (c2 ++ c1) -> within x (w1 ++ w2)).
  { intros w1 w2 c1 c2 H1 H2 i x Hin. apply in_app_or in Hin as [Hin|Hin].
    - apply (within_trans _ w2); [exact (H2 _ _ Hin)|apply within_app_r].
    - apply (within_trans _ w1); [exact (H1 _ _ Hin)|apply within_app_l]. }
  induction 1 as [|s|cl c Hc|r1 r2 w1 w2 c1 c2 _ IH1 _ IH2|r1 r2 w c _ IH
                 |r1 r2 w c _ IH|g r|g r w1 w2 c1 c2 _ IH1 _ IH2|i r w c _ IH| |];
    intros j x Hin; try (now destruct Hin).
  - exact (A _ _ _ _ IH1 IH2 _ _ Hin).
  - exact (IH _ _ Hin).
  - exact (IH _ _ Hin).
  - exact (A _ _ _ _ IH1 IH2 _ _ Hin).
  - destruct Hin as [[= <- <-]|Hin]; [apply within_refl|exact (IH _ _ Hin)].
Qed.

Lemma group_of_In (i : nat) (cs : list (nat * jsstring)) (x : jsstring) :
  group_of i cs = Some x -> In (i, x) cs.
Proof.
  induction cs as [|[j s] cs IH]; cbn [group_of]; [discriminate|].
  destruct (Nat.eqb_spec i j) as [->|]; [intros [= ->]; now left|].
  intros H; right; auto.
Qed.

(** Reading a derivation back, constructor by constructor. *)

Lemma derives_Str_inv (s w : jsstring) (cs : list (nat * jsstring)) :
  derives (Str s) w cs -> w = s /\ cs = [].
Proof. inversion 1; subst; now split. Qed.

Lemma derives_Set_inv (cl : cclass) (w : jsstring) (cs : list (nat * jsstring)) :
  derives (Set_ cl) w cs -> exists c, w = [c] /\ in_class cl c = true /\ cs = [].
Proof. inversion 1; subst. now exists c. Qed.

Lemma derives_Seq_inv (r1 r2 : regex) (w : jsstring) (cs : list (nat * jsstring)) :
  derives (r1 >> r2) w cs ->
  exists w1 w2 c1 c2, w = w1 ++ w2 /\ cs = c2 ++ c1 /\
                      derives r1 w1 c1 /\ derives r2 w2 c2.
Proof. inversion 1; subst. now exists w1, w2, c1, c2. Qed.

Lemma derives_Alt_inv (r1 r2 : regex) (w : jsstring) (cs : list (nat * jsstring)) :
  derives (Alt r1 r2) w cs -> derives r1 w cs \/ derives r2 w cs.
Proof. inversion 1; subst; [now left|now right]. Qed.

Lemma derives_Group_inv (i : nat) (r : regex) (w : jsstring)
  (cs : list (nat * jsstring)) :
  derives (Group i r) w cs -> exists c, cs = (i, w) :: c /\ derives r w c.
Proof. inversion 1; subst. now exists c. Qed.

Lemma derives_Opt_Str (s w : jsstring) (cs : list (nat * jsstring)) :
  derives (Opt (Str s)) w cs -> (w = s \/ w = []) /\ cs = [].
Proof.
  unfold Opt. intros H. apply derives_Alt_inv in H as [H|H].
  - apply derives_Str_inv in H as [-> ->]. now split; [left|].
  - inversion H; subst. now split; [right|].
Qed.

Lemma derives_Opt_Set (cl : cclass) (w : jsstring) (cs : list (nat * jsstring)) :
  derives (Opt (Set_ cl)) w cs -> forallb (in_class cl) w = true /\ cs = [].
Proof.
  unfold Opt. intros H. apply derives_Alt_inv in H as [H|H].
  - apply derives_Set_inv in H as (c & -> & Hc & ->). cbn [forallb].
    now rewrite Hc.
  - inversion H; subst. now split.
Qed.

Lemma derives_Star_class (g : bool) (cl : cclass) (w : jsstring)
  (cs : list (nat * jsstring)) :
  derives (Star g (Set_ cl)) w cs -> forallb (in_class cl) w = true /\ cs = [].
Proof.
  remember (Star g (Set_ cl)) as r eqn:E. intros H.
  induction H; try discriminate E.
  - now split.
  - injection E as -> ->. destruct (IHderives2 eq_refl) as [A ->].
    apply derives_Set_inv in H as (c & -> & Hc & ->).
    cbn [app forallb]. now rewrite Hc, A.
Qed.

Lemma derives_Plus_class (cl : cclass) (w : jsstring) (cs : list (nat * jsstring)) :
  derives (Plus (Set_ cl)) w cs ->
  w <> [] /\ forallb (in_class cl) w = true /\ cs = [].
Proof.
  unfold Plus. intros H.
  apply derives_Seq_inv in H as (w1 & w2 & c1 & c2 & -> & -> & H1 & H2).
  apply derives_Set_inv in H1 as (c & -> & Hc & ->).
  apply derives_Star_class in H2 as [A ->].
  cbn [app forallb]. rewrite Hc, A. now repeat split.
Qed.

Lemma derives_Rep_class (n : nat) (cl : cclass) :
  forall w cs, derives (Rep n (Set_ cl)) w cs ->
  length w = n /\ forallb (in_class cl) w = true /\ cs = [].
Proof.
  induction n as [|n IH]; intros w cs H; cbn [Rep] in H.
  - inversion H; subst. now repeat split.
  - apply derives_Seq_inv in H as (w1 & w2 & c1 & c2 & -> & -> & H1 & H2).
    apply derives_Set_inv in H1 as (c & -> & Hc & ->).
    apply IH in H2 as (L & A & ->).
    cbn [app forallb length]. rewrite Hc, A, L. now repeat split.
Qed.

Ltac invert_derives :=
  repeat match goal with
  | H : derives (Plus (Set_ _)) _ _ |- _ =>
      apply derives_Plus_class in H as (? & ? & ->)
  | H : derives (Opt (Str _)) _ _ |- _ =>
      apply derives_Opt_Str in H as [? ->]
  | H : derives (Opt (Set_ _)) _ _ |- _ =>
      apply derives_Opt_Set in H as [? ->]
  | H : derives (Rep _ (Set_ _)) _ _ |- _ =>
      apply derives_Rep_class in H as (? & ? & ->)
  | H : derives (Star _ (Set_ _)) _ _ |- _ =>
      apply derives_Star_class in H as [? ->]
  | H : derives (Seq _ _) _ _ |- _ =>
      apply derives_Seq_inv in H as (? & ? & ? & ? & -> & -> & ? & ?)
  | H : derives (Str _) _ _ |- _ =>
      apply derives_Str_inv in H as [-> ->]
  | H : derives (Group _ _) _ _ |- _ =>
      apply derives_Group_inv in H as (? & -> & ?)
  | H : derives Bol _ _ |- _ => inversion H; subst; clear H
  | H : derives Eol _ _ |- _ => inversion H; subst; clear H
  end.

(* ------------------------------------------------------------------ *)
(** ** [findYouTubeUrls]: where the URLs come from *)

Lemma prefix_survives (cl : cclass) (p : jsstring) :
  forall t more r, last_in cl p = false ->
  p ++ more = t ++ r -> forallb (in_class cl) r = true ->
  p = [] \/ exists more', t = p ++ more'.
Proof.
  induction p as [|c p IH]; intros t more r L E A; [now left|right].
  destruct t as [|c' t].
  - rewrite app_nil_l in E. subst r. rewrite forallb_app in A.
    apply andb_true_iff in A as [A _].
    rewrite (last_in_all cl (c :: p)) in L; [discriminate|discriminate|exact A].
  - injection E as <- E. destruct p as [|d p].
    + now exists t.
    + destruct (IH t more r L E A) as [?|[m ->]]; [discriminate|].
      now exists m.
Qed.

Lemma trim_prefix (p more : jsstring) :
  p <> [] -> last_in punctuation p = false ->
  exists more', replace_first TRAILING [] (p ++ more) = p ++ more' /\
                exists r, more = more' ++ r.
Proof.
  intros Hne L. destruct (trim_spec (p ++ more)) as (r & E & A & _).
  destruct (prefix_survives _ _ _ _ _ L E A) as [?|[m Hm]]; [contradiction|].
  exists m. split; [exact Hm|]. exists r. rewrite Hm, <- app_assoc in E.
  now apply app_inv_head in E.
Qed.

Lemma trim_has_scheme (u : jsstring) :
  has_scheme u -> has_scheme (replace_first TRAILING [] u) /\
                  within (replace_first TRAILING [] u) u.
Proof.
  intros [t [->| ->]].
  - destruct (trim_prefix (js "http://") t) as (m & E & r & ->);
      [discriminate|reflexivity|].
    rewrite E. split; [exists m; now left|].
    exists [], r. cbn [app]. now rewrite <- app_assoc.
  - destruct (trim_prefix (js "https://") t) as (m & E & r & ->);
      [discriminate|reflexivity|].
    rewrite E. split; [exists m; now right|].
    exists [], r. cbn [app]. now rewrite <- app_assoc.
Qed.

Lemma scheme_derives (r : regex) (w : jsstring) (cs : list (nat * jsstring)) :
  derives (Str (js "http") >> Opt (Str (js "s")) >> Str (js "://") >> r) w cs ->
  has_scheme w /\ exists t c, derives r t c /\ cs = c /\ within t w.
Proof.
  intros H. invert_derives.
  rewrite !app_nil_r.
  match goal with H : _ \/ _ |- _ => destruct H as [->| ->] end.
  - split; [eexists; right; reflexivity|].
    eexists _, _. split; [eassumption|split; [reflexivity|]].
    rewrite !app_assoc. apply within_app_r.
  - split; [eexists; left; reflexivity|].
    eexists _, _. split; [eassumption|split; [reflexivity|]].
    rewrite !app_assoc. apply within_app_r.
Qed.

Ltac scheme_group :=
  match goal with
  | H : derives (Group _ (Str (js "http") >> _)) _ _ |- _ =>
      apply derives_Group_inv in H as (? & -> & H);
      apply scheme_derives in H as [? (? & ? & H & -> & _)]
  end.

Lemma capture_SOURCE (w : jsstring) (cs : list (nat * jsstring)) (u : jsstring) :
  derives SOURCE w cs -> group_of 1 cs = Some u -> has_scheme u.
Proof.
  unfold SOURCE. intros H.
  repeat (apply derives_Seq_inv in H as (? & ? & ? & ? & -> & -> & ? & H)).
  scheme_group. invert_derives. cbn [app group_of Nat.eqb]. now intros [= <-].
Qed.

Lemma capture_markdownPattern (w : jsstring) (cs : list (nat * jsstring))
  (u : jsstring) :
  derives markdownPattern w cs -> group_of 1 cs = Some u -> has_scheme u.
Proof.
  unfold markdownPattern. intros H.
  repeat (apply derives_Seq_inv in H as (? & ? & ? & ? & -> & -> & ? & H)).
  scheme_group. invert_derives. cbn [app group_of Nat.eqb]. now intros [= <-].
Qed.

Lemma capture_plainPattern (w : jsstring) (cs : list (nat * jsstring))
  (u : jsstring) :
  derives plainPattern w cs -> group_of 1 cs = Some u -> has_scheme u.
Proof.
  unfold plainPattern. intros H.
  scheme_group. cbn [app group_of Nat.eqb]. now intros [= <-].
Qed.

Lemma addUrl_from_the_text (content : jsstring) (urls : list jsstring)
  (url : option jsstring) :
  Forall (from_the_text content) urls ->
  (forall u, url = Some u -> from_the_text content u) ->
  Forall (from_the_text content) (addUrl urls url).
Proof.
  intros H Hu. unfold addUrl. destruct url as [[|c t]|]; trivial.
  destruct (negb _); trivial. apply Forall_app. split; trivial.
  constructor; [|constructor]. destruct (Hu _ eq_refl) as [S W].
  destruct (trim_has_scheme _ S) as [S' W']. split; [exact S'|].
  exact (within_trans _ _ _ W' W).
Qed.

Lemma addAll_from_the_text (content : jsstring) (ms : list rmatch) :
  (forall mt u, In mt ms -> capture 1 mt = Some u -> from_the_text content u) ->
  forall urls, Forall (from_the_text content) urls ->
  Forall (from_the_text content) (addAll urls ms).
Proof.
  unfold addAll. induction ms as [|m ms IH]; intros Hm urls H; [exact H|].
  cbn [fold_left]. apply IH.
  - intros mt u Hin. apply Hm. now right.
  - apply addUrl_from_the_text; [exact H|]. intros u. apply Hm. now left.
Qed.

Lemma captured_within (r : regex) (w : jsstring) (mt : rmatch) (u : jsstring) :
  derives r (whole mt) (groups mt) -> within (whole mt) w ->
  capture 1 mt = Some u -> within u w.
Proof.
  intros D W C. apply group_of_In in C.
  exact (within_trans _ _ _ (derives_within _ _ _ D _ _ C) W).
Qed.

(** X1.  Every URL that [findYouTubeUrls] returns starts with [http://] or
    [https://] and occurs in the text of the note: the detector makes up no
    URL, and trimming does not reach into the scheme. *)
Theorem findYouTubeUrls_from_the_text (content : jsstring) :
  Forall (fun u => has_scheme u /\ within u content) (findYouTubeUrls content).
Proof.
  change (Forall (from_the_text content) (findYouTubeUrls content)).
  unfold findYouTubeUrls.
  apply addAll_from_the_text.
  { intros mt u Hin C. destruct (matchAll_derives _ _ _ Hin) as [D W]. split.
    - exact (capture_plainPattern _ _ _ D C).
    - exact (captured_within _ _ _ _ D W C). }
  apply addAll_from_the_text.
  { intros mt u Hin C. destruct (matchAll_derives _ _ _ Hin) as [D W]. split.
    - exact (capture_markdownPattern _ _ _ D C).
    - exact (captured_within _ _ _ _ D W C). }
  destruct (exec FRONTMATTER content) as [mt|] eqn:Ef; [|constructor].
  destruct (capture 1 mt) as [[|c t]|] eqn:Cf; try constructor.
  destruct (exec_derives _ _ _ Ef) as [Df Wf].
  pose proof (captured_within _ _ _ _ Df Wf Cf) as Wfm.
  destruct (exec SOURCE (c :: t)) as [ms|] eqn:Es;
    (apply addUrl_from_the_text; [constructor|]); [|discriminate].
  intros u C. destruct (exec_derives _ _ _ Es) as [D W]. split.
  - exact (capture_SOURCE _ _ _ D C).
  - exact (within_trans _ _ _ (captured_within _ _ _ _ D W C) Wfm).
Qed.

Lemma addUrl_extends (urls : list jsstring) (url : option jsstring) :
  exists more, addUrl urls url = urls ++ more.
Proof.
  unfold addUrl. destruct url as [[|c t]|]; try (exists []; now rewrite app_nil_r).
  destruct (negb _); [eexists; reflexivity|exists []; now rewrite app_nil_r].
Qed.

Lemma addAll_extends (ms : list rmatch) :
  forall urls, exists more, addAll urls ms = urls ++ more.
Proof.
  unfold addAll. induction ms as [|m ms IH]; intros urls; cbn [fold_left].
  - exists []. now rewrite app_nil_r.
  - destruct (addUrl_extends urls (capture 1 m)) as [m1 ->].
    destruct (IH (urls ++ m1)) as [m2 ->]. exists (m1 ++ m2).
    now rewrite app_assoc.
Qed.

(** X23.  A source that the pattern finds comes first.  When the note
    starts with a front matter in which the pattern of the source field
    matches (it asks for the word youtube after at least one character of
    the host, and so finds neither a youtu.be link nor a link to
    youtube.com without www), the first URL that [findYouTubeUrls] returns
    is the captured URL, trimmed, whatever links and bare URLs the note
    holds besides. *)
Theorem front_matter_source_first (content fm u : jsstring) (mt source : rmatch) :
  exec FRONTMATTER content = Some mt -> capture 1 mt = Some fm -> fm <> [] ->
  exec SOURCE fm = Some source -> capture 1 source = Some u ->
  hd_error (findYouTubeUrls content) = Some (replace_first TRAILING [] u).
Proof.
  intros Ef Cf Hne Es Cs.
  assert (U : u <> []).
  { destruct (exec_derives _ _ _ Es) as [D _].
    destruct (capture_SOURCE _ _ _ D Cs) as [t [->| ->]]; discriminate. }
  unfold findYouTubeUrls. rewrite Ef, Cf.
  destruct fm as [|c t]; [contradiction|]. rewrite Es, Cs.
  destruct u as [|x v]; [contradiction|]. cbn [addUrl array_includes existsb negb app].
  destruct (addAll_extends (matchAll markdownPattern content)
              [replace_first TRAILING [] (x :: v)]) as [m1 ->].
  destruct (addAll_extends (matchAll plainPattern content)
              ([replace_first TRAILING [] (x :: v)] ++ m1)) as [m2 ->].
  reflexivity.
Qed.

Lemma front_matter_source_first_witness :
  hd_error (findYouTubeUrls SCENARIO_NOTE) =
  Some (replace_first TRAILING [] (js "https://www.youtube.com/watch?v=dQw4w9WgXcQ")).
Proof.
  eapply (front_matter_source_first SCENARIO_NOTE _
            (js "https://www.youtube.com/watch?v=dQw4w9WgXcQ") _ _).
  - vm_compute. reflexivity.
  - vm_compute. reflexivity.
  - discriminate.
  - vm_compute. reflexivity.
  - vm_compute. reflexivity.
Defined.

Lemma last_in_app (cl : cclass) (x y : jsstring) :
  y <> [] -> last_in cl (x ++ y) = last_in cl y.
Proof.
  intros Hy. induction x as [|c x IH]; [reflexivity|].
  cbn [app last_in]. destruct (x ++ y) eqn:E; [|exact IH].
  apply app_eq_nil in E as [_ ->]. contradiction.
Qed.

Lemma id_char_not_punctuation (c : N) :
  in_class id_class c = true -> in_class punctuation c = false.
Proof.
  intros H. destruct (in_class punctuation c) eqn:P; [exfalso|reflexivity].
  unfold in_class, punctuation, cls in P. cbn [negated items existsb in_item xorb] in P.
  rewrite orb_false_r in P.
  repeat (apply orb_true_iff in P as [P|P]);
    apply N.eqb_eq in P; subst c; discriminate H.
Qed.

Lemma last_in_false (cl cl' : cclass) (s : jsstring) :
  (forall c, in_class cl c = true -> in_class cl' c = false) ->
  forallb (in_class cl) s = true -> last_in cl' s = false.
Proof.
  intros Hc. induction s as [|c s IH]; [reflexivity|]. cbn [forallb last_in].
  intros H. apply andb_true_iff in H as [H1 H2].
  destruct s; [now apply Hc|now apply IH].
Qed.

Lemma token_not_trimmed (a tok : jsstring) :
  is_token tok = true -> last_in punctuation (a ++ tok) = false.
Proof.
  unfold is_token. intros H. apply andb_true_iff in H as [L A].
  apply Nat.eqb_eq in L. rewrite last_in_app by (destruct tok; [discriminate L|discriminate]).
  exact (last_in_false _ _ _ id_char_not_punctuation A).
Qed.

Lemma trimmed_url_has_id (prefix : string) (a tok tail : jsstring) :
  In prefix PREFIXES -> is_token tok = true ->
  exists tok', extractVideoId (replace_first TRAILING [] (a ++ js prefix ++ tok ++ tail))
               = Some tok' /\ is_token tok' = true.
Proof.
  intros Hp Ht.
  destruct (trim_prefix ((a ++ js prefix) ++ tok) tail) as (m & E & _).
  { destruct tok; [discriminate Ht|]. now destruct (a ++ js prefix). }
  { now apply token_not_trimmed. }
  rewrite <- !app_assoc in E. rewrite E.
  destruct (extractVideoId (a ++ js prefix ++ tok ++ m)) as [tok'|] eqn:X.
  - exists tok'. split; [reflexivity|].
    apply extractVideoId_some_iff in X as (i & p & a' & _ & [T _] & _). exact T.
  - exfalso. apply (proj1 (extractVideoId_none_iff _) X prefix Hp).
    exists a, tok. split; [exact Ht|now exists m].
Qed.

Lemma plainPattern_shape (w : jsstring) (cs : list (nat * jsstring)) :
  derives plainPattern w cs ->
  cs = [(1, w)] /\
  exists prefix a tok tail, In prefix PREFIXES /\ is_token tok = true /\
                            w = a ++ js prefix ++ tok ++ tail.
Proof.
  unfold plainPattern. intros H.
  apply derives_Group_inv in H as (c & -> & H).
  repeat (apply derives_Seq_inv in H as (? & ? & ? & ? & -> & -> & ? & H)).
  match goal with H : derives (Alt _ _) _ _ |- _ =>
    apply derives_Alt_inv in H as [H|H] end; invert_derives;
  (split; [reflexivity|]);
  match goal with
  | |- context [js "youtube.com/watch?v="] =>
      eexists "youtube.com/watch?v="%string, _, _, _
  | |- context [js "youtu.be/"] => eexists "youtu.be/"%string, _, _, _
  end;
  (split; [cbn; tauto|]);
  (split; [unfold is_token; apply andb_true_iff; split;
           [apply Nat.eqb_eq; eassumption|eassumption]|]);
  rewrite (app_assoc (js "http")), (app_assoc (js "http" ++ _)),
    (app_assoc ((js "http" ++ _) ++ _)); reflexivity.
Qed.

(** X3.  Whatever the URLs found before, every URL that the last stage of
    [findYouTubeUrls], the scan for bare URLs, adds to them is one from
    which [extractVideoId] extracts an identifier of eleven characters:
    trimming stops before the identifier. *)
Theorem plain_urls_have_identifiers (content : jsstring) (urls : list jsstring) :
  Forall (fun u => In u urls \/
                   exists tok, extractVideoId u = Some tok /\ is_token tok = true)
         (addAll urls (matchAll plainPattern content)).
Proof.
  set (P := fun u => In u urls \/
                     exists tok, extractVideoId u = Some tok /\ is_token tok = true).
  assert (A : forall ms,
    (forall mt, In mt ms -> derives plainPattern (whole mt) (groups mt)) ->
    forall acc, Forall P acc -> Forall P (addAll acc ms)).
  { unfold addAll. induction ms as [|m ms IH]; intros Hm acc H; [exact H|].
    cbn [fold_left]. apply IH; [intros mt Hin; apply Hm; now right|].
    destruct (plainPattern_shape _ _ (Hm m (or_introl eq_refl)))
      as (Hc & prefix & a & tok & tail & Hp & Ht & Hw).
    unfold addUrl, capture. rewrite Hc. cbn [group_of Nat.eqb].
    destruct (whole m) as [|c t] eqn:W; [exact H|].
    destruct (negb _); [|exact H]. apply Forall_app. split; [exact H|].
    constructor; [|constructor]. right. rewrite Hw.
    now apply trimmed_url_has_id. }
  apply A.
  - intros mt Hin. now destruct (matchAll_derives _ _ _ Hin).
  - apply Forall_forall. intros u Hu. now left.
Qed.

Lemma findYouTubeUrls_candidates (content : jsstring) :
  findYouTubeUrls content = fold_left addUrl (candidates content) [].
Proof.
  unfold findYouTubeUrls, candidates, addAll.
  rewrite !fold_left_app.
  assert (M : forall ms urls,
    fold_left (fun acc mt => addUrl acc (capture 1 mt)) ms urls =
    fold_left addUrl (map (capture 1) ms) urls).
  { induction ms as [|m ms IH]; intros urls; [reflexivity|]. cbn [map fold_left].
    apply IH. }
  rewrite !M. do 2 f_equal.
  destruct (exec FRONTMATTER content) as [mt|]; [|reflexivity].
  destruct (capture 1 mt) as [[|c t]|]; try reflexivity.
  now destruct (exec SOURCE (c :: t)).
Qed.

Lemma trim_nothing (u : jsstring) :
  last_in punctuation u = false -> replace_first TRAILING [] u = u.
Proof.
  intros H. unfold replace_first, exec. pose proof (exec_trailing u 0) as E.
  destruct (exec_from TRAILING 0 u) as [m|]; [|reflexivity].
  destruct E as (Hu & _ & Hne & Hall & _). exfalso.
  rewrite Hu, last_in_app, (last_in_all _ _ Hne Hall) in H by exact Hne.
  discriminate.
Qed.

Lemma array_includes_In (urls : list jsstring) (u : jsstring) :
  array_includes urls u = true <-> In u urls.
Proof.
  unfold array_includes. rewrite existsb_exists. split.
  - intros (x & Hx & E). apply jsstring_eqb_eq in E. now subst.
  - intros H. exists u. split; [exact H|apply jsstring_eqb_refl].
Qed.

(** X4.  [findYouTubeUrls] folds [addUrl] over the URLs that its three
    stages find, in their order.  When none of them ends with a character
    that trimming removes, the result has no duplicate, and holds exactly
    the non-empty URLs found. *)
Theorem findYouTubeUrls_no_duplicates (content : jsstring) :
  findYouTubeUrls content = fold_left addUrl (candidates content) [] /\
  ((forall u, In (Some u) (candidates content) -> last_in punctuation u = false) ->
   NoDup (findYouTubeUrls content) /\
   (forall u, In u (findYouTubeUrls content) <->
              u <> [] /\ In (Some u) (candidates content))).
Proof.
  split; [apply findYouTubeUrls_candidates|].
  rewrite findYouTubeUrls_candidates.
  assert (A : forall cs urls,
    (forall u, In (Some u) cs -> last_in punctuation u = false) ->
    NoDup urls -> ~ In [] urls ->
    NoDup (fold_left addUrl cs urls) /\
    (forall u, In u (fold_left addUrl cs urls) <->
               In u urls \/ u <> [] /\ In (Some u) cs)).
  { induction cs as [|c cs IH]; intros urls Hc Hn He.
    - cbn [fold_left]. split; [exact Hn|]. intros u. cbn [In]. tauto.
    - cbn [fold_left].
      assert (Hc' : forall u, In (Some u) cs -> last_in punctuation u = false).
      { intros u Hu. apply Hc. now right. }
      destruct c as [[|x t]|].
      + cbn [addUrl]. destruct (IH urls Hc' Hn He) as [N M]. split; [exact N|].
        intros u. rewrite M. cbn [In]. split; [tauto|].
        intros [H|[H1 [H2|H2]]]; [tauto| |tauto]. congruence.
      + unfold addUrl. rewrite (trim_nothing (x :: t)) by (apply Hc; now left).
        destruct (array_includes urls (x :: t)) eqn:I; cbn [negb].
        * apply array_includes_In in I.
          destruct (IH urls Hc' Hn He) as [N M]. split; [exact N|].
          intros u. rewrite M. cbn [In]. split; [tauto|].
          intros [H|[H1 [H2|H2]]]; [tauto| |tauto].
          injection H2 as <-. now left.
        * assert (NI : ~ In (x :: t) urls).
          { intros H. apply array_includes_In in H. congruence. }
          destruct (IH (urls ++ [x :: t]) Hc') as [N M].
          { apply NoDup_app; [exact Hn|repeat constructor; intros []|].
            intros y Hy [<-|[]]. contradiction. }
          { rewrite in_app_iff. intros [H|[H|[]]]; [contradiction|discriminate]. }
          split; [exact N|]. intros u. rewrite M, in_app_iff. cbn [In]. split.
          -- intros [[H|[<-|[]]]|H]; [tauto| |tauto].
             right. split; [discriminate|now left].
          -- intros [H|[H1 [H2|H2]]]; [tauto| |tauto].
             injection H2 as <-. left. right. now left.
      + cbn [addUrl]. destruct (IH urls Hc' Hn He) as [N M]. split; [exact N|].
        intros u. rewrite M. cbn [In]. split; [tauto|].
        intros [H|[H1 [H2|H2]]]; [tauto|discriminate|tauto]. }
  intros H. destruct (A (candidates content) [] H (NoDup_nil _) (fun x => x))
    as [N M].
  split; [exact N|]. intros u. rewrite M. cbn [In]. tauto.
Qed.

Lemma findYouTubeUrls_no_duplicates_witness :
  NoDup (findYouTubeUrls TWICE) /\ findYouTubeUrls TWICE = [js "https://youtu.be/abc12345678"].
Proof.
  split; [|vm_compute; reflexivity].
  refine (proj1 (proj2 (findYouTubeUrls_no_duplicates TWICE) _)).
  assert (E : candidates TWICE =
              [Some (js "https://youtu.be/abc12345678");
               Some (js "https://youtu.be/abc12345678");
               Some (js "https://youtu.be/abc12345678")])
    by (vm_compute; reflexivity).
  rewrite E. intros u [H|[H|[H|[]]]]; injection H as <-; reflexivity.
Defined.

(* ------------------------------------------------------------------ *)
(** ** [decodeXmlEntities]: plain text, double encoding, names *)

Lemma find_entity_marks (s : jsstring) :
  find_entity s <> None -> In (ch "&") s /\ In (ch ";") s.
Proof.
  destruct (find_entity s) as [[b [[[i lead] x] more]]|] eqn:E; [intros _|congruence].
  apply find_entity_inv in E. subst s. split.
  - apply in_or_app. right. apply in_or_app. left. now left.
  - apply in_or_app. right. apply in_or_app. left.
    change (js "&" ++ lead ++ x ++ js ";") with (ch "&" :: lead ++ x ++ [ch ";"]).
    right. apply in_or_app. right. apply in_or_app. right. now left.
Qed.

Lemma decode_plain (s : jsstring) :
  ~ In (ch "&") s \/ ~ In (ch ";") s -> decode s = s.
Proof.
  intros H. rewrite decode_is_steps. cbn [decode_steps].
  destruct (find_entity s) eqn:E; [|reflexivity].
  destruct (find_entity_marks s) as [A B]; [congruence|]. tauto.
Qed.

(** X5.  A text without an ampersand, and a text without a semicolon, is
    returned as it is. *)
Theorem decodeXmlEntities_plain_text (s : jsstring) :
  ~ In (ch "&") s \/ ~ In (ch ";") s -> decodeXmlEntities s = s.
Proof.
  intros H. unfold decodeXmlEntities. now rewrite (decode_plain s H), (decode_plain s H).
Qed.

Lemma decodeXmlEntities_plain_text_witness :
  decodeXmlEntities (js "Rock & roll") = js "Rock & roll".
Proof.
  apply (decodeXmlEntities_plain_text (js "Rock & roll")). right.
  cbn. intros H. repeat (destruct H as [H|H]; [discriminate H|]). exact H.
Defined.

Lemma decode_amp (pre more : jsstring) :
  ~ In (ch "&") pre -> ~ In (ch "&") more ->
  decode (pre ++ js "&amp;" ++ more) = pre ++ js "&" ++ more.
Proof.
  intros Hp Hm.
  pose proof (named_reference_decoded pre (js "amp") more
                ltac:(discriminate) eq_refl) as E.
  change (pre ++ ch "&" :: js "amp" ++ js ";" ++ more)
    with (pre ++ js "&amp;" ++ more) in E.
  rewrite E, !decode_plain by tauto. reflexivity.
Qed.

(** X6.  What the second pass is for.  Between texts without ampersand, a
    doubly encoded ampersand decodes like a plain one does in one pass; in
    particular a doubly encoded decimal reference gives the character that
    the reference names, between the two texts unchanged. *)
Theorem decodeXmlEntities_double_encoded (pre more : jsstring) :
  ~ In (ch "&") pre -> ~ In (ch "&") more ->
  decodeXmlEntities (pre ++ js "&amp;" ++ more) = decode (pre ++ js "&" ++ more) /\
  (forall ds post,
     more = js "#" ++ ds ++ js ";" ++ post ->
     ds <> [] -> forallb (in_class digit_class) ds = true ->
     decodeXmlEntities (pre ++ js "&amp;" ++ more) =
     pre ++ fromCharCode (parseInt ds 10) ++ post).
Proof.
  intros Hp Hm. unfold decodeXmlEntities. rewrite decode_amp by assumption.
  split; [reflexivity|]. intros ds post -> Hne Hall.
  pose proof (decimal_reference_decoded pre ds post Hne Hall) as E.
  unfold decimal_reference in E.
  replace (pre ++ js "&" ++ js "#" ++ ds ++ js ";" ++ post)
    with (pre ++ (js "&#" ++ ds ++ js ";") ++ post)
    by (now rewrite <- !app_assoc).
  rewrite E, !decode_plain; trivial; left; trivial.
  intros I. apply Hm. apply in_or_app. right. apply in_or_app. right.
  apply in_or_app. now right.
Qed.

Lemma decodeXmlEntities_double_encoded_witness :
  decodeXmlEntities (js "Let&amp;#39;s go") = js "Let's go".
Proof.
  assert (A : ~ In (ch "&") (js "Let")).
  { cbn. intros H. repeat (destruct H as [H|H]; [discriminate H|]). exact H. }
  assert (B : ~ In (ch "&") (js "#39;s go")).
  { cbn. intros H. repeat (destruct H as [H|H]; [discriminate H|]). exact H. }
  exact (proj2 (decodeXmlEntities_double_encoded (js "Let") (js "#39;s go") A B)
           (js "39") (js "s go") eq_refl ltac:(discriminate) eq_refl).
Defined.

(** X7.  One pass on a named reference, in any text.  Each of the six
    names of [NAMED_ENTITIES] is replaced by its character, and a name that
    is neither in the table nor a property of [Object.prototype] is left
    as it is written. *)
Theorem named_reference_table (pre post : jsstring) :
  (forall name value, In (name, value) NAMED_ENTITIES ->
     decode (pre ++ ch "&" :: name ++ js ";" ++ post) =
     decode pre ++ value ++ decode post) /\
  (forall w, w <> [] -> forallb (in_class word_class) w = true ->
     assoc w NAMED_ENTITIES = None -> assoc w Object_prototype = None ->
     decode (pre ++ ch "&" :: w ++ js ";" ++ post) =
     decode pre ++ (ch "&" :: w ++ js ";") ++ decode post).
Proof.
  split.
  - intros name value H. cbn [NAMED_ENTITIES In] in H.
    repeat (destruct H as [H|H];
      [injection H as <- <-;
       rewrite named_reference_decoded by (discriminate || reflexivity);
       reflexivity|]).
    destruct H.
  - intros w. apply unknown_name_left_verbatim.
Qed.

Lemma named_reference_table_witness :
  decode (js "a" ++ ch "&" :: js "nbsp" ++ js ";" ++ js "b") =
  decode (js "a") ++ js " " ++ decode (js "b") /\
  decode (js "a" ++ ch "&" :: js "copy" ++ js ";" ++ js "b") =
  decode (js "a") ++ (ch "&" :: js "copy" ++ js ";") ++ decode (js "b").
Proof.
  split.
  - apply (proj1 (named_reference_table (js "a") (js "b"))).
    cbn. tauto.
  - apply (proj2 (named_reference_table (js "a") (js "b")));
      [discriminate|reflexivity|reflexivity|reflexivity].
Defined.

Lemma replace_from_ext (r : regex) (f g : rmatch -> jsstring) :
  (forall mt, f mt = g mt) ->
  forall fuel p s, replace_from fuel r f p s = replace_from fuel r g p s.
Proof.
  intros H. induction fuel as [|fuel IH]; intros p s; [reflexivity|].
  cbn [replace_from]. destruct (exec_from r p s) as [mt|]; [|reflexivity].
  rewrite H. do 2 f_equal.
  destruct (whole mt); destruct (after mt); trivial; now rewrite IH.
Qed.

(** X22.  The decoder that the unit tests and the earlier retrieval define
    for themselves, whose replacer looks a name up a second time for the
    value it returns, decodes every text as [decodeXmlEntities] does. *)
Theorem decodeEntities_agrees (text : jsstring) :
  decodeEntities text = decodeXmlEntities text.
Proof.
  assert (R : forall mt, decodeEntities_replacer mt = replacer mt).
  { intros mt. unfold decodeEntities_replacer, replacer.
    destruct (capture 1 mt) as [[|c t]|]; trivial;
      destruct (capture 2 mt) as [[|c2 t2]|]; trivial;
      destruct (capture 3 mt) as [[|c3 t3]|]; trivial;
      destruct (get_entity (c3 :: t3)) as [entity|]; trivial. }
  unfold decodeEntities, decodeXmlEntities, decode, replace_all.
  now rewrite !(replace_from_ext _ _ _ R).
Qed.

(* ------------------------------------------------------------------ *)
(** ** [formatTimestamp] read back *)

Section RoundTrip.
Local Open Scope Z_scope.

Lemma digits_are_digits (fuel : nat) :
  forall n acc, Forall (fun c => (48 <= c <= 57)%N) acc ->
  Forall (fun c => (48 <= c <= 57)%N) (digits fuel n acc).
Proof.
  assert (D : forall n, (48 <= Z.to_N (48 + n mod 10) <= 57)%N).
  { intros n. pose proof (Z.mod_pos_bound n 10 eq_refl). lia. }
  induction fuel as [|fuel IH]; intros n acc H; cbn [digits].
  - constructor; [apply D|exact H].
  - destruct (n <? 10).
    + constructor; [apply D|exact H].
    + apply IH. constructor; [apply D|exact H].
Qed.

Lemma toString_no_colon (n : Z) : 0 <= n -> ~ In (ch ":") (toString n).
Proof.
  intros H. unfold toString. destruct (Z.ltb_spec n 0); [lia|].
  pose proof (digits_are_digits (Z.to_nat (Z.log2 n)) n [] (Forall_nil _)) as F.
  rewrite Forall_forall in F. intros I. apply F in I. change (ch ":") with 58%N in I.
  lia.
Qed.

Lemma two_digits_no_colon (n : Z) : 0 <= n < 100 -> ~ In (ch ":") (two_digits n).
Proof.
  intros H. unfold two_digits. change (ch ":") with 58%N.
  assert (0 <= n / 10 < 10).
  { split; [apply Z.div_pos; lia|apply Z.div_lt_upper_bound; lia]. }
  pose proof (Z.mod_pos_bound n 10 eq_refl).
  intros [E|[E|[]]]; lia.
Qed.

Lemma two_digits_value (n : Z) : 0 <= n < 100 -> decimal_value (two_digits n) = n.
Proof.
  intros H. unfold decimal_value, two_digits. cbn [fold_left].
  assert (0 <= n / 10 < 10).
  { split; [apply Z.div_pos; lia|apply Z.div_lt_upper_bound; lia]. }
  pose proof (Z.mod_pos_bound n 10 eq_refl).
  rewrite !Z2N.id by lia. pose proof (Z.div_mod n 10). lia.
Qed.

Lemma seconds_of_three (h m s : Z) :
  0 <= h -> 0 <= m < 100 -> 0 <= s < 100 ->
  seconds_of (toString h ++ js ":" ++ two_digits m ++ js ":" ++ two_digits s) =
  3600 * h + 60 * m + s.
Proof.
  intros Hh Hm Hs. unfold seconds_of.
  change (js ":" ++ two_digits m ++ js ":" ++ two_digits s)
    with (ch ":" :: two_digits m ++ ch ":" :: two_digits s).
  rewrite split_on_app_sep by now apply toString_no_colon.
  rewrite split_on_app_sep by now apply two_digits_no_colon.
  rewrite split_on_no_sep by now apply two_digits_no_colon.
  cbn [fold_left]. rewrite !two_digits_value by assumption.
  destruct (toString_plain h Hh) as [-> _]. lia.
Qed.

Lemma seconds_of_two (m s : Z) :
  0 <= m -> 0 <= s < 100 ->
  seconds_of (toString m ++ js ":" ++ two_digits s) = 60 * m + s.
Proof.
  intros Hm Hs. unfold seconds_of.
  change (js ":" ++ two_digits s) with (ch ":" :: two_digits s).
  rewrite split_on_app_sep by now apply toString_no_colon.
  rewrite split_on_no_sep by now apply two_digits_no_colon.
  cbn [fold_left]. rewrite two_digits_value by assumption.
  destruct (toString_plain m Hm) as [-> _]. lia.
Qed.

(** In exact arithmetic a timestamp determines the second it was made
    from: read as a number in base 60, its fields give back the whole
    seconds of the offset, an hour or more or less. *)
Lemma round_trip_exact (ms : Q) :
  (0 <= ms)%Q -> seconds_of (formatTimestamp ms) = Qfloor (ms / 1000).
Proof.
  intros H. destruct (whole_seconds ms H) as (T & _ & _).
  unfold formatTimestamp. set (t := Qfloor (ms / 1000)) in *.
  rewrite !Z.rem_mod_nonneg by lia.
  pose proof (Z.mod_pos_bound t 60 eq_refl) as Bs.
  pose proof (Z.mod_pos_bound t 3600 eq_refl) as Bh.
  assert (Em : t mod 3600 / 60 = t / 60 mod 60).
  { change 3600 with (60 * 60). rewrite Z.rem_mul_r by lia.
    rewrite Z.mul_comm, Z.div_add by lia.
    rewrite Z.div_small by (apply Z.mod_pos_bound; lia). reflexivity. }
  assert (Er : t mod 3600 = t mod 60 + 60 * (t / 60 mod 60)).
  { change 3600 with (60 * 60). now rewrite Z.rem_mul_r by lia. }
  pose proof (Z.mod_pos_bound (t / 60) 60 eq_refl) as Bm.
  pose proof (Z.div_mod t 3600 ltac:(lia)) as D1.
  rewrite Em, !pad2_toString by lia.
  destruct (Z.ltb_spec 0 (t / 3600)) as [P|P].
  - rewrite seconds_of_three by lia. lia.
  - rewrite seconds_of_two by lia.
    assert (0 <= t / 3600) by (apply Z.div_pos; lia). lia.
Qed.

End RoundTrip.

(* ------------------------------------------------------------------ *)
(** ** [selectTrack] on its own result *)

Lemma find_after {A : Type} (f : A -> bool) (l1 l2 : list A) (x : A) :
  (forall y, In y l1 -> f y = false) -> f x = true ->
  find f (l1 ++ x :: l2) = Some x.
Proof.
  intros H Hx. induction l1 as [|a l1 IH]; cbn [app find].
  - now rewrite Hx.
  - rewrite (H a (or_introl eq_refl)). apply IH. intros y Hy. apply H. now right.
Qed.

(** X9.  The language code of the track selected selects that track: asked
    again with the code of its result, [selectTrack] returns the same
    track, by the first rule. *)
Theorem selectTrack_stable (tracks : list CaptionTrack) (lang : jsstring)
  (t : CaptionTrack) :
  selectTrack tracks lang = inr t -> selectTrack tracks (languageCode t) = inr t.
Proof.
  intros H.
  assert (F : find (fun x => jsstring_eqb (languageCode x) (languageCode t)) tracks
              = Some t).
  { unfold selectTrack in H.
    destruct (find (fun x => jsstring_eqb (languageCode x) lang) tracks)
      as [x|] eqn:F1.
    - injection H as ->. pose proof (find_some _ _ F1) as [_ E].
      apply jsstring_eqb_eq in E. now rewrite E.
    - destruct (find (fun x => startsWith (languageCode x) _) tracks) as [x|] eqn:F2.
      + injection H as ->.
        apply find_first in F2 as (l1 & l2 & -> & Ht & Hl1).
        apply find_after; [|apply jsstring_eqb_refl].
        intros y Hy. destruct (jsstring_eqb (languageCode y) (languageCode t)) eqn:E;
          [|reflexivity].
        apply jsstring_eqb_eq in E. specialize (Hl1 y Hy). cbv beta in Hl1, Ht.
        rewrite E, Ht in Hl1. discriminate.
      + destruct tracks as [|x xs]; [discriminate|]. cbn [nth_error] in H.
        injection H as ->. cbn [find]. now rewrite jsstring_eqb_refl. }
  unfold selectTrack. now rewrite F.
Qed.

Lemma selectTrack_stable_witness :
  selectTrack SAMPLE_TRACKS (js "en-US") =
  inr {| baseUrl := None; url := None; languageCode := js "en-US" |}.
Proof.
  exact (selectTrack_stable SAMPLE_TRACKS (js "en") _ eq_refl).
Defined.

(* ------------------------------------------------------------------ *)
(** ** Retrieval *)

Section Retrieval.
Import Transcript.

Lemma star_class_total {R : Type} (cl : cclass) (k : mstate -> option R) :
  (forall st', k st' <> None) ->
  forall n st, length (rest st) <= n ->
  star_loop (fun st0 k0 => run (Set_ cl) st0 k0) true k n st =
  k {| pos := pos st + length (take_class cl (rest st));
       rest := drop_class cl (rest st); caps := caps st |}.
Proof.
  intros Hk. induction n as [|n IH]; intros [p s c] Hn; cbn [pos rest caps] in *.
  - destruct s; [|cbn in Hn; lia]. cbn. now rewrite Nat.add_0_r.
  - cbn [star_loop]. rewrite run_Set. cbn [pos rest caps].
    destruct s as [|x s].
    + cbn. now rewrite Nat.add_0_r.
    + cbn [take_class drop_class]. destruct (in_class cl x) eqn:E.
      * replace (p <? S p) with true by (symmetry; apply Nat.ltb_lt; lia).
        rewrite IH by (cbn in Hn |- *; lia). cbn [pos rest caps length].
        replace (p + S (length (take_class cl s)))
          with (S p + length (take_class cl s)) by lia.
        match goal with |- orelse ?a _ = _ => destruct a eqn:Ea; [reflexivity|] end.
        now apply Hk in Ea.
      * cbn [orelse length]. now rewrite Nat.add_0_r.
Qed.

Lemma match_here_FMT (p : nat) (s : jsstring) :
  match_here Transcript.FMT p s =
  match run_at (js "&fmt=") (ncls [CChar (ch "&")]) s with
  | Some (v, more) =>
      Some {| before := []; whole := js "&fmt=" ++ v; groups := []; after := more;
              stop := p + length (js "&fmt=" ++ v) |}
  | None => None
  end.
Proof.
  unfold match_here, Transcript.FMT, Plus, run_at.
  rewrite run_Seq, run_Str. cbn [pos rest caps].
  destruct (strip_prefix (js "&fmt=") s) as [s1|] eqn:E; [|reflexivity].
  rewrite run_Seq, run_Set. cbn [pos rest caps].
  destruct s1 as [|c t]; [reflexivity|]. cbn [take_class drop_class].
  destruct (in_class _ c) eqn:C; [|reflexivity].
  rewrite run_Star, star_class_total; cbn [pos rest caps]; trivial.
  - apply strip_prefix_inv in E. subst s.
    pose proof (take_drop_class (ncls [CChar (ch "&")]) t) as TD.
    set (v := take_class _ t) in *. set (m := drop_class _ t) in *.
    f_equal. f_equal.
    + rewrite <- TD.
      replace (S (p + length (js "&fmt=")) + length v - p)
        with (length (js "&fmt=" ++ c :: v) + 0)
        by (rewrite length_app; cbn [length]; lia).
      change (js "&fmt=" ++ c :: v ++ m) with (js "&fmt=" ++ (c :: v) ++ m).
      rewrite app_assoc, firstn_app_2. cbn [firstn]. now rewrite app_nil_r.
    + rewrite length_app. cbn [length]. lia.
  - intros. discriminate.
Qed.

Lemma includes_cons (c : N) (s p : jsstring) :
  includes (c :: s) p = false ->
  strip_prefix p (c :: s) = None /\ includes s p = false.
Proof.
  cbn [includes]. unfold startsWith. intros H. apply orb_false_iff in H as [H1 H2].
  split; [|exact H2]. now destruct (strip_prefix p (c :: s)).
Qed.

Lemma no_fmt_across (x y : jsstring) :
  x <> [] -> includes x (js "&fmt=") = false ->
  strip_prefix (js "&fmt=") (x ++ js "&fmt=" ++ y) = None.
Proof.
  intros Hne H. destruct x as [|c1 x]; [contradiction|].
  apply includes_cons in H as [H _].
  change (js "&fmt=") with [38; 102; 109; 116; 61]%N in *.
  destruct x as [|c2 [|c3 [|c4 [|c5 x]]]]; cbn [app strip_prefix] in *;
    repeat match goal with
    | |- context [N.eqb ?a ?b] => destruct (N.eqb_spec a b); try subst
    | H : context [N.eqb ?a ?b] |- _ => destruct (N.eqb_spec a b); try subst
    end; try reflexivity; try discriminate; try congruence.
Qed.

Lemma exec_FMT_none (s : jsstring) :
  includes s (js "&fmt=") = false -> forall p, exec_from Transcript.FMT p s = None.
Proof.
  induction s as [|c s IH]; intros H p.
  - cbn [exec_from]. now rewrite match_here_FMT.
  - apply includes_cons in H as [H1 H2].
    rewrite exec_from_miss by (rewrite match_here_FMT; unfold run_at; now rewrite H1).
    now rewrite IH.
Qed.

Lemma exec_FMT_skip (a y : jsstring) :
  includes a (js "&fmt=") = false ->
  forall p, exec_from Transcript.FMT p (a ++ js "&fmt=" ++ y) =
            option_map (prepend a)
              (exec_from Transcript.FMT (p + length a) (js "&fmt=" ++ y)).
Proof.
  induction a as [|c a IH]; intros H p.
  - cbn [app length prepend fold_right]. rewrite Nat.add_0_r.
    now destruct (exec_from _ p _).
  - pose proof (no_fmt_across (c :: a) y ltac:(discriminate) H) as N.
    apply includes_cons in H as [_ H2].
    change ((c :: a) ++ js "&fmt=" ++ y) with (c :: a ++ js "&fmt=" ++ y) in *.
    rewrite exec_from_miss by (rewrite match_here_FMT; unfold run_at; now rewrite N).
    rewrite (IH H2). cbn [length]. rewrite Nat.add_succ_r.
    now destruct (exec_from _ _ _).
Qed.

Lemma replace_FMT (a v more : jsstring) :
  includes a (js "&fmt=") = false ->
  v <> [] -> forallb (in_class (ncls [CChar (ch "&")])) v = true ->
  starts_in (ncls [CChar (ch "&")]) more = false ->
  replace_first Transcript.FMT [] (a ++ js "&fmt=" ++ v ++ more) = a ++ more.
Proof.
  intros Ha Hne Hv Hm. unfold replace_first, exec.
  rewrite (exec_FMT_skip a (v ++ more) Ha 0).
  assert (E : match_here Transcript.FMT (0 + length a) (js "&fmt=" ++ v ++ more) =
              Some {| before := []; whole := js "&fmt=" ++ v; groups := [];
                      after := more;
                      stop := 0 + length a + length (js "&fmt=" ++ v) |}).
  { rewrite match_here_FMT. unfold run_at. rewrite strip_prefix_app.
    destruct (take_class_app _ v more Hv Hm) as [-> ->].
    destruct v; [contradiction|reflexivity]. }
  rewrite (exec_from_hit _ _ _ _ E). cbn [option_map].
  match goal with |- context [prepend a ?m] =>
    destruct (prepend_fields a m) as (-> & _ & _ & -> & _) end.
  cbn [before after app]. now rewrite app_nil_r.
Qed.

Lemma keep_without_FMT (u : jsstring) :
  includes u (js "&fmt=") = false -> replace_first Transcript.FMT [] u = u.
Proof.
  intros H. unfold replace_first, exec. now rewrite exec_FMT_none.
Qed.

Lemma await_inv {A B : Type} (m : Async A) (f : A -> Async B)
  (log log' : list RequestUrlParam) (b : B) :
  await m f log = (log', Returns b) ->
  exists a log1, m log = (log1, Returns a) /\ f a log1 = (log', Returns b).
Proof.
  unfold await. destruct (m log) as [log1 [a|e|]]; try discriminate.
  intros H. now exists a, log1.
Qed.

Lemma requestUrl_inv (net : Network) (param : RequestUrlParam)
  (log log' : list RequestUrlParam) (response : RequestUrlResponse) :
  requestUrl net param log = (log', Returns response) ->
  log' = log ++ [param] /\ net log param = Returns response.
Proof. unfold requestUrl. now intros [= <- ->]. Qed.

Lemma not_in_class (c : N) (s : jsstring) :
  forallb (in_class (ncls [CChar c])) s = true <-> ~ In c s.
Proof.
  induction s as [|x s IH]; [now split|]. cbn [forallb In].
  rewrite andb_true_iff, IH. unfold in_class, ncls.
  cbn [negated items existsb in_item xorb]. rewrite orb_false_r.
  destruct (N.eqb_spec x c) as [->|N]; cbn [negb]; split.
  - intros [? _]; discriminate.
  - intros H; exfalso; apply H; now left.
  - intros [_ H] [E|I]; [congruence|contradiction].
  - intros H; split; [reflexivity|]. intros I; apply H; now right.
Qed.

Lemma not_in_class2 (c d : N) (s : jsstring) :
  forallb (in_class (ncls [CChar c; CChar d])) s = true <-> ~ In c s /\ ~ In d s.
Proof.
  induction s as [|x s IH]; [now split|]. cbn [forallb In].
  rewrite andb_true_iff, IH. unfold in_class, ncls.
  cbn [negated items existsb in_item xorb]. rewrite orb_false_r.
  destruct (N.eqb_spec x c) as [->|N1]; cbn [orb negb].
  - split; [intros [? _]; discriminate|].
    intros [H _]; exfalso; apply H; now left.
  - destruct (N.eqb_spec x d) as [->|N2]; cbn [negb].
    + split; [intros [? _]; discriminate|].
      intros [_ H]; exfalso; apply H; now left.
    + split.
      * intros [_ [I1 I2]]. split; intros [E|I]; congruence || contradiction.
      * intros [I1 I2]. split; [reflexivity|].
        split; intros I; [apply I1|apply I2]; now right.
Qed.

Lemma delimited_shape (open close : jsstring) (cl : cclass) (w : jsstring)
  (cs : list (nat * jsstring)) :
  derives (Str open >> Group 1 (Plus (Set_ cl)) >> Str close) w cs ->
  exists key, w = open ++ key ++ close /\ cs = [(1, key)] /\ key <> [] /\
              forallb (in_class cl) key = true.
Proof.
  intros H. invert_derives. eexists. now repeat split.
Qed.

(** X10.  The key that [extractApiKey] returns is not empty, holds no
    double quote, and stands in the watch page behind
    [QINNERTUBE_API_KEYQ:Q] and before a double quote (Q), or, free of
    backslashes, between the same delimiters with a backslash before each
    double quote.  It is returned after one request, for the watch page of
    the video, and only when the page does not show the captcha. *)
Theorem extractApiKey_key (net : Network) (videoId lang : jsstring)
  (log log' : list RequestUrlParam) (key : jsstring) :
  extractApiKey net videoId lang log = (log', Returns key) ->
  log' = log ++ [watch_page videoId lang] /\
  exists response,
    net log (watch_page videoId lang) = Returns response /\
    includes (response_text response) RECAPTCHA = false /\
    key <> [] /\ ~ In DQUOTE key /\
    (delimited KEY_OPEN key [DQUOTE] (response_text response) \/
     ~ In BACKSLASH key /\
     delimited ESCAPED_KEY_OPEN key [BACKSLASH; DQUOTE] (response_text response)).
Proof.
  unfold extractApiKey. intros H.
  apply await_inv in H as (response & log1 & Hr & H).
  apply requestUrl_inv in Hr as [-> Hn].
  destruct (includes (response_text response) RECAPTCHA) eqn:Hc; [discriminate|].
  destruct (exec API_KEY (response_text response)) as [mt|] eqn:E1.
  - destruct (exec_derives _ _ _ E1) as [D W]. unfold capture in H.
    apply delimited_shape in D as (k & Hw & Hg & Hne & Hall).
    rewrite Hg in H. cbn [group_of Nat.eqb] in H.
    destruct k as [|c t]; [contradiction|]. injection H as <- <-.
    split; [reflexivity|]. exists response.
    split; [exact Hn|]. split; [exact Hc|]. split; [exact Hne|].
    split; [now apply not_in_class|]. left. unfold delimited. now rewrite <- Hw.
  - destruct (exec ESCAPED_API_KEY (response_text response)) as [mt|] eqn:E2;
      [|discriminate].
    destruct (exec_derives _ _ _ E2) as [D W]. unfold capture in H.
    apply delimited_shape in D as (k & Hw & Hg & Hne & Hall).
    rewrite Hg in H. cbn [group_of Nat.eqb] in H.
    destruct k as [|c t]; [contradiction|]. injection H as <- <-.
    apply not_in_class2 in Hall as [I1 I2].
    split; [reflexivity|]. exists response.
    split; [exact Hn|]. split; [exact Hc|]. split; [exact Hne|].
    split; [exact I2|]. right. split; [exact I1|].
    unfold delimited. now rewrite <- Hw.
Qed.

Lemma extractApiKey_key_witness :
  delimited KEY_OPEN (js "AIzaSy-sample_key") [DQUOTE] SAMPLE_PAGE \/
  ~ In BACKSLASH (js "AIzaSy-sample_key") /\
  delimited ESCAPED_KEY_OPEN (js "AIzaSy-sample_key") [BACKSLASH; DQUOTE] SAMPLE_PAGE.
Proof.
  destruct (extractApiKey_key SAMPLE_NETWORK SAMPLE_ID (js "en") []
              [watch_page SAMPLE_ID (js "en")] (js "AIzaSy-sample_key") eq_refl)
    as (_ & response & E & _ & _ & _ & D).
  injection E as <-. exact D.
Defined.

Lemma match_here_delimited (open lit : jsstring) (c : N) (cl : cclass) (p : nat)
  (key more : jsstring) :
  in_class cl c = false -> key <> [] -> forallb (in_class cl) key = true ->
  match_here (Str open >> Group 1 (Plus (Set_ cl)) >> Str (c :: lit)) p
             (open ++ key ++ (c :: lit) ++ more) <> None.
Proof.
  intros Hc Hne Hall. unfold match_here.
  rewrite run_Seq, run_Str. cbn [pos rest caps]. rewrite strip_prefix_app.
  rewrite run_Seq, run_group_plus_class
    by (intros st'; apply run_Str_stuck_last; exact Hc).
  cbn [pos rest caps].
  destruct (take_class_app cl key ((c :: lit) ++ more) Hall) as [-> ->];
    [exact Hc|].
  destruct key as [|x key]; [contradiction|].
  rewrite run_Str. cbn [pos rest caps]. rewrite strip_prefix_app. discriminate.
Qed.

Lemma exec_from_found (r : regex) (a s : jsstring) :
  forall p, match_here r (p + length a) s <> None -> exec_from r p (a ++ s) <> None.
Proof.
  induction a as [|c a IH]; intros p H.
  - cbn [app length] in *. rewrite Nat.add_0_r in H.
    destruct (match_here r p s) as [mt|] eqn:E; [|contradiction].
    now rewrite (exec_from_hit _ _ _ _ E).
  - cbn [app]. destruct (match_here r p (c :: a ++ s)) as [mt|] eqn:E.
    + now rewrite (exec_from_hit _ _ _ _ E).
    + rewrite (exec_from_miss _ _ _ _ E).
      cbn [length] in H. rewrite Nat.add_succ_r in H.
      specialize (IH (S p) H). now destruct (exec_from r (S p) (a ++ s)).
Qed.

(** X11.  [extractApiKey] finds a key whenever there is one to find: when
    the watch page is returned, does not show the captcha, and holds a
    key, not empty and free of double quotes, between the delimiters of
    one of the two forms, a key is returned. *)
Theorem extractApiKey_finds (net : Network) (videoId lang : jsstring)
  (log : list RequestUrlParam) (response : RequestUrlResponse) (k : jsstring) :
  net log (watch_page videoId lang) = Returns response ->
  includes (response_text response) RECAPTCHA = false ->
  k <> [] -> ~ In DQUOTE k ->
  delimited KEY_OPEN k [DQUOTE] (response_text response) \/
  ~ In BACKSLASH k /\
  delimited ESCAPED_KEY_OPEN k [BACKSLASH; DQUOTE] (response_text response) ->
  exists key, extractApiKey net videoId lang log =
              (log ++ [watch_page videoId lang], Returns key).
Proof.
  intros Hn Hc Hne Hq Hd.
  unfold extractApiKey, await, requestUrl. rewrite Hn, Hc.
  assert (E : exec API_KEY (response_text response) <> None \/
              exec ESCAPED_API_KEY (response_text response) <> None).
  { destruct Hd as [(a & b & Hw)|[Hb (a & b & Hw)]]; [left|right];
      rewrite Hw, <- !app_assoc; apply exec_from_found;
      apply match_here_delimited; trivial; try reflexivity.
    - now apply not_in_class.
    - now apply not_in_class2. }
  assert (F : forall open close cl mt,
    derives (Str open >> Group 1 (Plus (Set_ cl)) >> Str close)
            (whole mt) (groups mt) ->
    exists key, match capture 1 mt with
                | Some (c :: t) => resolve (c :: t)
                | _ => throw NO_API_KEY
                end (log ++ [watch_page videoId lang]) =
                (log ++ [watch_page videoId lang], Returns key)).
  { intros open close cl mt D.
    apply delimited_shape in D as (key & _ & Hg & Hk & _).
    unfold capture. rewrite Hg. cbn [group_of Nat.eqb].
    destruct key; [contradiction|]. eexists. reflexivity. }
  destruct (exec API_KEY (response_text response)) as [mt|] eqn:E1.
  - destruct (exec_derives _ _ _ E1) as [D _]. exact (F _ _ _ _ D).
  - destruct E as [E|E]; [contradiction|].
    destruct (exec ESCAPED_API_KEY (response_text response)) as [mt|] eqn:E2;
      [|contradiction].
    destruct (exec_derives _ _ _ E2) as [D _]. exact (F _ _ _ _ D).
Qed.

Lemma extractApiKey_finds_witness :
  exists key, extractApiKey SAMPLE_NETWORK SAMPLE_ID (js "en") [] =
              ([] ++ [watch_page SAMPLE_ID (js "en")], Returns key).
Proof.
  apply (extractApiKey_finds SAMPLE_NETWORK SAMPLE_ID (js "en") []
           {| response_status := 200; response_text := SAMPLE_PAGE;
              response_json := NO_JSON |} (js "AIzaSy-sample_key")).
  - reflexivity.
  - reflexivity.
  - discriminate.
  - cbn. intros H. repeat (destruct H as [H|H]; [discriminate H|]). exact H.
  - left. exists (js "<script>ytcfg.set({"), (js "});</script>"). reflexivity.
Defined.

Lemma fetchCaptionTracks_inv (net : Network) (videoId apiKey : jsstring)
  (log log' : list RequestUrlParam) (tracks : list CaptionTrack) :
  fetchCaptionTracks net videoId apiKey log = (log', Returns tracks) ->
  log' = log ++ [player_request videoId apiKey] /\
  exists response,
    net log (player_request videoId apiKey) = Returns response /\
    response_status response = 200%Z /\
    listed (response_json response) tracks.
Proof.
  unfold fetchCaptionTracks, await, requestUrl, listed.
  destruct (net log _) as [response| |] eqn:En; try discriminate.
  destruct (Z.eqb_spec (response_status response) 200) as [S|S];
    cbn [negb]; [|discriminate].
  destruct (captions (response_json response)) as [c|] eqn:Ecap; [|discriminate].
  destruct (captions_playerCaptionsTracklistRenderer c) as [tl|] eqn:Ec.
  - destruct (captionTracks tl) as [[|t ts]|] eqn:Et; try discriminate.
    intros [= <- <-]. split; [reflexivity|]. exists response.
    split; [reflexivity|]. split; [exact S|]. exists c, tl.
    split; [exact Ecap|]. split; [now left|]. split; [exact Et|discriminate].
  - destruct (playerCaptionsTracklistRenderer (response_json response))
      as [tl|] eqn:Ep; [|discriminate].
    destruct (captionTracks tl) as [[|t ts]|] eqn:Et; try discriminate.
    intros [= <- <-]. split; [reflexivity|]. exists response.
    split; [reflexivity|]. split; [exact S|]. exists c, tl.
    split; [exact Ecap|]. split; [now right|]. split; [exact Et|discriminate].
Qed.

(** X12.  [fetchCaptionTracks] returns tracks exactly when the player
    answers with status 200 and its response lists them: it has a
    [captions] member, the track list is the one inside [captions] or,
    when there is none inside, the one beside it, and the list is not
    empty.  The tracks returned are those listed, so never none; a track
    list beside a missing [captions] member is not used. *)
Theorem fetchCaptionTracks_returns (net : Network) (videoId apiKey : jsstring)
  (log log' : list RequestUrlParam) (tracks : list CaptionTrack) :
  fetchCaptionTracks net videoId apiKey log = (log', Returns tracks) <->
  log' = log ++ [player_request videoId apiKey] /\
  exists response,
    net log (player_request videoId apiKey) = Returns response /\
    response_status response = 200%Z /\
    listed (response_json response) tracks.
Proof.
  split; [apply fetchCaptionTracks_inv|].
  unfold fetchCaptionTracks, await, requestUrl, listed.
  intros (-> & response & -> & S & c & tl & -> & Hr & Et & Hne).
  rewrite S. cbn [Z.eqb Pos.eqb negb].
  destruct tracks as [|t ts]; [contradiction|].
  destruct Hr as [->|[-> ->]]; now rewrite Et.
Qed.

Lemma fetchTranscriptXml_source (net : Network) (track : CaptionTrack)
  (lang : jsstring) (u : jsstring) :
  transcript_source track u ->
  fetchTranscriptXml net track lang =
  (let* response :=
     requestUrl net (transcript_request (replace_first FMT [] u) lang) in
   if (response_status response =? 429)%Z then throw RATE_LIMITED
   else
     if negb (response_status response =? 200)%Z ||
        match response_text response with [] => true | _ :: _ => false end
     then throw NO_TRANSCRIPT
     else resolve (response_text response)).
Proof.
  unfold transcript_source, fetchTranscriptXml.
  destruct u as [|c t]; [now intros [? _]|].
  intros [_ [->|[[->| ->] ->]]]; reflexivity.
Qed.

Lemma fetchTranscriptXml_no_source (net : Network) (track : CaptionTrack)
  (lang : jsstring) :
  (forall u, ~ transcript_source track u) ->
  fetchTranscriptXml net track lang = throw NO_TRANSCRIPT_URL.
Proof.
  unfold transcript_source, fetchTranscriptXml. intros H.
  destruct (baseUrl track) as [[|c t]|] eqn:B.
  - destruct (url track) as [[|c t]|] eqn:U; trivial.
    exfalso. apply (H (c :: t)). split; [discriminate|]. right. now split; [right|].
  - exfalso. apply (H (c :: t)). split; [discriminate|now left].
  - destruct (url track) as [[|c t]|] eqn:U; trivial.
    exfalso. apply (H (c :: t)). split; [discriminate|]. right. now split; [left|].
Qed.

(** X13.  The URL that [fetchTranscriptXml] requests.  With [u] the URL of
    the track, its [baseUrl] or, when that is missing or empty, its [url]:
    a [u] that nowhere holds [&fmt=] is requested as it is; in a [u] whose
    first [&fmt=] is followed by a value, the value running up to the next
    ampersand or to the end, that parameter is cut out and the rest is
    requested.  A [fmt] parameter that comes first in the query, behind the
    question mark, is thus left in.  A track without URL throws, and
    nothing is requested. *)
Theorem fetchTranscriptXml_url (net : Network) (track : CaptionTrack)
  (lang : jsstring) (log : list RequestUrlParam) :
  (forall u, transcript_source track u ->
     (includes u (js "&fmt=") = false ->
      fst (fetchTranscriptXml net track lang log) =
      log ++ [transcript_request u lang]) /\
     (forall a v more,
        u = a ++ js "&fmt=" ++ v ++ more ->
        includes a (js "&fmt=") = false -> v <> [] -> ~ In (ch "&") v ->
        more = [] \/ hd_error more = Some (ch "&") ->
        fst (fetchTranscriptXml net track lang log) =
        log ++ [transcript_request (a ++ more) lang])) /\
  ((forall u, ~ transcript_source track u) ->
   fetchTranscriptXml net track lang log = (log, ThrowsError NO_TRANSCRIPT_URL)).
Proof.
  assert (L : forall u, transcript_source track u ->
    fst (fetchTranscriptXml net track lang log) =
    log ++ [transcript_request (replace_first FMT [] u) lang]).
  { intros u Hu. rewrite (fetchTranscriptXml_source _ _ _ _ Hu).
    unfold await, requestUrl. destruct (net log _) as [r| |]; trivial.
    destruct (_ =? 429)%Z; trivial. now destruct (_ || _). }
  split.
  - intros u Hu. split.
    + intros H. now rewrite (L u Hu), keep_without_FMT.
    + intros a v more -> Ha Hv Hamp Hm. rewrite (L _ Hu), replace_FMT; trivial.
      * now apply not_in_class.
      * destruct Hm as [->|Hm]; [reflexivity|].
        destruct more as [|c m]; [discriminate|]. now injection Hm as ->.
  - intros H. now rewrite fetchTranscriptXml_no_source.
Qed.

Lemma fetchTranscriptXml_url_witness :
  fst (fetchTranscriptXml SAMPLE_NETWORK SAMPLE_TRACK (js "en") []) =
  [] ++ [transcript_request
           (js "https://www.youtube.com/api/timedtext?v=dQw4w9WgXcQ" ++ js "&lang=en")
           (js "en")].
Proof.
  refine (proj2 (proj1 (fetchTranscriptXml_url SAMPLE_NETWORK SAMPLE_TRACK (js "en") [])
                   _ _)
            (js "https://www.youtube.com/api/timedtext?v=dQw4w9WgXcQ") (js "srv3")
            (js "&lang=en") eq_refl eq_refl _ _ _).
  - split; [discriminate|now left].
  - discriminate.
  - cbn. intros H. repeat (destruct H as [H|H]; [discriminate H|]). exact H.
  - now right.
Defined.

Lemma parse_entries (xml l : jsstring) (entries : list (TranscriptEntry float_expr)) :
  parseTranscriptXml xml l = inr entries ->
  entries <> [] /\ Forall (fun e => lang e = Some l) entries.
Proof.
  unfold parseTranscriptXml.
  assert (A : Forall (fun e : TranscriptEntry float_expr => lang e = Some l)
                (flat_map (entry_of l) (matchAll RE_XML_TRANSCRIPT xml))).
  { induction (matchAll RE_XML_TRANSCRIPT xml) as [|mt ms IH]; [constructor|].
    cbn [flat_map]. apply Forall_app. split; [|exact IH].
    unfold entry_of.
    destruct (capture 1 mt) as [[|s start]|]; try constructor.
    destruct (capture 2 mt) as [[|d dur]|]; try constructor.
    destruct (capture 3 mt); constructor; [reflexivity|constructor]. }
  destruct (flat_map _ _) as [|e es]; [discriminate|].
  intros [= <-]. split; [discriminate|exact A].
Qed.


Lemma extractApiKey_log (net : Network) (videoId l : jsstring)
  (log : list RequestUrlParam) :
  fst (extractApiKey net videoId l log) = log ++ [watch_page videoId l].
Proof.
  unfold extractApiKey, await, requestUrl.
  destruct (net log _) as [r| |]; trivial.
  destruct (includes _ _); trivial.
  destruct (exec API_KEY _) as [mt|].
  - now destruct (capture 1 mt) as [[|c t]|].
  - destruct (exec ESCAPED_API_KEY _) as [mt|]; trivial.
    now destruct (capture 1 mt) as [[|c t]|].
Qed.




Lemma await_expected {A B : Type} (good : B -> Prop) (m : Async A)
  (f : A -> Async B) (log : list RequestUrlParam) :
  expected (fun _ => True) (snd (m log)) ->
  (forall a log1, m log = (log1, Returns a) -> expected good (snd (f a log1))) ->
  expected good (snd (await m f log)).
Proof.
  unfold await. destruct (m log) as [log1 [a|e|]]; cbn [snd expected]; auto.
Qed.

Lemma throw_expected {A : Type} (good : A -> Prop) (message : jsstring)
  (log : list RequestUrlParam) :
  In message MESSAGES -> expected good (snd (@throw A message log)).
Proof. now intros H. Qed.

Ltac listed_message := apply throw_expected; cbn; tauto.

Lemma requestUrl_expected (net : Network) (param : RequestUrlParam)
  (log : list RequestUrlParam) :
  answers net -> expected (fun _ => True) (snd (requestUrl net param log)).
Proof.
  intros H. unfold requestUrl. cbn [snd]. now destruct (H log param) as [r ->].
Qed.

Lemma extractApiKey_expected (net : Network) (videoId l : jsstring)
  (log : list RequestUrlParam) :
  answers net -> expected (fun _ => True) (snd (extractApiKey net videoId l log)).
Proof.
  intros H. unfold extractApiKey.
  apply await_expected; [now apply requestUrl_expected|]. intros r log1 _.
  destruct (includes _ _); [listed_message|].
  destruct (exec API_KEY _) as [mt|].
  - destruct (capture 1 mt) as [[|c t]|]; [listed_message|exact I|listed_message].
  - destruct (exec ESCAPED_API_KEY _) as [mt|]; [|listed_message].
    destruct (capture 1 mt) as [[|c t]|]; [listed_message|exact I|listed_message].
Qed.

Lemma fetchCaptionTracks_expected (net : Network) (videoId apiKey : jsstring)
  (log : list RequestUrlParam) :
  answers net ->
  expected (fun _ => True) (snd (fetchCaptionTracks net videoId apiKey log)).
Proof.
  intros H. unfold fetchCaptionTracks.
  apply await_expected; [now apply requestUrl_expected|]. intros r log1 _.
  destruct (negb _); [listed_message|].
  destruct (captions (response_json r)) as [c|].
  - destruct (match captions_playerCaptionsTracklistRenderer c with
              | Some t => Some t
              | None => playerCaptionsTracklistRenderer (response_json r)
              end) as [tl|].
    + destruct (captionTracks tl) as [[|t ts]|];
        [listed_message|exact I|listed_message].
    + match goal with |- context [if ?b then _ else _] => destruct b end;
        listed_message.
  - match goal with |- context [if ?b then _ else _] => destruct b end;
      listed_message.
Qed.

Lemma fetchTranscriptXml_expected (net : Network) (track : CaptionTrack)
  (l : jsstring) (log : list RequestUrlParam) :
  answers net -> expected (fun _ => True) (snd (fetchTranscriptXml net track l log)).
Proof.
  intros H. unfold fetchTranscriptXml.
  destruct (match baseUrl track with Some (c :: t) => Some (c :: t) | _ => url track end)
    as [[|c t]|]; [listed_message| |listed_message].
  apply await_expected; [now apply requestUrl_expected|]. intros r log1 _.
  destruct (_ =? 429)%Z; [listed_message|].
  destruct (_ || _); [listed_message|exact I].
Qed.

(** X15.  On a network that answers every request, and with a player
    response of the shape that the source casts it to (every track has its
    [languageCode]), [fetchTranscript] returns at least one entry or throws
    an [Error] with one of ten messages, those of its own [throw]
    statements and of the parser.  The message of [selectTrack] is not
    among them: the tracks it is given are never none, so that it does not
    throw. *)
Theorem fetchTranscript_failures (net : Network) (videoId : jsstring)
  (requested : option jsstring) :
  answers net ->
  match snd (fetchTranscript net videoId requested []) with
  | Returns entries => entries <> []
  | ThrowsError message => In message MESSAGES /\ message <> NO_TRACK
  | ThrowsOther => False
  end.
Proof.
  intros H.
  assert (E : expected (fun entries : list (TranscriptEntry float_expr) => entries <> [])
                (snd (fetchTranscript net videoId requested []))).
  { unfold fetchTranscript.
    apply await_expected; [now apply extractApiKey_expected|]. intros apiKey log1 _.
    apply await_expected; [now apply fetchCaptionTracks_expected|].
    intros tracks log2 H2.
    assert (Hne : tracks <> []).
    { apply fetchCaptionTracks_inv in H2 as (_ & r & _ & _ & c & tl & _ & _ & _ & N).
      exact N. }
    apply await_expected.
    { unfold selectTrack.
      destruct (find _ tracks); [exact I|]. destruct (find _ tracks); [exact I|].
      destruct tracks; [contradiction|exact I]. }
    intros track log3 _.
    apply await_expected; [now apply fetchTranscriptXml_expected|].
    intros xml log4 _.
    destruct (parseTranscriptXml xml (languageCode track)) as [m|es] eqn:P.
    - unfold parseTranscriptXml in P. destruct (flat_map _ _); [|discriminate].
      injection P as <-. listed_message.
    - now destruct (parse_entries _ _ _ P). }
  destruct (snd (fetchTranscript net videoId requested [])) as [es|m|]; cbn [expected] in E;
    [exact E| |exact E].
  split; [exact E|]. intros ->. cbn in E.
  repeat (destruct E as [E|E]; [discriminate E|]). exact E.
Qed.

Lemma SAMPLE_NETWORK_answers : answers SAMPLE_NETWORK.
Proof.
  intros log param. unfold SAMPLE_NETWORK.
  destruct log as [|r [|r' log]]; eexists; reflexivity.
Qed.

Lemma fetchTranscript_failures_witness :
  exists entries,
    snd (fetchTranscript SAMPLE_NETWORK SAMPLE_ID None []) = Returns entries /\
    entries <> [].
Proof.
  pose proof (fetchTranscript_failures SAMPLE_NETWORK SAMPLE_ID None
                SAMPLE_NETWORK_answers) as H.
  destruct (snd (fetchTranscript SAMPLE_NETWORK SAMPLE_ID None []))
    as [entries|message|] eqn:E.
  - exists entries. split; [reflexivity|exact H].
  - vm_compute in E. discriminate E.
  - destruct H.
Defined.

Lemma fetchCaptionTracks_log (net : Network) (videoId apiKey : jsstring)
  (log : list RequestUrlParam) :
  fst (fetchCaptionTracks net videoId apiKey log) =
  log ++ [player_request videoId apiKey].
Proof.
  unfold fetchCaptionTracks, await, requestUrl.
  destruct (net log _) as [r| |]; trivial.
  destruct (negb _); trivial.
  destruct (captions (response_json r)) as [c|]; trivial.
  destruct (match captions_playerCaptionsTracklistRenderer c with
            | Some t => Some t
            | None => playerCaptionsTracklistRenderer (response_json r)
            end) as [tl|]; trivial.
  now destruct (captionTracks tl) as [[|t ts]|].
Qed.

Lemma fetchTranscriptXml_log (net : Network) (track : CaptionTrack)
  (l : jsstring) (log : list RequestUrlParam) :
  fst (fetchTranscriptXml net track l log) = log \/
  exists u, fst (fetchTranscriptXml net track l log) =
            log ++ [transcript_request u l].
Proof.
  unfold fetchTranscriptXml.
  destruct (match baseUrl track with Some (c :: t) => Some (c :: t) | _ => url track end)
    as [[|c t]|]; [now left| |now left].
  right. exists (replace_first FMT [] (c :: t)). unfold await, requestUrl.
  destruct (net log _) as [r| |]; trivial.
  destruct (_ =? 429)%Z; trivial. now destruct (_ || _).
Qed.

(** X16.  However it ends, [fetchTranscript] makes one, two or three
    requests, in this order: the watch page of the video, the player with
    a key, a transcript.  Each of them carries the user agent of the
    plugin, and the first two go to [www.youtube.com]. *)
Theorem fetchTranscript_requests (net : Network) (videoId : jsstring)
  (requested : option jsstring) :
  let l := language_argument requested in
  let log := fst (fetchTranscript net videoId requested []) in
  (exists apiKey u,
     log = [watch_page videoId l] \/
     log = [watch_page videoId l; player_request videoId apiKey] \/
     log = [watch_page videoId l; player_request videoId apiKey;
            transcript_request u l]) /\
  Forall (fun r => In (js "User-Agent", USER_AGENT) (headers r)) log /\
  Forall (fun r => startsWith (request_url r) (js "https://www.youtube.com/") = true)
         (firstn 2 log).
Proof.
  intros l log.
  assert (E : exists apiKey u,
     log = [watch_page videoId l] \/
     log = [watch_page videoId l; player_request videoId apiKey] \/
     log = [watch_page videoId l; player_request videoId apiKey;
            transcript_request u l]).
  { subst log. unfold fetchTranscript. fold (language_argument requested).
    fold l. unfold await.
    pose proof (extractApiKey_log net videoId l []) as L1.
    destruct (extractApiKey net videoId l []) as [log1 [apiKey|e|]];
      cbn [fst app] in L1; subst log1; try (exists [], []; now left).
    exists apiKey.
    pose proof (fetchCaptionTracks_log net videoId apiKey [watch_page videoId l]) as L2.
    destruct (fetchCaptionTracks net videoId apiKey [watch_page videoId l])
      as [log2 [tracks|e|]];
      cbn [fst app] in L2; subst log2; try (exists []; right; now left).
    destruct (selectTrack tracks l) as [m|track]; cbn [call throw resolve];
      [exists []; right; now left|].
    pose proof (fetchTranscriptXml_log net track l
                  [watch_page videoId l; player_request videoId apiKey]) as L3.
    destruct (fetchTranscriptXml net track l
                [watch_page videoId l; player_request videoId apiKey])
      as [log3 [xml|e|]]; cbn [fst app] in L3 |- *.
    - destruct (parseTranscriptXml xml (languageCode track));
        cbn [call throw resolve fst];
        (destruct L3 as [->|[u ->]]; [exists []|exists u]; tauto).
    - destruct L3 as [->|[u ->]]; [exists []|exists u]; tauto.
    - destruct L3 as [->|[u ->]]; [exists []|exists u]; tauto. }
  split; [exact E|].
  assert (W : In (js "User-Agent", USER_AGENT) (headers (watch_page videoId l)))
    by now left.
  assert (P : forall apiKey,
            In (js "User-Agent", USER_AGENT) (headers (player_request videoId apiKey)))
    by (intros; right; now left).
  assert (T : forall u, In (js "User-Agent", USER_AGENT) (headers (transcript_request u l)))
    by (intros; now left).
  destruct E as (apiKey & u & [->|[->| ->]]); cbn [firstn]; split;
    repeat (apply Forall_cons; [first [exact W|apply P|apply T|reflexivity]|]);
    apply Forall_nil.
Qed.

Lemma quote_chars_plain (s : jsstring) :
  forallb (in_class id_class) s = true -> quote_chars s = s.
Proof.
  induction s as [|c s IH]; [reflexivity|]. cbn [forallb].
  intros H. apply andb_true_iff in H as [Hc Hs].
  cbn [quote_chars]. rewrite (IH Hs).
  unfold in_class, id_class, cls in Hc.
  cbn [negated items existsb in_item xorb] in Hc. unfold between in Hc.
  unfold DQUOTE, BACKSLASH, is_leading_surrogate, is_trailing_surrogate, between.
  repeat match goal with
  | |- context [N.eqb c ?n] => destruct (N.eqb_spec c n) as [->|]; [discriminate Hc|]
  end.
  destruct (N.ltb_spec c 32).
  { exfalso. revert Hc. rewrite !orb_false_r, !orb_true_iff, !andb_true_iff,
      !N.leb_le, !N.eqb_eq. lia. }
  destruct (N.leb_spec 55296 c); cbn [andb].
  { exfalso. revert Hc. rewrite !orb_false_r, !orb_true_iff, !andb_true_iff,
      !N.leb_le, !N.eqb_eq. lia. }
  destruct (N.leb_spec 56320 c); cbn [andb]; [lia|reflexivity].
Qed.

(** X17.  An identifier made of the characters of an identifier is sent to
    the player as it is: the body of the request is the JSON text of the
    source with the identifier between double quotes, nothing escaped,
    and the key ends the URL. *)
Theorem player_request_of_identifier (videoId apiKey : jsstring) :
  forallb (in_class id_class) videoId = true ->
  body (player_request videoId apiKey) =
    Some (BODY_HEAD ++ in_quotes videoId ++ js "}") /\
  request_url (player_request videoId apiKey) =
    js "https://www.youtube.com/youtubei/v1/player?key=" ++ apiKey.
Proof.
  intros H. split; [|reflexivity].
  unfold player_request, player_body, member, QuoteJSONString. cbn [body].
  rewrite (quote_chars_plain videoId H). reflexivity.
Qed.

Lemma player_request_of_identifier_witness :
  body (player_request SAMPLE_ID SAMPLE_KEY) =
  Some (BODY_HEAD ++ in_quotes SAMPLE_ID ++ js "}").
Proof.
  exact (proj1 (player_request_of_identifier SAMPLE_ID SAMPLE_KEY eq_refl)).
Defined.

End Retrieval.

(* ------------------------------------------------------------------ *)
(** ** The command, run again *)

(** X18.  The command does not add a second transcript.  Once a run has
    stored a text, a run on that text, with the same settings and whatever
    the host does, stores nothing and shows the one notice that the note
    already has a transcript section. *)
Theorem second_run_is_refused (host host' : Host)
  (settings : YouTubeTranscriptSettings) (content d : jsstring) :
  active_file host = Some content ->
  written (fetchTranscriptForCurrentNote host settings) = Some d ->
  active_file host' = Some d ->
  fetchTranscriptForCurrentNote host' settings =
  stop_with [js "This note already has a transcript section"].
Proof.
  intros Hc Hw Hd.
  destruct (written_only_on_success _ _ _ _ Hc Hw)
    as (_ & firstUrl & videoId & transcript & _ & _ & _ & _ & -> & _).
  unfold fetchTranscriptForCurrentNote. rewrite Hd.
  assert (E : hasTranscriptSection
                (content ++ [LF] ++ formatTranscript transcript (options_of settings))
                (setting_sectionHeading settings) = true).
  { unfold hasTranscriptSection, formatTranscript, options_of.
    cbn [includeTimestamps sectionHeading].
    apply includes_iff. exists (content ++ [LF] ++ [LF]).
    destruct (setting_includeTimestamps settings); eexists;
      rewrite <- !app_assoc; reflexivity. }
  now rewrite E.
Qed.

Lemma second_run_is_refused_witness :
  exists d,
    written (fetchTranscriptForCurrentNote SCENARIO_HOST DEFAULT_SETTINGS) = Some d /\
    fetchTranscriptForCurrentNote
      {| active_file := Some d;
         fetchTranscript := fun _ _ => Returns SCENARIO;
         vault_modify := fun _ => Returns tt |} DEFAULT_SETTINGS =
    stop_with [js "This note already has a transcript section"].
Proof.
  eexists. split; [vm_compute; reflexivity|].
  eapply (second_run_is_refused SCENARIO_HOST _ DEFAULT_SETTINGS SCENARIO_NOTE);
    [reflexivity|vm_compute; reflexivity|reflexivity].
Defined.

Lemma includes_nil (s : jsstring) : includes s [] = true.
Proof. destruct s; reflexivity. Qed.

(** X19.  With an empty section heading the command refuses every note:
    every text contains the empty string, so that each run ends with the
    notice that the note already has a transcript section, and nothing is
    retrieved or stored. *)
Theorem empty_heading_refuses_every_note (host : Host)
  (settings : YouTubeTranscriptSettings) (content : jsstring) :
  active_file host = Some content -> setting_sectionHeading settings = [] ->
  fetchTranscriptForCurrentNote host settings =
  stop_with [js "This note already has a transcript section"].
Proof.
  intros Hc Hh. unfold fetchTranscriptForCurrentNote, hasTranscriptSection.
  now rewrite Hc, Hh, includes_nil.
Qed.

Lemma empty_heading_refuses_every_note_witness :
  fetchTranscriptForCurrentNote SCENARIO_HOST
    {| language := js "en"; setting_includeTimestamps := false;
       setting_sectionHeading := [] |} =
  stop_with [js "This note already has a transcript section"].
Proof.
  exact (empty_heading_refuses_every_note SCENARIO_HOST
           {| language := js "en"; setting_includeTimestamps := false;
              setting_sectionHeading := [] |} SCENARIO_NOTE eq_refl eq_refl).
Defined.

(** X20.  The command asks the retrieval for nothing but an identifier of
    eleven characters and a language that is not empty: two hosts with the
    same note and the same [vault.modify], whose retrievals agree on such
    arguments, make the same run. *)
Theorem retrieval_called_with_identifier (host host' : Host)
  (settings : YouTubeTranscriptSettings) :
  active_file host = active_file host' ->
  (forall updated, vault_modify host updated = vault_modify host' updated) ->
  (forall videoId lang, is_token videoId = true -> lang <> [] ->
     fetchTranscript host videoId lang = fetchTranscript host' videoId lang) ->
  fetchTranscriptForCurrentNote host settings =
  fetchTranscriptForCurrentNote host' settings.
Proof.
  intros Ha Hv Hf. unfold fetchTranscriptForCurrentNote. rewrite <- Ha.
  destruct (active_file host) as [content|]; [|reflexivity].
  destruct (hasTranscriptSection _ _); [reflexivity|].
  destruct (nth_error (findYouTubeUrls content) 0) as [[|u rl]|]; try reflexivity.
  destruct (extractVideoId (u :: rl)) as [[|v id]|] eqn:X; try reflexivity.
  assert (T : is_token (v :: id) = true).
  { apply extractVideoId_some_iff in X as (i & p & a & _ & [T _] & _). exact T. }
  assert (L : match language settings with [] => js "en" | l => l end <> []).
  { destruct (language settings); discriminate. }
  rewrite <- (Hf _ _ T L).
  destruct (fetchTranscript host (v :: id) _) as [transcript| |]; try reflexivity.
  destruct (Nat.eqb (length transcript) 0); [reflexivity|].
  now rewrite <- Hv.
Qed.

Lemma retrieval_called_with_identifier_witness :
  fetchTranscriptForCurrentNote SCENARIO_HOST DEFAULT_SETTINGS =
  fetchTranscriptForCurrentNote
    {| active_file := Some SCENARIO_NOTE;
       fetchTranscript := fun videoId _ =>
         if is_token videoId then Returns SCENARIO else ThrowsOther;
       vault_modify := fun _ => Returns tt |} DEFAULT_SETTINGS.
Proof.
  apply (retrieval_called_with_identifier SCENARIO_HOST
           {| active_file := Some SCENARIO_NOTE;
              fetchTranscript := fun videoId _ =>
                if is_token videoId then Returns SCENARIO else ThrowsOther;
              vault_modify := fun _ => Returns tt |} DEFAULT_SETTINGS).
  - reflexivity.
  - reflexivity.
  - intros videoId l T _. cbn [fetchTranscript SCENARIO_HOST]. now rewrite T.
Defined.

(* ------------------------------------------------------------------ *)
(** ** The settings tab *)

(** X21.  Changes made in the settings tab leave neither the language nor
    the section heading empty when they were not: an emptied field gets its
    default back.  After a change, what [loadSettings] makes of the data
    that [saveSettings] has stored is the settings of the plugin. *)
Theorem settings_tab_keeps_fields_filled (changes : list change) (plugin : Plugin) :
  well_set (plugin_settings plugin) ->
  let plugin' := fold_left (fun p c => onChange c p) changes plugin in
  well_set (plugin_settings plugin') /\
  (changes <> [] -> loadSettings (plugin_data plugin') = plugin_settings plugin').
Proof.
  revert plugin. induction changes as [|c changes IH]; intros plugin W.
  - split; [exact W|congruence].
  - cbn [fold_left].
    assert (W' : well_set (plugin_settings (onChange c plugin))).
    { destruct W as [W1 W2]. destruct c as [[|x v]|b|[|x v]]; split;
        cbn; trivial; discriminate. }
    assert (R : loadSettings (plugin_data (onChange c plugin)) =
                plugin_settings (onChange c plugin)).
    { now destruct c. }
    destruct (IH _ W') as [A B]. split; [exact A|]. intros _.
    destruct changes as [|c' changes']; [exact R|]. apply B. discriminate.
Qed.

Lemma settings_tab_witness :
  well_set (plugin_settings
    (fold_left (fun p c => onChange c p) [Language []; SectionHeading []]
       {| plugin_settings := DEFAULT_SETTINGS; plugin_data := None |})).
Proof.
  refine (proj1 (settings_tab_keeps_fields_filled [Language []; SectionHeading []]
                   {| plugin_settings := DEFAULT_SETTINGS; plugin_data := None |} _)).
  split; discriminate.
Defined.

(* ------------------------------------------------------------------ *)
(** ** Rounding to the nearest double *)

Section Rounding.
Local Open Scope Q_scope.

Lemma pow2_pos (p : Z) : 0 < pow2 p.
Proof. apply Qpower_0_lt. reflexivity. Qed.

Lemma pow2_plus (a b : Z) : pow2 (a + b) == pow2 a * pow2 b.
Proof. apply Qpower_plus. discriminate. Qed.

Lemma pow2_le (a b : Z) : (a <= b)%Z -> pow2 a <= pow2 b.
Proof. intros H. apply Qpower_le_compat_l; [exact H|discriminate]. Qed.

Lemma pow2_lt (a b : Z) : (a < b)%Z -> pow2 a < pow2 b.
Proof. intros H. apply Qpower_lt_compat_l; [exact H|reflexivity]. Qed.

Lemma pow2_Z (p : Z) : (0 <= p)%Z -> pow2 p == inject_Z (2 ^ p).
Proof. intros H. unfold pow2. now rewrite Zpower_Qpower. Qed.

Lemma pow2_succ (p : Z) : pow2 (p + 1) == 2 * pow2 p.
Proof. rewrite pow2_plus. change (pow2 1) with 2. ring. Qed.

Lemma pow2_pred (p : Z) : 2 * pow2 (p - 1) == pow2 p.
Proof.
  assert (E := pow2_succ (p - 1)). replace (p - 1 + 1)%Z with p in E by lia.
  now rewrite E.
Qed.

Lemma pow2_minus (a b : Z) : pow2 (a - b) == pow2 a / pow2 b.
Proof. apply Qpower_minus. discriminate. Qed.

Lemma pow2_lt_inv (a b : Z) : pow2 a < pow2 b -> (a < b)%Z.
Proof.
  intros H. destruct (Z.lt_ge_cases a b) as [L|L]; [exact L|].
  apply pow2_le in L. lra.
Qed.

(** [ilog2] *)
Lemma ilog2_spec (x : Q) :
  0 < x -> pow2 (ilog2 x) <= x /\ x < pow2 (ilog2 x + 1).
Proof.
  intros H. destruct x as [n d]. unfold ilog2. cbn [Qnum Qden].
  assert (N : (0 < n)%Z) by (unfold Qlt in H; cbn in H; lia).
  set (a := Z.log2 n). set (b := Z.log2 (Z.pos d)).
  assert (A := Z.log2_spec n N). assert (B := Z.log2_spec (Z.pos d) eq_refl).
  fold a in A. fold b in B.
  assert (A0 : (0 <= a)%Z) by apply Z.log2_nonneg.
  assert (B0 : (0 <= b)%Z) by apply Z.log2_nonneg.
  assert (X : n # d == inject_Z n / inject_Z (Z.pos d)) by apply Qmake_Qdiv.
  assert (D0 : 0 < inject_Z (Z.pos d)) by reflexivity.
  assert (Pa := pow2_Z a A0). assert (Pb := pow2_Z b B0).
  assert (Pa1 := pow2_Z (Z.succ a) ltac:(lia)).
  assert (Pb1 := pow2_Z (Z.succ b) ltac:(lia)).
  assert (An : pow2 a <= inject_Z n) by (rewrite Pa, <- Zle_Qle; lia).
  assert (An1 : inject_Z n < pow2 (Z.succ a)) by (rewrite Pa1, <- Zlt_Qlt; lia).
  assert (Bd : pow2 b <= inject_Z (Z.pos d)) by (rewrite Pb, <- Zle_Qle; lia).
  assert (Bd1 : inject_Z (Z.pos d) < pow2 (Z.succ b)) by (rewrite Pb1, <- Zlt_Qlt; lia).
  assert (Sa : pow2 (Z.succ a) == 2 * pow2 a) by apply pow2_succ.
  assert (Sb : pow2 (Z.succ b) == 2 * pow2 b) by apply pow2_succ.
  assert (K := pow2_minus a b).
  assert (K1 := pow2_succ (a - b)). assert (K2 := pow2_pred (a - b)).
  assert (Pb0 := pow2_pos b). assert (Pa0 := pow2_pos a).
  assert (Pk := pow2_pos (a - b)).
  assert (Up : n # d < 2 * pow2 (a - b)).
  { rewrite X, K. apply Qlt_shift_div_r; [exact D0|].
    assert (E : 2 * (pow2 a / pow2 b) * inject_Z (Z.pos d) ==
                (2 * pow2 a) * (inject_Z (Z.pos d) / pow2 b)) by (field; lra).
    rewrite E.
    assert (1 <= inject_Z (Z.pos d) / pow2 b) by (apply Qle_shift_div_l; lra).
    nra. }
  assert (Lo : (1 # 2) * pow2 (a - b) <= n # d).
  { rewrite X, K. apply Qle_shift_div_l; [exact D0|].
    assert (E : (1 # 2) * (pow2 a / pow2 b) * inject_Z (Z.pos d) ==
                pow2 a * (inject_Z (Z.pos d) / (2 * pow2 b))) by (field; lra).
    rewrite E.
    assert (inject_Z (Z.pos d) / (2 * pow2 b) <= 1) by (apply Qle_shift_div_r; lra).
    nra. }
  destruct (Qle_bool (pow2 (a - b)) (n # d)) eqn:T.
  - apply Qle_bool_iff in T. split; [exact T|]. rewrite K1. exact Up.
  - assert (T' : n # d < pow2 (a - b)).
    { apply Qnot_le_lt. intros C. apply Qle_bool_iff in C. congruence. }
    replace (a - b - 1 + 1)%Z with (a - b)%Z by lia. split; [|exact T'].
    lra.
Qed.

Lemma ilog2_unique (x : Q) (e : Z) :
  pow2 e <= x -> x < pow2 (e + 1) -> ilog2 x = e.
Proof.
  intros L U. assert (P : 0 < x) by (pose proof (pow2_pos e); lra).
  destruct (ilog2_spec x P) as [L' U'].
  assert (pow2 e < pow2 (ilog2 x + 1)) by lra.
  assert (pow2 (ilog2 x) < pow2 (e + 1)) by lra.
  apply pow2_lt_inv in H, H0. lia.
Qed.

(** [nearest_even] *)
Lemma nearest_even_cases (y : Q) :
  nearest_even y = Qfloor y \/ nearest_even y = (Qfloor y + 1)%Z.
Proof.
  unfold nearest_even. destruct (Qcompare _ _); [destruct (Z.even _)| |]; auto.
Qed.

Lemma nearest_even_error (y : Q) :
  inject_Z (nearest_even y) - y <= 1 # 2 /\ y - inject_Z (nearest_even y) <= 1 # 2.
Proof.
  unfold nearest_even. assert (F := Qfloor_le y). assert (G := Qlt_floor y).
  rewrite inject_Z_plus in G. change (inject_Z 1) with 1 in G.
  destruct (Qcompare (y - inject_Z (Qfloor y)) (1 # 2)) eqn:C.
  - apply Qeq_alt in C.
    destruct (Z.even _); rewrite ?inject_Z_plus; change (inject_Z 1) with 1;
      split; lra.
  - apply Qlt_alt in C. split; lra.
  - apply Qgt_alt in C. rewrite inject_Z_plus. change (inject_Z 1) with 1.
    split; lra.
Qed.

Lemma nearest_even_ge (y : Q) (k : Z) : inject_Z k <= y -> (k <= nearest_even y)%Z.
Proof.
  intros H. apply Qfloor_resp_le in H. rewrite Qfloor_Z in H.
  destruct (nearest_even_cases y) as [-> | ->]; lia.
Qed.

Lemma nearest_even_le (y : Q) (k : Z) : y <= inject_Z k -> (nearest_even y <= k)%Z.
Proof.
  intros H. assert (F := Qfloor_le y).
  destruct (Z.le_gt_cases (Qfloor y + 1) k) as [L|L].
  - destruct (nearest_even_cases y) as [-> | ->]; lia.
  - assert (E : Qfloor y = k).
    { assert (Qfloor y <= k)%Z; [|lia].
      apply Qfloor_resp_le in H. now rewrite Qfloor_Z in H. }
    assert (Y : y == inject_Z k) by (rewrite E in F; lra).
    unfold nearest_even. rewrite E.
    assert (C : Qcompare (y - inject_Z k) (1 # 2) = Lt). { apply (proj1 (Qlt_alt _ _)). lra. }
    rewrite C. lia.
Qed.

Lemma Qfloor_unique (y : Q) (q : Z) :
  inject_Z q <= y -> y < inject_Z (q + 1) -> Qfloor y = q.
Proof.
  intros L U. assert (F := Qfloor_le y). assert (G := Qlt_floor y).
  assert (A : inject_Z q < inject_Z (Qfloor y + 1)) by lra.
  assert (B : inject_Z (Qfloor y) < inject_Z (q + 1)) by lra.
  rewrite <- Zlt_Qlt in A, B. lia.
Qed.

Lemma pow2_opp (p : Z) : pow2 (- p) == / pow2 p.
Proof. apply Qpower_opp. Qed.

Lemma pow2_cancel (p : Z) : pow2 p * pow2 (- p) == 1.
Proof. rewrite <- pow2_plus. now replace (p + - p)%Z with 0%Z by lia. Qed.

(** Below 2^53 the last place is a fraction of a unit, so the integers lie on the grid of the doubles. *)
Lemma grid_integer (p k : Z) :
  (p <= 0)%Z -> inject_Z k / pow2 p == inject_Z (k * 2 ^ (- p)).
Proof.
  intros H. rewrite inject_Z_mult, <- pow2_Z by lia.
  assert (P := pow2_pos p). assert (C := pow2_cancel p).
  apply Qmult_inj_r with (z := pow2 p); [lra|].
  rewrite <- Qmult_assoc, (Qmult_comm (pow2 (- p))), C. field. lra.
Qed.

Lemma div_le_mul (a b c : Q) : 0 < b -> a / b <= c -> a <= c * b.
Proof.
  intros P H. assert (E : a == a / b * b) by (field; lra).
  rewrite E. apply Qmult_le_compat_r; lra.
Qed.

Lemma le_div_mul (a b c : Q) : 0 < b -> c <= a / b -> c * b <= a.
Proof.
  intros P H. assert (E : a == a / b * b) by (field; lra).
  rewrite E. apply Qmult_le_compat_r; lra.
Qed.

Lemma nearest_scaled (x : Q) :
  x / pow2 (last_place x) * pow2 (last_place x) == x.
Proof. assert (P := pow2_pos (last_place x)). field. lra. Qed.

Lemma nearest_error (x : Q) :
  2 * (nearest x - x) <= pow2 (last_place x) /\
  2 * (x - nearest x) <= pow2 (last_place x).
Proof.
  unfold nearest. set (p := last_place x). assert (P := pow2_pos p).
  assert (S := nearest_scaled x). fold p in S.
  destruct (nearest_even_error (x / pow2 p)) as [A B].
  set (m := inject_Z (nearest_even (x / pow2 p))) in *.
  set (y := x / pow2 p) in *.
  assert (A' : (m - y) * pow2 p <= (1 # 2) * pow2 p)
    by (apply Qmult_le_compat_r; lra).
  assert (B' : (y - m) * pow2 p <= (1 # 2) * pow2 p)
    by (apply Qmult_le_compat_r; lra).
  clearbody m y. set (u := pow2 p) in *. clearbody u. clear A B.
  assert (E : (m - y) * u == m * u - x) by (rewrite <- S; ring).
  assert (E' : (y - m) * u == x - m * u) by (rewrite <- S; ring).
  rewrite E in A'. rewrite E' in B'. clear E E' S. split; lra.
Qed.

Lemma last_place_small (x : Q) : 0 < x -> x < pow2 53 -> (last_place x <= 0)%Z.
Proof.
  intros P H. destruct (ilog2_spec x P) as [L _].
  assert (pow2 (ilog2 x) < pow2 53) by lra. apply pow2_lt_inv in H0.
  unfold last_place. lia.
Qed.

Lemma last_place_normal (x : Q) (e : Z) :
  (-1022 <= e)%Z -> pow2 e <= x -> pow2 (last_place x) * pow2 52 <= x.
Proof.
  intros E H. assert (P : 0 < x) by (pose proof (pow2_pos e); lra).
  destruct (ilog2_spec x P) as [L U].
  assert (pow2 e < pow2 (ilog2 x + 1)) by lra. apply pow2_lt_inv in H0.
  unfold last_place. rewrite Z.max_l by lia. rewrite <- pow2_plus.
  now replace (ilog2 x - 52 + 52)%Z with (ilog2 x) by lia.
Qed.

Lemma nearest_ge (x : Q) (k : Z) :
  0 < x -> x < pow2 53 -> inject_Z k <= x -> inject_Z k <= nearest x.
Proof.
  intros P H K. assert (S := last_place_small x P H).
  unfold nearest. set (p := last_place x) in *. assert (P2 := pow2_pos p).
  assert (G := grid_integer p k S).
  assert (A : inject_Z (k * 2 ^ (- p)) <= x / pow2 p).
  { rewrite <- G. apply Qle_shift_div_l; [exact P2|].
    assert (E : inject_Z k / pow2 p * pow2 p == inject_Z k) by (field; lra).
    now rewrite E. }
  apply nearest_even_ge in A. rewrite Zle_Qle in A. rewrite <- G in A.
  now apply div_le_mul.
Qed.

Lemma nearest_le (x : Q) (k : Z) :
  0 < x -> x < pow2 53 -> x <= inject_Z k -> nearest x <= inject_Z k.
Proof.
  intros P H K. assert (S := last_place_small x P H).
  unfold nearest. set (p := last_place x) in *. assert (P2 := pow2_pos p).
  assert (G := grid_integer p k S).
  assert (A : x / pow2 p <= inject_Z (k * 2 ^ (- p))).
  { rewrite <- G. apply Qle_shift_div_r; [exact P2|].
    assert (E : inject_Z k / pow2 p * pow2 p == inject_Z k) by (field; lra).
    now rewrite E. }
  apply nearest_even_le in A. rewrite Zle_Qle in A. rewrite <- G in A.
  now apply le_div_mul.
Qed.

Lemma nearest_integer (k : Z) :
  (0 < k < 2 ^ 53)%Z -> nearest (inject_Z k) == inject_Z k.
Proof.
  intros H. assert (P : 0 < inject_Z k) by (change 0 with (inject_Z 0); rewrite <- Zlt_Qlt; lia).
  assert (U : inject_Z k < pow2 53) by (rewrite pow2_Z by lia; rewrite <- Zlt_Qlt; lia).
  apply Qle_antisym; [apply nearest_le|apply nearest_ge]; trivial; apply Qle_refl.
Qed.

Lemma binary64_small (a : Q) :
  binary64 a -> a < pow2 53 ->
  exists m e : Z, (0 <= m < 2 ^ 53)%Z /\ (e <= 0)%Z /\ a == inject_Z m * pow2 e.
Proof.
  intros (m & e & M & E & A) H. destruct (Z.le_gt_cases e 0) as [L|L].
  - now exists m, e.
  - exists (m * 2 ^ e)%Z, 0%Z. split; [|split; [lia|]].
    + rewrite A, (pow2_Z e), <- inject_Z_mult, (pow2_Z 53) in H by lia.
      rewrite <- Zlt_Qlt in H. split; [|exact H].
      apply Z.mul_nonneg_nonneg; [lia|]. apply Z.pow_nonneg. lia.
    + rewrite A, inject_Z_mult, (pow2_Z e) by lia. change (pow2 0) with 1. ring.
Qed.

Lemma reach_bound (x q1 u t52 t53 b a : Q) :
  2 * (q1 - x) <= u -> u * t52 <= x -> t52 * 2 == t53 -> 0 < t52 ->
  x * b == a -> 0 < b -> (b * q1 - a) * t53 <= a.
Proof.
  intros H1 H2 E P Xb B.
  assert (A1 : 2 * (q1 - x) * t52 <= u * t52)
    by (apply Qmult_le_compat_r; lra).
  assert (A2 : (q1 - x) * t53 <= x).
  { rewrite <- E. eapply Qle_trans; [|exact H2].
    eapply Qle_trans; [|exact A1]. apply Qle_lteq. right. ring. }
  assert (A3 : b * ((q1 - x) * t53) <= b * x) by (apply Qmult_le_l; trivial).
  rewrite <- Xb. eapply Qle_trans; [|apply Qle_lteq; right; apply Qmult_comm].
  eapply Qle_trans; [|exact A3]. apply Qle_lteq. right. ring.
Qed.

(** The quotient of a double below 2^53 by a positive integer: rounding it
    to a double does not change its integer part. *)
Lemma floor_of_quotient (a : Q) (b : Z) :
  binary64 a -> 0 < a -> a < pow2 53 -> (0 < b)%Z ->
  Qfloor (nearest (a / inject_Z b)) = Qfloor (a / inject_Z b).
Proof.
  intros Ba Pa Ha Pb.
  assert (B1 : 1 <= inject_Z b) by (change 1 with (inject_Z 1); rewrite <- Zle_Qle; lia).
  set (x := a / inject_Z b).
  assert (Xb : x * inject_Z b == a) by (unfold x; field; lra).
  assert (Px : 0 < x) by (apply Qlt_shift_div_l; lra).
  assert (Xa : x <= a).
  { apply Qle_shift_div_r; [lra|].
    assert (a * 1 <= a * inject_Z b) by (apply Qmult_le_l; lra). lra. }
  assert (Hx : x < pow2 53) by lra.
  set (q := Qfloor x). assert (F : inject_Z q <= x) by apply Qfloor_le.
  assert (G : x < inject_Z (q + 1)) by apply Qlt_floor.
  apply Qfloor_unique; [now apply nearest_ge|].
  assert (Q0 : (0 <= q)%Z).
  { change 0%Z with (Qfloor 0). apply Qfloor_resp_le. lra. }
  apply Qnot_le_lt. intros C.
  destruct (nearest_error x) as [Er _].
  assert (S := last_place_small x Px Hx).
  assert (P1 : pow2 (last_place x) <= 1) by (change 1 with (pow2 0); now apply pow2_le).
  rewrite inject_Z_plus in C, G. change (inject_Z 1) with 1 in C, G.
  assert (Q1 : 0 <= inject_Z q) by (change 0 with (inject_Z 0); rewrite <- Zle_Qle; lia).
  destruct (Qlt_le_dec x (1 # 2)) as [Small|Big]; [lra|].
  assert (N := last_place_normal x (-1) ltac:(lia) Big).
  assert (P52 : pow2 52 * pow2 1 == pow2 53) by (now rewrite <- pow2_plus).
  change (pow2 1) with 2 in P52.
  destruct (binary64_small a Ba Ha) as (m & e & M & E & A).
  assert (Pe := pow2_pos e). assert (Ce := pow2_cancel e).
  assert (Pe' := pow2_pos (- e)).
  set (D := inject_Z b * (inject_Z q + 1) - a).
  assert (D0 : 0 < D).
  { unfold D. rewrite <- Xb.
    assert (x * inject_Z b < (inject_Z q + 1) * inject_Z b)
      by (apply Qmult_lt_compat_r; lra).
    lra. }
  assert (D1 : D * pow2 53 <= a).
  { apply (reach_bound x (inject_Z q + 1) (pow2 (last_place x)) (pow2 52));
      trivial; try lra; apply pow2_pos. }
  set (K := (b * (q + 1) * 2 ^ (- e))%Z).
  assert (T : D * pow2 (- e) == inject_Z K - inject_Z m).
  { unfold D, K. rewrite A, !inject_Z_mult, inject_Z_plus.
    rewrite <- (pow2_Z (- e)) by lia. change (inject_Z 1) with 1.
    assert (X : inject_Z m * pow2 e * pow2 (- e) == inject_Z m)
      by (rewrite <- Qmult_assoc, Ce; ring).
    ring_simplify. rewrite <- X at 2. ring. }
  assert (T0 : 0 < D * pow2 (- e)) by (apply Qmult_lt_0_compat; trivial).
  assert (T1 : 1 <= D * pow2 (- e)).
  { rewrite T in T0 |- *. assert (L : inject_Z m < inject_Z K) by lra.
    rewrite <- Zlt_Qlt in L.
    assert (L' : inject_Z (m + 1) <= inject_Z K) by (rewrite <- Zle_Qle; lia).
    rewrite inject_Z_plus in L'. change (inject_Z 1) with 1 in L'. lra. }
  assert (M53 : inject_Z m < pow2 53) by (rewrite pow2_Z by lia; rewrite <- Zlt_Qlt; lia).
  assert (Am : a * pow2 (- e) == inject_Z m)
    by (rewrite A, <- Qmult_assoc, Ce; ring).
  assert (D2 : D * pow2 53 * pow2 (- e) <= inject_Z m).
  { rewrite <- Am. apply Qmult_le_compat_r; lra. }
  assert (P53 := pow2_pos 53).
  assert (D3 : 1 * pow2 53 <= D * pow2 (- e) * pow2 53)
    by (apply Qmult_le_compat_r; lra).
  assert (D4 : D * pow2 (- e) * pow2 53 == D * pow2 53 * pow2 (- e)) by ring.
  lra.
Qed.

End Rounding.

(* ------------------------------------------------------------------ *)
(** ** The operations on doubles and [formatTimestamp] *)

Section DoubleOperations.
Local Open Scope Q_scope.

Lemma inject_Z_pos (k : Z) : (0 < k)%Z -> 0 < inject_Z k.
Proof. intros H. change 0 with (inject_Z 0). now rewrite <- Zlt_Qlt. Qed.

Lemma inject_Z_nonneg (k : Z) : (0 <= k)%Z -> 0 <= inject_Z k.
Proof. intros H. change 0 with (inject_Z 0). now rewrite <- Zle_Qle. Qed.

Lemma pow2_53 : pow2 53 == 9007199254740992.
Proof. reflexivity. Qed.

Lemma binary64_Z (k : Z) : (0 <= k < 2 ^ 53)%Z -> binary64 (inject_Z k).
Proof.
  intros H. exists k, 0%Z. split; [exact H|split; [lia|]].
  change (pow2 0) with 1. ring.
Qed.

Lemma binary64_comp (x y : Q) : x == y -> binary64 x -> binary64 y.
Proof. intros E (m & e & M & B & X). exists m, e. now rewrite <- E. Qed.

Lemma rounded_positive (x : Q) : 0 < x -> rounded x = nearest x.
Proof.
  intros H. unfold rounded. destruct (Qle_bool x 0) eqn:E; [|reflexivity].
  apply Qle_bool_iff in E. lra.
Qed.

Lemma rounded_zero (x : Q) : x <= 0 -> rounded x = 0.
Proof.
  intros H. unfold rounded. destruct (Qle_bool x 0) eqn:E; [reflexivity|].
  apply Qle_bool_iff in H. congruence.
Qed.

Lemma rounded_ge (x : Q) (k : Z) :
  0 <= x -> x < pow2 53 -> inject_Z k <= x -> inject_Z k <= rounded x.
Proof.
  intros P H K. destruct (Qlt_le_dec 0 x) as [L|L].
  - rewrite rounded_positive by exact L. now apply nearest_ge.
  - rewrite rounded_zero by exact L. lra.
Qed.

Lemma rounded_le (x : Q) (k : Z) :
  0 <= x -> x < pow2 53 -> x <= inject_Z k -> rounded x <= inject_Z k.
Proof.
  intros P H K. destruct (Qlt_le_dec 0 x) as [L|L].
  - rewrite rounded_positive by exact L. now apply nearest_le.
  - rewrite rounded_zero by exact L. lra.
Qed.

(** Below 2^53 there is no overflow. *)
Lemma round_finite (s : bool) (x : Q) :
  0 <= x -> x < pow2 53 -> Double.round s x = Double.Finite s (rounded x).
Proof.
  intros P H. unfold Double.round, rounded.
  destruct (Qle_bool x 0) eqn:E; [reflexivity|].
  assert (L : 0 < x).
  { apply Qnot_le_lt. intros C. apply Qle_bool_iff in C. congruence. }
  assert (U : nearest x <= inject_Z (2 ^ 53)).
  { apply nearest_le; trivial. rewrite <- pow2_Z by lia. lra. }
  destruct (Qle_bool (pow2 1024) (nearest x)) eqn:O; [|reflexivity].
  apply Qle_bool_iff in O. rewrite <- pow2_Z in U by lia.
  assert (pow2 53 < pow2 1024) by (apply pow2_lt; lia). lra.
Qed.

Lemma nearest_mantissa (x : Q) :
  0 < x -> (0 <= nearest_even (x / pow2 (last_place x)) <= 2 ^ 53)%Z.
Proof.
  intros P. set (p := last_place x). assert (P2 := pow2_pos p).
  destruct (ilog2_spec x P) as [_ U].
  assert (L : (ilog2 x + 1 <= p + 53)%Z) by (unfold p, last_place; lia).
  apply pow2_le in L. rewrite (pow2_plus p 53) in L.
  split.
  - apply nearest_even_ge. apply Qle_shift_div_l; [exact P2|]. change (inject_Z 0) with 0. lra.
  - apply nearest_even_le. rewrite <- pow2_Z by lia.
    apply Qle_shift_div_r; [exact P2|]. rewrite (Qmult_comm (pow2 53)).
    lra.
Qed.

(** What rounding returns is a double. *)
Lemma nearest_binary64 (x : Q) :
  0 < x -> nearest x < pow2 1024 -> binary64 (nearest x).
Proof.
  intros P O. destruct (nearest_mantissa x P) as [M0 M1].
  unfold nearest in *. set (p := last_place x) in *.
  set (m := nearest_even (x / pow2 p)) in *.
  assert (P2 := pow2_pos p).
  assert (Lo : (-1074 <= p)%Z) by (unfold p, last_place; lia).
  destruct (Z.eq_dec m (2 ^ 53)) as [E|N].
  - assert (V : inject_Z m * pow2 p == pow2 (p + 53)).
    { rewrite E, <- pow2_Z, pow2_plus by lia. ring. }
    rewrite V in O. apply pow2_lt_inv in O.
    exists (2 ^ 52)%Z, (p + 1)%Z. split; [lia|split; [lia|]].
    rewrite V, <- pow2_Z, <- pow2_plus by lia. now replace (52 + (p + 1))%Z with (p + 53)%Z by lia.
  - exists m, p. split; [lia|split; [|reflexivity]]. split; [exact Lo|].
    destruct (Z.le_gt_cases p 971) as [L|L]; [exact L|exfalso].
    assert (Ep : p = (ilog2 x - 52)%Z) by (unfold p, last_place in *; lia).
    destruct (ilog2_spec x P) as [I _].
    replace (ilog2 x) with (p + 52)%Z in I by lia. rewrite pow2_plus in I.
    assert (A : inject_Z (2 ^ 52) <= x / pow2 p).
    { rewrite <- pow2_Z by lia. apply Qle_shift_div_l; [exact P2|]. lra. }
    apply nearest_even_ge in A. fold m in A.
    assert (B : inject_Z (2 ^ 52) * pow2 p <= inject_Z m * pow2 p).
    { apply Qmult_le_compat_r; [|lra]. now rewrite <- Zle_Qle. }
    rewrite <- pow2_Z, <- pow2_plus in B by lia.
    assert (C : pow2 1024 <= pow2 (52 + p)) by (apply pow2_le; lia).
    lra.
Qed.

Lemma rounded_binary64 (x : Q) : 0 <= x -> x < pow2 53 -> binary64 (rounded x).
Proof.
  intros P H. destruct (Qlt_le_dec 0 x) as [L|L].
  - rewrite rounded_positive by exact L. apply nearest_binary64; [exact L|].
    assert (U : nearest x <= inject_Z (2 ^ 53)).
    { apply nearest_le; trivial. rewrite <- pow2_Z by lia. lra. }
    rewrite <- pow2_Z in U by lia.
    assert (pow2 53 < pow2 1024) by (apply pow2_lt; lia). lra.
  - rewrite rounded_zero by exact L. apply (binary64_Z 0). lia.
Qed.

Lemma Qfloor_quot (a b : Z) :
  (0 < b)%Z -> Qfloor (inject_Z a / inject_Z b) = (a / b)%Z.
Proof.
  intros H. destruct b as [|p|p]; try lia.
  unfold Qdiv, Qinv, Qmult, inject_Z, Qfloor. cbn [Qnum Qden].
  rewrite Z.mul_1_r. reflexivity.
Qed.

Lemma of_Z_positive (b : Z) :
  (0 < b)%Z -> Double.of_Z b = Double.Finite false (inject_Z b).
Proof.
  intros H. unfold Double.of_Z. destruct (Z.ltb_spec b 0); [lia|].
  now rewrite Z.abs_eq by lia.
Qed.

Lemma Qeq_bool_positive (x : Q) : 0 < x -> Qeq_bool x 0 = false.
Proof.
  intros H. destruct (Qeq_bool x 0) eqn:E; [|reflexivity].
  apply Qeq_bool_iff in E. lra.
Qed.

Lemma quotient_small (a : Q) (b : Z) :
  0 <= a -> a < pow2 53 -> (0 < b)%Z ->
  0 <= a / inject_Z b /\ a / inject_Z b < pow2 53.
Proof.
  intros P H B. assert (B0 := inject_Z_pos b B).
  assert (B1 : 1 <= inject_Z b) by (change 1 with (inject_Z 1); rewrite <- Zle_Qle; lia).
  split.
  - apply Qle_shift_div_l; [exact B0|]. lra.
  - apply Qlt_shift_div_r; [exact B0|].
    assert (pow2 53 * 1 <= pow2 53 * inject_Z b).
    { apply Qmult_le_l; [apply pow2_pos|exact B1]. }
    lra.
Qed.

(** [Math.floor(a / b)] for a double [a] below 2^53 and a positive integer
    [b]: the integer part of the exact quotient. *)
Lemma floor_div (a : Q) (b : Z) :
  binary64 a -> 0 <= a -> a < pow2 53 -> (0 < b)%Z ->
  Double.floor (Double.div (Double.Finite false a) (Double.of_Z b)) =
  Double.Finite false (inject_Z (Qfloor (a / inject_Z b))).
Proof.
  intros Ba P H B. rewrite of_Z_positive by exact B.
  destruct (quotient_small a b P H B) as [Q0 Q1].
  unfold Double.div. rewrite Qeq_bool_positive by now apply inject_Z_pos.
  cbn [xorb]. rewrite round_finite by trivial. cbn [Double.floor].
  f_equal. f_equal.
  destruct (Qlt_le_dec 0 a) as [L|L].
  - rewrite rounded_positive.
    + now apply floor_of_quotient.
    + apply Qlt_shift_div_l; [now apply inject_Z_pos|]. clear Q0 Q1. lra.
  - rewrite rounded_zero; [|].
    + symmetry. apply Qfloor_unique.
      * exact Q0.
      * apply Qlt_shift_div_r; [now apply inject_Z_pos|].
        assert (0 < inject_Z b) by now apply inject_Z_pos.
        change (inject_Z (Qfloor 0 + 1)) with 1. clear Q0 Q1. lra.
    + apply Qle_shift_div_r; [now apply inject_Z_pos|]. clear Q0 Q1. lra.
Qed.

(** The remainder of a natural number by a positive integer. *)
Lemma rem_integers (t b : Z) :
  (0 <= t)%Z -> (0 < b)%Z ->
  exists r : Q,
    Double.rem (Double.Finite false (inject_Z t)) (Double.of_Z b) =
    Double.Finite false r /\ r == inject_Z (t mod b).
Proof.
  intros T B. rewrite of_Z_positive by exact B. unfold Double.rem.
  rewrite Qeq_bool_positive by now apply inject_Z_pos.
  eexists. split; [reflexivity|].
  rewrite Qfloor_quot by exact B. rewrite <- inject_Z_mult.
  rewrite Z.mod_eq by lia. unfold Z.sub. rewrite inject_Z_plus, inject_Z_opp. ring.
Qed.

Lemma toString_of_natural (r : Q) (n : Z) :
  r == inject_Z n -> (0 <= n < 2 ^ 53)%Z ->
  Double.Number_toString (Double.Finite false r) = toString n.
Proof.
  intros E B. assert (F : Qfloor r = n) by (now rewrite (Qfloor_comp _ _ E), Qfloor_Z).
  cbn [Double.Number_toString]. destruct (Qle_bool r 0) eqn:Z0.
  - apply Qle_bool_iff in Z0. rewrite E in Z0. change 0 with (inject_Z 0) in Z0.
    rewrite <- Zle_Qle in Z0. now replace n with 0%Z by lia.
  - cbn [app]. unfold Double.positive_toString. rewrite F.
    replace (Qeq_bool r (inject_Z n)) with true
      by (symmetry; now apply Qeq_bool_iff).
    replace (Qle_bool (pow2 53) r) with false; [reflexivity|].
    symmetry. destruct (Qle_bool (pow2 53) r) eqn:C; [|reflexivity].
    apply Qle_bool_iff in C. rewrite E, pow2_Z in C by lia.
    rewrite <- Zle_Qle in C. lia.
Qed.

Lemma below_2_53 (t : Z) : (0 <= t < 2 ^ 53)%Z -> inject_Z t < pow2 53.
Proof. intros H. rewrite pow2_Z by lia. rewrite <- Zlt_Qlt. lia. Qed.

(** In double precision [formatTimestamp] computes what the exact
    arithmetic gives, on every double from 0 up to 2^53. *)
Lemma formatTimestamp_in_doubles (ms : Q) :
  binary64 ms -> 0 <= ms -> ms < pow2 53 ->
  Double.formatTimestamp (Double.Finite false ms) = formatTimestamp ms.
Proof.
  intros B P H. unfold Double.formatTimestamp, formatTimestamp.
  rewrite (floor_div ms 1000 B P H) by lia.
  set (t := Qfloor (ms / inject_Z 1000)).
  change (ms / 1000) with (ms / inject_Z 1000). fold t.
  assert (T0 : (0 <= t)%Z).
  { change 0%Z with (Qfloor 0). apply Qfloor_resp_le.
    apply (quotient_small ms 1000); trivial; lia. }
  assert (T1 : (t < 2 ^ 53)%Z).
  { assert (F := Qfloor_le (ms / inject_Z 1000)). fold t in F.
    destruct (quotient_small ms 1000 P H) as [_ Q1]; [lia|].
    rewrite pow2_Z in Q1 by lia. rewrite Zlt_Qlt. lra. }
  assert (Bt := binary64_Z t (conj T0 T1)).
  assert (Ht := below_2_53 t (conj T0 T1)).
  assert (Pt := inject_Z_nonneg t T0).
  rewrite (floor_div (inject_Z t) 3600 Bt Pt Ht) by lia.
  rewrite Qfloor_quot by lia.
  destruct (rem_integers t 3600 T0) as (r1 & -> & E1); [lia|].
  destruct (rem_integers t 60 T0) as (r2 & -> & E2); [lia|].
  assert (M1 := Z.mod_pos_bound t 3600 ltac:(lia)).
  assert (M2 := Z.mod_pos_bound t 60 ltac:(lia)).
  assert (B1 : binary64 r1).
  { apply (binary64_comp (inject_Z (t mod 3600))); [now symmetry|].
    apply binary64_Z. lia. }
  assert (P1 : 0 <= r1) by (rewrite E1; apply inject_Z_nonneg; lia).
  assert (H1 : r1 < pow2 53) by (rewrite E1; apply below_2_53; lia).
  rewrite (floor_div r1 60 B1 P1 H1) by lia.
  assert (E3 : Qfloor (r1 / inject_Z 60) = (t mod 3600 / 60)%Z).
  { rewrite <- Qfloor_quot by lia. apply Qfloor_comp. now rewrite E1. }
  rewrite E3. rewrite !Z.rem_mod_nonneg by lia.
  assert (D1 : (0 <= t / 3600 <= t)%Z).
  { split; [apply Z.div_pos; lia|]. apply Z.div_le_upper_bound; lia. }
  assert (D2 : (0 <= t mod 3600 / 60 < 2 ^ 53)%Z).
  { split; [apply Z.div_pos; lia|]. apply Z.div_lt_upper_bound; lia. }
  rewrite (toString_of_natural (inject_Z (t / 3600)) _ (Qeq_refl _)) by lia.
  rewrite (toString_of_natural (inject_Z (t mod 3600 / 60)) _ (Qeq_refl _)) by lia.
  rewrite (toString_of_natural r2 _ E2) by lia.
  replace (Double.gt (Double.Finite false (inject_Z (t / 3600))) (Double.of_Z 0))
    with (0 <? t / 3600)%Z; [reflexivity|].
  cbn [Double.gt Double.of_Z Double.signed Z.ltb Z.compare Z.abs].
  destruct (Z.ltb_spec 0 (t / 3600)) as [L|L];
    destruct (Qle_bool (inject_Z (t / 3600)) (inject_Z 0)) eqn:C; trivial.
  - apply Qle_bool_iff in C. rewrite <- Zle_Qle in C. lia.
  - exfalso. assert (C' : inject_Z (t / 3600) <= inject_Z 0) by (rewrite <- Zle_Qle; lia).
    apply Qle_bool_iff in C'. congruence.
Qed.

End DoubleOperations.

(* ------------------------------------------------------------------ *)
(** ** [parseFloat] on a decimal numeral *)

Section ParseFloat.
Local Open Scope Q_scope.

Lemma digit_codes (c : N) :
  Double.is_digit c = true ->
  In c [48; 49; 50; 51; 52; 53; 54; 55; 56; 57]%N.
Proof.
  unfold Double.is_digit, between. intros H.
  apply andb_true_iff in H. destruct H as [A B].
  apply N.leb_le in A, B. cbn [In].
  assert (c = 48 \/ c = 49 \/ c = 50 \/ c = 51 \/ c = 52 \/ c = 53 \/
          c = 54 \/ c = 55 \/ c = 56 \/ c = 57)%N by lia.
  intuition auto.
Qed.

Lemma digit_value_bounds (c : N) :
  Double.is_digit c = true -> (0 <= Z.of_N c - 48 <= 9)%Z.
Proof.
  unfold Double.is_digit, between. intros H.
  apply andb_true_iff in H. destruct H as [A B].
  apply N.leb_le in A, B. lia.
Qed.

Lemma span_digits_run (ds rest : jsstring) :
  all_digits ds ->
  match rest with c :: _ => Double.is_digit c = false | [] => True end ->
  Double.span_digits (ds ++ rest) = (ds, rest).
Proof.
  unfold all_digits. intros D R. induction ds as [|c ds IH]; cbn [app].
  - destruct rest as [|c t]; [reflexivity|]. cbn [Double.span_digits]. now rewrite R.
  - cbn [forallb] in D. apply andb_true_iff in D. destruct D as [C D].
    cbn [Double.span_digits]. rewrite C, (IH D). reflexivity.
Qed.

Lemma MV_from (ds : jsstring) (acc : Z) :
  fold_left (fun v c => v * 10 + (Z.of_N c - 48))%Z ds acc =
  (acc * 10 ^ Z.of_nat (length ds) + Double.MV ds)%Z.
Proof.
  unfold Double.MV. revert acc. induction ds as [|c ds IH]; intros acc.
  - cbn. lia.
  - cbn [fold_left length]. rewrite (IH (acc * 10 + (Z.of_N c - 48))%Z), (IH (0 * 10 + _)%Z).
    rewrite Nat2Z.inj_succ, Z.pow_succ_r by lia. ring.
Qed.

Lemma MV_app (a b : jsstring) :
  Double.MV (a ++ b) = (Double.MV a * 10 ^ Z.of_nat (length b) + Double.MV b)%Z.
Proof. unfold Double.MV at 1. rewrite fold_left_app. apply MV_from. Qed.

Lemma MV_bounds (ds : jsstring) :
  all_digits ds -> (0 <= Double.MV ds < 10 ^ Z.of_nat (length ds))%Z.
Proof.
  unfold all_digits. induction ds as [|c ds IH] using rev_ind; intros D.
  - cbn. lia.
  - rewrite forallb_app in D. apply andb_true_iff in D. destruct D as [D C].
    cbn [forallb] in C. rewrite andb_true_r in C.
    apply digit_value_bounds in C. specialize (IH D).
    rewrite MV_app, length_app, Nat2Z.inj_add. cbn [length].
    change (Z.of_nat 1) with 1%Z. rewrite Z.pow_add_r, Z.pow_1_r by lia.
    change (Double.MV [c]) with (0 * 10 + (Z.of_N c - 48))%Z. lia.
Qed.

Lemma digit_not_space (c : N) :
  Double.is_digit c = true ->
  Double.is_white_space c = false /\ N.eqb c (ch "+") = false /\
  N.eqb c (ch "-") = false /\ N.eqb c (ch ".") = false /\
  N.eqb c (ch "I") = false.
Proof.
  intros H. apply digit_codes in H. cbn [In] in H.
  repeat (destruct H as [<-|H]; [repeat split; reflexivity|]). destruct H.
Qed.

Lemma no_Infinity (c : N) (t : jsstring) :
  N.eqb c (ch "I") = false -> startsWith (c :: t) (js "Infinity") = false.
Proof.
  intros H. unfold startsWith.
  change (js "Infinity") with (ch "I" :: js "nfinity").
  cbn [strip_prefix]. now rewrite N.eqb_sym, H.
Qed.

(** [parseFloat] on digits, a point and digits. *)
Lemma parseFloat_decimal (int frac : jsstring) :
  int <> [] -> all_digits int -> all_digits frac ->
  Double.parseFloat (int ++ js "." ++ frac) =
  Double.round false
    (inject_Z (Double.MV (int ++ frac)) * 10 ^ (- Z.of_nat (length frac))).
Proof.
  intros Hn Hi Hf. destruct int as [|c int]; [congruence|].
  assert (C : Double.is_digit c = true).
  { unfold all_digits in Hi. cbn [forallb] in Hi. now apply andb_true_iff in Hi. }
  destruct (digit_not_space c C) as (W & Pl & Mi & Pt & In).
  unfold Double.parseFloat. cbn [app Double.trim_start]. rewrite W, Pl, Mi.
  unfold Double.StrUnsignedDecimalLiteral.
  rewrite (no_Infinity c _ In).
  change (c :: int ++ js "." ++ frac) with ((c :: int) ++ ch "." :: frac).
  rewrite (span_digits_run (c :: int) (ch "." :: frac) Hi eq_refl).
  rewrite N.eqb_refl.
  rewrite <- (app_nil_r frac) at 1. rewrite (span_digits_run frac [] Hf I).
  cbn [app Double.exponent_part]. rewrite Z.sub_0_l. reflexivity.
Qed.

(** [parseFloat] on digits alone. *)
Lemma parseFloat_digits (int : jsstring) :
  int <> [] -> all_digits int ->
  Double.parseFloat int = Double.round false (inject_Z (Double.MV int)).
Proof.
  intros Hn Hi. destruct int as [|c int]; [congruence|].
  assert (C : Double.is_digit c = true).
  { unfold all_digits in Hi. cbn [forallb] in Hi. now apply andb_true_iff in Hi. }
  destruct (digit_not_space c C) as (W & Pl & Mi & Pt & In).
  unfold Double.parseFloat. cbn [app Double.trim_start]. rewrite W, Pl, Mi.
  unfold Double.StrUnsignedDecimalLiteral.
  rewrite (no_Infinity c _ In).
  rewrite <- (app_nil_r (c :: int)) at 1.
  rewrite (span_digits_run (c :: int) [] Hi I). reflexivity.
Qed.

End ParseFloat.

(* ------------------------------------------------------------------ *)
(** ** The offset of an entry *)

Section Offsets.
Local Open Scope Q_scope.

(** The relative error of rounding, away from the smallest doubles. *)
Lemma nearest_relative (x : Q) :
  1 # 1024 <= x ->
  (nearest x - x) * pow2 53 <= x /\ (x - nearest x) * pow2 53 <= x.
Proof.
  intros H. destruct (nearest_error x) as [A B].
  assert (N := last_place_normal x (-10) ltac:(lia) H).
  assert (P52 : pow2 52 * pow2 1 == pow2 53) by (now rewrite <- pow2_plus).
  change (pow2 1) with 2 in P52. assert (P := pow2_pos 52).
  set (w := nearest x) in *. clearbody w.
  set (u := pow2 (last_place x)) in *. clearbody u.
  rewrite <- P52. set (t := pow2 52) in *. clearbody t.
  assert (A' : 2 * (w - x) * t <= u * t) by (apply Qmult_le_compat_r; lra).
  assert (B' : 2 * (x - w) * t <= u * t) by (apply Qmult_le_compat_r; lra).
  split.
  - eapply Qle_trans; [|exact N]. eapply Qle_trans; [|exact A'].
    apply Qle_lteq. right. ring.
  - eapply Qle_trans; [|exact N]. eapply Qle_trans; [|exact B'].
    apply Qle_lteq. right. ring.
Qed.

Lemma inject_Z_le (a b : Z) : (a <= b)%Z -> inject_Z a <= inject_Z b.
Proof. intros H. now rewrite <- Zle_Qle. Qed.

(** The product by 1000 of the double nearest to a number of seconds [v]
    given with three decimals: a double whose whole seconds are those of
    [v]. *)
Lemma offset_chain (v : Q) (q : Z) :
  (0 <= q < 10 ^ 9)%Z -> inject_Z q <= v -> v <= inject_Z q + (999 # 1000) ->
  v <= 0 \/ 1 # 1000 <= v ->
  exists ms : Q,
    Double.mul (Double.round false v) (Double.of_Z 1000) =
    Double.Finite false ms /\
    binary64 ms /\ 0 <= ms /\ ms < pow2 53 /\ Qfloor (ms / 1000) = q.
Proof.
  intros Hq Lo Hi Hv.
  assert (Q0 : 0 <= inject_Z q) by (apply inject_Z_nonneg; lia).
  assert (Q9 : inject_Z q <= 999999999) by (apply (inject_Z_le q 999999999); lia).
  assert (V0 : 0 <= v) by lra.
  assert (T := pow2_53).
  assert (V53 : v < pow2 53) by (rewrite T; lra).
  rewrite (round_finite false v V0 V53), (of_Z_positive 1000) by lia.
  cbn [Double.mul xorb].
  assert (W0 := rounded_ge v q V0 V53 Lo).
  assert (W1 : rounded v <= inject_Z (q + 1)).
  { apply rounded_le; trivial. rewrite inject_Z_plus. change (inject_Z 1) with 1. lra. }
  rewrite inject_Z_plus in W1. change (inject_Z 1) with 1 in W1.
  set (z := rounded v * inject_Z 1000).
  assert (Ez : z == rounded v * 1000) by reflexivity.
  assert (Z0 : 0 <= z) by (rewrite Ez; lra).
  assert (Z53 : z < pow2 53) by (rewrite Ez, T; lra).
  rewrite (round_finite false z Z0 Z53).
  exists (rounded z). split; [reflexivity|].
  split; [now apply rounded_binary64|].
  assert (M0 : inject_Z (1000 * q) <= rounded z).
  { apply rounded_ge; trivial. rewrite inject_Z_mult, Ez.
    change (inject_Z 1000) with 1000. lra. }
  assert (M1 : rounded z <= inject_Z (1000 * (q + 1))).
  { apply rounded_le; trivial. rewrite inject_Z_mult, inject_Z_plus, Ez.
    change (inject_Z 1000) with 1000. change (inject_Z 1) with 1. lra. }
  rewrite inject_Z_mult in M0. rewrite inject_Z_mult, inject_Z_plus in M1.
  change (inject_Z 1000) with 1000 in M0, M1. change (inject_Z 1) with 1 in M1.
  split; [lra|]. split; [rewrite T; lra|].
  apply Qfloor_unique.
  - apply Qle_shift_div_l; [reflexivity|]. lra.
  - rewrite inject_Z_plus. change (inject_Z 1) with 1.
    apply Qlt_shift_div_r; [reflexivity|].
    destruct Hv as [Zero|Pos].
    + assert (Ew : rounded v = 0) by now apply rounded_zero.
      assert (Zz : z <= 0) by (rewrite Ez, Ew; lra).
      rewrite (rounded_zero z Zz). lra.
    + assert (Vp : 0 < v) by lra.
      destruct (nearest_relative v) as [A B]; [lra|].
      rewrite <- (rounded_positive v Vp) in A, B.
      set (w := rounded v) in *. clearbody w. rewrite T in A, B.
      assert (Zp : 1 # 1024 <= z) by (rewrite Ez; lra).
      destruct (nearest_relative z Zp) as [C _].
      rewrite <- (rounded_positive z) in C by lra.
      set (ms := rounded z) in *. clearbody ms. rewrite T in C.
      clearbody z. clear Z53 V53 T. lra.
Qed.

Lemma formatTimestamp_whole (a b : Q) :
  Qfloor (a / 1000) = Qfloor (b / 1000) -> formatTimestamp a = formatTimestamp b.
Proof. intros E. unfold formatTimestamp. now rewrite E. Qed.

Lemma whole_of_seconds (q : Z) : Qfloor (inject_Z (1000 * q) / 1000) = q.
Proof.
  change 1000 with (inject_Z 1000). rewrite Qfloor_quot by lia.
  rewrite Z.mul_comm. apply Z.div_mul. lia.
Qed.

(** The timestamp of an offset with the whole seconds [q]. *)
Lemma timestamp_of_offset (d : Double.double) (ms : Q) (q : Z) :
  d = Double.Finite false ms -> binary64 ms -> 0 <= ms -> ms < pow2 53 ->
  Qfloor (ms / 1000) = q ->
  Double.formatTimestamp d = formatTimestamp (inject_Z (1000 * q)).
Proof.
  intros -> B P H E. rewrite formatTimestamp_in_doubles by trivial.
  apply formatTimestamp_whole. now rewrite whole_of_seconds.
Qed.

Lemma tenth_power (k : nat) : (k <= 3)%nat ->
  10 ^ (- Z.of_nat k) * inject_Z (10 ^ Z.of_nat k) == 1 /\
  (10 ^ Z.of_nat k <= 1000)%Z.
Proof.
  intros H. destruct k as [|[|[|[|k]]]]; try lia; split; try reflexivity; cbn; lia.
Qed.

(** The number of seconds written with at most three decimals. *)
Lemma decimal_seconds (int frac : jsstring) :
  all_digits int -> all_digits frac -> (length frac <= 3)%nat ->
  let v := inject_Z (Double.MV (int ++ frac)) * 10 ^ (- Z.of_nat (length frac)) in
  inject_Z (Double.MV int) <= v /\
  v <= inject_Z (Double.MV int) + (999 # 1000) /\
  (v <= 0 \/ 1 # 1000 <= v).
Proof.
  intros Hi Hf L v. unfold v. clear v.
  destruct (tenth_power (length frac) L) as [E B].
  assert (I := MV_bounds int Hi). assert (F := MV_bounds frac Hf).
  rewrite MV_app. set (k := Z.of_nat (length frac)) in *.
  set (q := Double.MV int) in *. set (f := Double.MV frac) in *.
  assert (P : (0 < 10 ^ k)%Z) by (apply Z.pow_pos_nonneg; unfold k; lia).
  set (p := (10 ^ k)%Z) in *.
  assert (Pq : 0 < inject_Z p) by now apply inject_Z_pos.
  assert (Pq' : inject_Z p <= 1000) by (apply (inject_Z_le p 1000); lia).
  set (r := 10 ^ (- k)) in *. clearbody r.
  assert (R : 0 < r).
  { apply Qmult_lt_r with (z := inject_Z p); [exact Pq|]. rewrite E. lra. }
  assert (F0 : 0 <= inject_Z f) by (apply inject_Z_nonneg; lia).
  assert (F1 : inject_Z f + 1 <= inject_Z p).
  { change 1 with (inject_Z 1). rewrite <- inject_Z_plus. apply inject_Z_le. lia. }
  assert (V : inject_Z (q * p + f) * r == inject_Z q + inject_Z f * r).
  { rewrite inject_Z_plus, inject_Z_mult.
    assert (X : inject_Z q * inject_Z p * r == inject_Z q * (r * inject_Z p)) by ring.
    rewrite Qmult_plus_distr_l, X, E. ring. }
  rewrite V.
  assert (G0 : 0 <= inject_Z f * r) by (apply Qmult_le_0_compat; lra).
  assert (G1 : (inject_Z f + 1) * r <= inject_Z p * r)
    by (apply Qmult_le_compat_r; lra).
  assert (G2 : r * inject_Z p == inject_Z p * r) by ring.
  assert (G3 : r * 1000 >= r * inject_Z p) by (apply Qmult_le_l; lra).
  assert (Q0 : 0 <= inject_Z q) by (apply inject_Z_nonneg; lia).
  split; [lra|]. split; [lra|].
  destruct (Z.eq_dec (q * p + f) 0) as [Zero|NZ].
  - left. assert (q = 0%Z /\ f = 0%Z) as [-> ->] by nia.
    change (inject_Z 0) with 0. lra.
  - right. destruct (Z.eq_dec q 0) as [->|Nq].
    + assert (1 <= inject_Z f) by (apply (inject_Z_le 1 f); lia).
      change (inject_Z 0) with 0.
      assert (1 * r <= inject_Z f * r) by (apply Qmult_le_compat_r; lra). lra.
    + assert (1 <= inject_Z q) by (apply (inject_Z_le 1 q); lia). lra.
Qed.

End Offsets.

(* ------------------------------------------------------------------ *)
(** ** Timestamps of parsed entries *)

Section DoubleTimestamps.
Local Open Scope Q_scope.

(** X24.  Double precision does not show in a timestamp.  For every double
    [ms] from 0 up to 2^53, [Math.floor(ms / 1000)] computed in double
    precision is the integer part of the exact quotient: the rounding of
    the quotient never reaches the next integer.  The divisions by 3600
    and by 60 that follow are as exact, so that [formatTimestamp], each of
    its operations rounded as the machine rounds it, returns the string of
    the exact arithmetic. *)
Theorem formatTimestamp_double_precision (ms : Q) :
  binary64 ms -> 0 <= ms -> ms < pow2 53 ->
  Double.floor (Double.div (Double.Finite false ms) (Double.of_Z 1000)) =
  Double.Finite false (inject_Z (Qfloor (ms / 1000))) /\
  Double.formatTimestamp (Double.Finite false ms) = formatTimestamp ms.
Proof.
  intros B P H. split.
  - apply (floor_div ms 1000); trivial. lia.
  - now apply formatTimestamp_in_doubles.
Qed.

Lemma formatTimestamp_double_precision_witness :
  Double.floor (Double.div (Double.Finite false 3665999) (Double.of_Z 1000)) =
  Double.Finite false (inject_Z (Qfloor (3665999 / 1000))) /\
  Double.formatTimestamp (Double.Finite false 3665999) = formatTimestamp 3665999.
Proof.
  apply (formatTimestamp_double_precision 3665999).
  - apply (binary64_Z 3665999). lia.
  - discriminate.
  - reflexivity.
Defined.

(** X25.  The timestamp of a parsed entry shows the whole seconds of the
    [start] attribute.  When [start] is a decimal numeral, up to nine
    digits with at most three decimals or none, the offset
    [parseFloat(start) * 1000] is computed with two roundings and need not
    be the exact number of milliseconds, but [formatTimestamp] prints for
    it what it prints for the digits before the point taken as seconds. *)
Theorem timestamp_of_decimal_start (l : jsstring) (e : element)
  (int frac : jsstring) :
  int <> [] -> all_digits int -> all_digits frac ->
  (length int <= 9)%nat -> (length frac <= 3)%nat ->
  el_start e = int \/ el_start e = int ++ js "." ++ frac ->
  Double.formatTimestamp (Double.eval (offset (entry_for l e))) =
  formatTimestamp (inject_Z (1000 * Double.MV int)).
Proof.
  intros Hn Hi Hf Li Lf S.
  assert (I := MV_bounds int Hi).
  assert (I9 : (10 ^ Z.of_nat (length int) <= 10 ^ 9)%Z)
    by (apply Z.pow_le_mono_r; lia).
  cbn [entry_for offset Double.eval].
  destruct S as [-> | ->].
  - rewrite (parseFloat_digits int Hn Hi).
    destruct (offset_chain (inject_Z (Double.MV int)) (Double.MV int))
      as (ms & E & B & P & H & F); try lra; try lia.
    + destruct (Z.eq_dec (Double.MV int) 0) as [->|N]; [left; discriminate|right].
      assert (1 <= inject_Z (Double.MV int)) by (apply (inject_Z_le 1); lia). lra.
    + now apply (timestamp_of_offset _ ms).
  - rewrite (parseFloat_decimal int frac Hn Hi Hf).
    destruct (decimal_seconds int frac Hi Hf Lf) as (Lo & Hi' & Hv).
    destruct (offset_chain _ (Double.MV int) ltac:(lia) Lo Hi' Hv)
      as (ms & E & B & P & H & F).
    now apply (timestamp_of_offset _ ms).
Qed.

Lemma timestamp_of_decimal_start_witness :
  Double.formatTimestamp
    (Double.eval (offset (entry_for (js "en") (element_with_start (js "3665.25"))))) =
  formatTimestamp (inject_Z (1000 * Double.MV (js "3665"))).
Proof.
  apply (timestamp_of_decimal_start (js "en") (element_with_start (js "3665.25"))
           (js "3665") (js "25")).
  - discriminate.
  - reflexivity.
  - reflexivity.
  - cbn. lia.
  - cbn. lia.
  - right. reflexivity.
Defined.

(** X26.  A [start] that is not a number is not refused.  When the
    attribute starts with a character with which no number starts, such
    as a letter, [parseFloat] returns NaN, the offset of the entry is NaN,
    and the timestamp that [formatTimestamp] prints for it reads
    NaN:NaN. *)
Theorem timestamp_of_unreadable_start (l : jsstring) (e : element)
  (c : N) (t : jsstring) :
  el_start e = c :: t -> starts_no_number c ->
  Double.eval (offset (entry_for l e)) = Double.NaN /\
  Double.formatTimestamp (Double.eval (offset (entry_for l e))) = js "NaN:NaN".
Proof.
  intros S (W & D & N).
  assert (E : Double.parseFloat (c :: t) = Double.NaN).
  { assert (Pl : N.eqb c (ch "+") = false)
      by (apply N.eqb_neq; intros ->; apply N; cbn; auto).
    assert (Mi : N.eqb c (ch "-") = false)
      by (apply N.eqb_neq; intros ->; apply N; cbn; auto).
    assert (Pt : N.eqb c (ch ".") = false)
      by (apply N.eqb_neq; intros ->; apply N; cbn; auto).
    assert (In : N.eqb c (ch "I") = false)
      by (apply N.eqb_neq; intros ->; apply N; cbn; auto).
    unfold Double.parseFloat. cbn [Double.trim_start]. rewrite W, Pl, Mi.
    unfold Double.StrUnsignedDecimalLiteral. rewrite (no_Infinity c t In).
    cbn [Double.span_digits]. rewrite D, Pt. reflexivity. }
  cbn [entry_for offset Double.eval]. rewrite S, E. split; reflexivity.
Qed.

Lemma timestamp_of_unreadable_start_witness :
  Double.eval (offset (entry_for (js "en") (element_with_start (js "soon")))) = Double.NaN /\
  Double.formatTimestamp
    (Double.eval (offset (entry_for (js "en") (element_with_start (js "soon"))))) =
  js "NaN:NaN".
Proof.
  apply (timestamp_of_unreadable_start (js "en") (element_with_start (js "soon"))
           (ch "s") (js "oon")).
  - reflexivity.
  - split; [reflexivity|split; [reflexivity|]].
    cbn. intros [H|[H|[H|[H|[]]]]]; discriminate H.
Defined.

End DoubleTimestamps.

(* ------------------------------------------------------------------ *)
(** ** The formatter in double precision *)

Section FormatterInDoubles.
Local Open Scope Z_scope.













(** C6, as amended.  On a double from 0 up to 2^53 milliseconds, with [t]
    its whole seconds, the formatter, computing in double precision,
    writes H:MM:SS from one hour on and M:SS below: the hours [t / 3600],
    or below one hour the minutes [t / 60], as a plain decimal numeral
    without padding, then the minutes within the hour, if hours are
    written, and the seconds within the minute with two digits each.  The
    four listed values are formatted as listed. *)
Theorem formatTimestamp_shape :
  (forall ms : Q, binary64 ms -> (0 <= ms)%Q -> (ms < pow2 53)%Q ->
     let t := Qfloor (ms / 1000) in
     ((3600000 <= ms)%Q ->
        Double.formatTimestamp (Double.Finite false ms) =
        toString (t / 3600) ++ js ":" ++ two_digits (t / 60 mod 60) ++
        js ":" ++ two_digits (t mod 60)) /\
     ((ms < 3600000)%Q ->
        Double.formatTimestamp (Double.Finite false ms) =
        toString (t / 60) ++ js ":" ++ two_digits (t mod 60)) /\
     plain_decimal (toString (t / 3600)) (t / 3600) /\
     plain_decimal (toString (t / 60)) (t / 60)) /\
  Double.formatTimestamp (Double.of_Z 0) = js "0:00" /\
  Double.formatTimestamp (Double.of_Z 45000) = js "0:45" /\
  Double.formatTimestamp (Double.of_Z 125000) = js "2:05" /\
  Double.formatTimestamp (Double.of_Z 3665000) = js "1:01:05".
Proof.
  split; [|repeat split; vm_compute; reflexivity].
  intros ms B P H t. rewrite (formatTimestamp_in_doubles ms B P H).
  exact (proj1 formatTimestamp_exact_shape ms P).
Qed.

Lemma formatTimestamp_witness :
  Double.formatTimestamp (Double.Finite false 3665000) =
  toString (Qfloor (3665000 / 1000) / 3600) ++ js ":" ++
  two_digits (Qfloor (3665000 / 1000) / 60 mod 60) ++ js ":" ++
  two_digits (Qfloor (3665000 / 1000) mod 60).
Proof.
  assert (B : binary64 3665000) by (apply (binary64_Z 3665000); lia).
  assert (H1 : (0 <= 3665000)%Q) by discriminate.
  assert (H2 : (3665000 < pow2 53)%Q) by reflexivity.
  assert (H3 : (3600000 <= 3665000)%Q) by discriminate.
  exact (proj1 (proj1 formatTimestamp_shape 3665000%Q B H1 H2) H3).
Defined.

(** C6 fails as stated.  Beyond 2^53 the quotient by 1000 is rounded
    before its floor is taken: at 2^63 milliseconds, a double, the seconds
    read 56 where the whole seconds leave 55.  An offset that is infinite,
    as the parser makes it of a [start] of 1e400, is written with neither
    minutes nor seconds. *)
Lemma formatTimestamp_beyond_double_precision :
  binary64 (inject_Z (2 ^ 63)) /\
  Double.formatTimestamp (Double.Finite false (inject_Z (2 ^ 63))) =
  js "2562047788015:12:56" /\
  Qfloor (inject_Z (2 ^ 63) / 1000) mod 60 = 55 /\
  Double.formatTimestamp
    (Double.eval (offset (entry_for (js "en") (element_with_start (js "1e400"))))) =
  js "Infinity:NaN:NaN".
Proof.
  split; [|repeat split; vm_compute; reflexivity].
  exists (2 ^ 52), 11. split; [lia|split; [lia|]]. vm_compute. reflexivity.
Qed.

(** On entries whose offsets are doubles from 0 up to 2^53 the two
    formatters write the same fragment. *)
Lemma formatTranscript_in_doubles (entries : list (TranscriptEntry Q))
  (options : FormatOptions) :
  Forall (fun entry : TranscriptEntry Q =>
            binary64 (offset entry) /\
            (0 <= offset entry)%Q /\ (offset entry < pow2 53)%Q)
         entries ->
  Double.formatTranscript (map as_doubles entries) options =
  formatTranscript entries options.
Proof.
  intros H. unfold Double.formatTranscript, formatTranscript.
  destruct (includeTimestamps options); cbv zeta; rewrite map_map.
  - do 4 f_equal. apply map_ext_in. intros entry Hin.
    rewrite Forall_forall in H. destruct (H entry Hin) as (B & P & U).
    cbn [as_doubles offset text].
    now rewrite (formatTimestamp_in_doubles _ B P U).
  - reflexivity.
Qed.

(** X8.  A timestamp determines the second it was made from.  For every
    double from 0 up to 2^53 milliseconds, the timestamp that
    [formatTimestamp] writes in double precision, read as a number in base
    60, gives back the whole seconds of the offset, an hour or more or
    less. *)
Theorem formatTimestamp_round_trip (ms : Q) :
  binary64 ms -> (0 <= ms)%Q -> (ms < pow2 53)%Q ->
  seconds_of (Double.formatTimestamp (Double.Finite false ms)) =
  Qfloor (ms / 1000).
Proof.
  intros B P H. rewrite (formatTimestamp_in_doubles ms B P H).
  now apply round_trip_exact.
Qed.

Lemma formatTimestamp_round_trip_witness :
  seconds_of (Double.formatTimestamp (Double.Finite false 3665999)) =
  Qfloor (3665999 / 1000).
Proof.
  apply (formatTimestamp_round_trip 3665999).
  - apply (binary64_Z 3665999). lia.
  - discriminate.
  - reflexivity.
Defined.

End FormatterInDoubles.
